(** * fastthread: wait lists, mutexes, condition variables and queues

    A shallow embedding of [ext/fastthread/fastthread.c] and the proofs
    of its specification.

    Conventions of the embedding.
    - C integer types follow the LP64 data model: [unsigned long] has 64
      bits and [unsigned] has 32 bits; every wrap-around is written out.
    - A Ruby [VALUE] is a tagged union; the special constants, immediate
      integers and object handles (threads among them) are its cases.
    - The [Entry] nodes a [List] obtained from [malloc] live in a store
      carried by that list: no function of the file hands a node of one
      list to another list.  A dereference of a pointer that is not in
      the store is undefined behaviour in C and [None] here.
    - The functions are followed from the point of view of the calling
      thread, up to the point where it returns, raises or parks itself
      in [rb_thread_stop]. *)

From Stdlib Require Import ZArith Lia.
From stdpp Require Import gmap list strings pretty.

Local Open Scope Z_scope.

(** ** Ruby values

    Modelled from the spec: [VALUE], [Qnil], [Qfalse], [Qtrue], [Qundef]
    and [RTEST] come from ruby.h, which is not in the repository.  A
    value is opaque to the queue; a task handle is an object. *)

Inductive VALUE : Type :=
  | Qfalse
  | Qtrue
  | Qnil
  | Qundef
  | Integer (n : Z)
  | Object (id : positive).

#[global] Instance VALUE_eq_dec : EqDecision VALUE.
Proof. solve_decision. Defined.

(** [RTEST(v)]: everything but [Qnil] and [Qfalse] is true. *)
Definition RTEST (v : VALUE) : bool :=
  match v with
  | Qfalse | Qnil => false
  | _ => true
  end.

Definition ULONG_MODULUS : Z := 2 ^ 64.
Definition UINT_MODULUS : Z := 2 ^ 32.

(** ** Wait lists *)

Abbreviation ptr := (option positive).

Record Entry : Type := mkEntry {
  value : VALUE;
  next : ptr
}.

Record List : Type := mkList {
  nodes : gmap positive Entry;
  entries : ptr;
  last_entry : ptr;
  entry_pool : ptr;
  size : Z
}.

(** [malloc(sizeof(Entry))]: an address that is not in use. *)
Definition malloc (h : gmap positive Entry) : positive := fresh (dom h).

(** A [List] struct is embedded in its owner, so [init_list] is given
    here as the value it leaves in the struct. *)
Definition init_list : List :=
  {| nodes := ∅; entries := None; last_entry := None;
     entry_pool := None; size := 0 |}.

(** [free_entries]: every iteration frees one node, so the loop runs at
    most once per node of the store before it ends or touches a freed
    node. *)
Fixpoint free_entries_loop (fuel : nat) (h : gmap positive Entry) (first : ptr)
  : option (gmap positive Entry) :=
  match first with
  | None => Some h
  | Some a =>
      match fuel with
      | O => None
      | S fuel' =>
          match h !! a with
          | None => None
          | Some e => free_entries_loop fuel' (delete a h) (next e)
          end
      end
  end.

Definition free_entries (h : gmap positive Entry) (first : ptr)
  : option (gmap positive Entry) :=
  free_entries_loop (base.size h) h first.

Definition push_list (lst : List) (v : VALUE) : option List :=
  (* entry = pool head or malloc *)
  match
    match entry_pool lst with
    | Some a =>
        match nodes lst !! a with
        | Some e => Some (a, next e)
        | None => None
        end
    | None => Some (malloc (nodes lst), None)
    end
  with
  | None => None
  | Some (entry, pool') =>
      (* entry->value = value; entry->next = NULL; *)
      let h1 := <[entry := mkEntry v None]> (nodes lst) in
      match last_entry lst with
      | Some l =>
          match h1 !! l with
          | None => None
          | Some le =>
              Some {| nodes := <[l := mkEntry (value le) (Some entry)]> h1;
                      entries := entries lst;
                      last_entry := Some entry;
                      entry_pool := pool';
                      size := (size lst + 1) mod ULONG_MODULUS |}
          end
      | None =>
          Some {| nodes := h1;
                  entries := Some entry;
                  last_entry := Some entry;
                  entry_pool := pool';
                  size := (size lst + 1) mod ULONG_MODULUS |}
      end
  end.

(** [push_multiple_list(lst, values, count)]: [values[i]] for
    [i < count]; reading past the end of the array is undefined. *)
Fixpoint push_multiple_loop (lst : List) (values : list VALUE) (i : nat)
    (n : nat) : option List :=
  match n with
  | O => Some lst
  | S n' =>
      match values !! i with
      | None => None
      | Some v =>
          match push_list lst v with
          | None => None
          | Some lst' => push_multiple_loop lst' values (S i) n'
          end
      end
  end.

Definition push_multiple_list (lst : List) (values : list VALUE) (count : Z)
  : option List :=
  push_multiple_loop lst values 0 (Z.to_nat count).

(** [shift_list]; [use_mem_pools] is the value of [USE_MEM_POOLS] at the
    call. *)
Definition shift_list (use_mem_pools : bool) (lst : List)
  : option (VALUE * List) :=
  match entries lst with
  | None => Some (Qundef, lst)
  | Some entry =>
      match nodes lst !! entry with
      | None => None
      | Some e =>
          let last' :=
            if decide (Some entry = last_entry lst) then None
            else last_entry lst in
          let size' := (size lst - 1) mod ULONG_MODULUS in
          if use_mem_pools then
            Some (value e,
                  {| nodes := <[entry := mkEntry (value e) (entry_pool lst)]>
                                (nodes lst);
                     entries := next e;
                     last_entry := last';
                     entry_pool := Some entry;
                     size := size' |})
          else
            Some (value e,
                  {| nodes := delete entry (nodes lst);
                     entries := next e;
                     last_entry := last';
                     entry_pool := entry_pool lst;
                     size := size' |})
      end
  end.

Definition clear_list (use_mem_pools : bool) (lst : List) : option List :=
  match last_entry lst with
  | None => Some lst
  | Some l =>
      if use_mem_pools then
        match nodes lst !! l with
        | None => None
        | Some le =>
            Some {| nodes := <[l := mkEntry (value le) (entry_pool lst)]>
                               (nodes lst);
                    entries := None;
                    last_entry := None;
                    entry_pool := entries lst;
                    size := 0 |}
        end
      else
        match free_entries (nodes lst) (entries lst) with
        | None => None
        | Some h =>
            Some {| nodes := h;
                    entries := None;
                    last_entry := None;
                    entry_pool := entry_pool lst;
                    size := 0 |}
        end
  end.

(** The values met on a walk along [next] from [p]; [mark_list],
    [array_from_list] and [assert_no_survivors] walk the live entries
    this way.  An acyclic chain has at most one entry per node of the
    store. *)
Fixpoint walk (fuel : nat) (h : gmap positive Entry) (p : ptr)
  : option (list VALUE) :=
  match p with
  | None => Some []
  | Some a =>
      match fuel with
      | O => None
      | S fuel' =>
          match h !! a with
          | None => None
          | Some e =>
              match walk fuel' h (next e) with
              | None => None
              | Some vs => Some (value e :: vs)
              end
          end
      end
  end.

Definition array_from_list (lst : List) : option (list VALUE) :=
  walk (base.size (nodes lst)) (nodes lst) (entries lst).

(** The values [rb_gc_mark] is called on by [mark_list]. *)
Definition mark_list (lst : List) : option (list VALUE) :=
  walk (base.size (nodes lst)) (nodes lst) (entries lst).

(** The values held by the nodes of the free pool. *)
Definition pool_values (lst : List) : option (list VALUE) :=
  walk (base.size (nodes lst)) (nodes lst) (entry_pool lst).

(** ** The shape of a wait list

    [lseg h p q ns]: following [next] from [p] in the store [h] visits
    the nodes [ns] (address and value of each, in order) and arrives at
    [q]. *)

Fixpoint lseg (h : gmap positive Entry) (p q : ptr)
    (ns : list (positive * VALUE)) : Prop :=
  match ns with
  | [] => p = q
  | (a, v) :: ns' =>
      p = Some a ∧ ∃ nx, h !! a = Some (mkEntry v nx) ∧ lseg h nx q ns'
  end.

(** [wf_list lst live pool]: the live entries of [lst] are [live], the
    nodes of its free pool are [pool], no node is met twice, the store
    holds these nodes and nothing else, [last_entry] is the last live
    node and [size] counts the live entries as an [unsigned long]. *)
Record wf_list (lst : List) (live pool : list (positive * VALUE)) : Prop := {
  wf_entries : lseg (nodes lst) (entries lst) None live;
  wf_pool : lseg (nodes lst) (entry_pool lst) None pool;
  wf_last : last_entry lst = last (live.*1);
  wf_nodup : NoDup ((live ++ pool).*1);
  wf_dom : ∀ a, a ∈ dom (nodes lst) ↔ a ∈ (live ++ pool).*1;
  wf_size : size lst = Z.of_nat (length live) mod ULONG_MODULUS
}.

(** ** Wait lists as seen from outside *)

(** The lists that [push_list], [shift_list] and [clear_list] build from
    an initialised one, whatever [USE_MEM_POOLS] is at each call. *)
Inductive reachable : List → Prop :=
  | reach_init : reachable init_list
  | reach_push lst v lst' :
      reachable lst → push_list lst v = Some lst' → reachable lst'
  | reach_shift use_mem_pools lst v lst' :
      reachable lst → shift_list use_mem_pools lst = Some (v, lst') →
      reachable lst'
  | reach_clear use_mem_pools lst lst' :
      reachable lst → clear_list use_mem_pools lst = Some lst' →
      reachable lst'.

(** A value that refers to an object (a thread, for a list of waiting
    threads). *)
Definition is_reference (v : VALUE) : bool :=
  match v with
  | Object _ => true
  | _ => false
  end.

Inductive list_op : Type :=
  | OpPush (v : VALUE)
  | OpShift
  | OpClear
  | OpSize
  | OpToSequence.

Inductive list_result : Type :=
  | RUnit
  | RValue (v : VALUE)
  | RSize (n : Z)
  | RSequence (vs : list VALUE).

Definition run_op (use_mem_pools : bool) (op : list_op) (lst : List)
  : option (list_result * List) :=
  match op with
  | OpPush v =>
      match push_list lst v with
      | Some lst' => Some (RUnit, lst')
      | None => None
      end
  | OpShift =>
      match shift_list use_mem_pools lst with
      | Some (v, lst') => Some (RValue v, lst')
      | None => None
      end
  | OpClear =>
      match clear_list use_mem_pools lst with
      | Some lst' => Some (RUnit, lst')
      | None => None
      end
  | OpSize => Some (RSize (size lst), lst)
  | OpToSequence =>
      match array_from_list lst with
      | Some vs => Some (RSequence vs, lst)
      | None => None
      end
  end.

(** What a caller can see of one step: the result of the operation, and
    the live entries and the size it leaves. *)
Record observation : Type := mkObservation {
  result : list_result;
  live_after : list VALUE;
  size_after : Z
}.

Fixpoint run (use_mem_pools : bool) (ops : list list_op) (lst : List)
  : option (list observation) :=
  match ops with
  | [] => Some []
  | op :: ops' =>
      match run_op use_mem_pools op lst with
      | None => None
      | Some (r, lst') =>
          match array_from_list lst', run use_mem_pools ops' lst' with
          | Some vs, Some rest => Some (mkObservation r vs (size lst') :: rest)
          | _, _ => None
          end
      end
  end.

(** The wait list of the specification: a FIFO sequence of values, with
    no storage nodes at all. *)
Definition spec_size (vs : list VALUE) : Z :=
  Z.of_nat (length vs) mod ULONG_MODULUS.

Definition spec_op (op : list_op) (vs : list VALUE)
  : list_result * list VALUE :=
  match op with
  | OpPush v => (RUnit, vs ++ [v])
  | OpShift =>
      match vs with
      | [] => (RValue Qundef, [])
      | v :: vs' => (RValue v, vs')
      end
  | OpClear => (RUnit, [])
  | OpSize => (RSize (spec_size vs), vs)
  | OpToSequence => (RSequence vs, vs)
  end.

Fixpoint spec_run (ops : list list_op) (vs : list VALUE)
  : list observation :=
  match ops with
  | [] => []
  | op :: ops' =>
      let '(r, vs') := spec_op op vs in
      mkObservation r vs' (spec_size vs') :: spec_run ops' vs'
  end.

(** ** The host: exceptions and scheduler *)

(** Modelled from the spec: the exception classes of the host that the
    file raises or rescues, with the message given to [rb_raise]. *)
Inductive Exception : Type :=
  | ThreadError (msg : string)
  | ArgError (msg : string)
  | RuntimeError (msg : string)
  | RangeError
  | TypeError.

(** The calls into the scheduler that a function makes, oldest first. *)
Inductive HostCall : Type :=
  | Wakeup (t : VALUE)         (* rb_thread_wakeup(t) returned *)
  | WakeupFailed (t : VALUE)   (* rb_thread_wakeup(t) raised ThreadError *)
  | Schedule                   (* rb_thread_schedule() *)
  | Stop.                      (* rb_thread_stop() *)

(** Modelled from the spec: the state of the host scheduler that the
    file reads and writes (section 6): the non-preemption flag, the
    handle of the running task, which tasks can no longer be resumed,
    and the global variable [$fastthread_avoid_mem_pools].  The calls
    made to the scheduler are recorded in [calls]. *)
Record Host : Type := mkHost {
  rb_thread_critical : Z;
  current_thread : positive;
  killed : VALUE → bool;
  avoid_mem_pools : VALUE;
  calls : list HostCall
}.

Definition rb_thread_current (h : Host) : VALUE := Object (current_thread h).

Definition USE_MEM_POOLS (h : Host) : bool := negb (RTEST (avoid_mem_pools h)).

Definition set_rb_thread_critical (c : Z) (h : Host) : Host :=
  {| rb_thread_critical := c; current_thread := current_thread h;
     killed := killed h; avoid_mem_pools := avoid_mem_pools h;
     calls := calls h |}.

Definition record_calls (cs : list HostCall) (h : Host) : Host :=
  {| rb_thread_critical := rb_thread_critical h;
     current_thread := current_thread h;
     killed := killed h; avoid_mem_pools := avoid_mem_pools h;
     calls := calls h ++ cs |}.

Definition record_call (c : HostCall) (h : Host) : Host := record_calls [c] h.

(** How a call ends for the calling thread: it returns, raises, parks
    itself in [rb_thread_stop] (what it does once it is woken is not
    followed), runs into undefined behaviour, or never leaves a loop. *)
Inductive Outcome (S A : Type) : Type :=
  | Returns (a : A) (h : Host) (s : S)
  | Raises (e : Exception) (h : Host) (s : S)
  | Stopped (h : Host) (s : S)
  | Undefined
  | Diverges.

Arguments Returns {S A} a h s.
Arguments Raises {S A} e h s.
Arguments Stopped {S A} h s.
Arguments Undefined {S A}.
Arguments Diverges {S A}.

(** A C function working on a struct of type [S]. *)
Definition M (S A : Type) : Type := Host → S → Outcome S A.

Definition ret {S A} (a : A) : M S A := λ h s, Returns a h s.

Definition bind {S A B} (m : M S A) (f : A → M S B) : M S B :=
  λ h s,
    match m h s with
    | Returns a h' s' => f a h' s'
    | Raises e h' s' => Raises e h' s'
    | Stopped h' s' => Stopped h' s'
    | Undefined => Undefined
    | Diverges => Diverges
    end.

Notation "'let*' x ':=' m 'in' k" := (bind m (λ x, k))
  (at level 10, x name, m at level 100, k at level 200, only parsing).
Notation "m ';;' k" := (bind m (λ _, k))
  (at level 100, k at level 200, right associativity, only parsing).

Definition rb_raise {S A} (e : Exception) : M S A := λ h s, Raises e h s.

Definition undefined_behaviour {S A} : M S A := λ _ _, Undefined.

Definition get {S} : M S S := λ h s, Returns s h s.
Definition put {S} (s : S) : M S unit := λ h _, Returns tt h s.
Definition host {S} : M S Host := λ h s, Returns h h s.

(** [rb_thread_critical = c;] *)
Definition set_critical {S} (c : Z) : M S unit :=
  λ h s, Returns tt (set_rb_thread_critical c h) s.

(** Running a function of a member struct on the member of [S] that
    [proj] reads and [inj] writes: [f(&s->member)]. *)
Definition on {S T A} (proj : S → T) (inj : T → S → S) (m : M T A) : M S A :=
  λ h s,
    match m h (proj s) with
    | Returns a h' t => Returns a h' (inj t s)
    | Raises e h' t => Raises e h' (inj t s)
    | Stopped h' t => Stopped h' (inj t s)
    | Undefined => Undefined
    | Diverges => Diverges
    end.

(** A list function that has no business with the scheduler. *)
Definition lift_list {A} (f : List → option (A * List)) : M List A :=
  λ h lst,
    match f lst with
    | Some (a, lst') => Returns a h lst'
    | None => Undefined
    end.

(** Modelled from the spec: [rb_ensure(body, _, ensure, _)], the
    scoped cleanup of the host: [ensure] runs when [body] returns and
    when it raises. *)
Definition rb_ensure {S A} (body : M S A) (ensure : M S unit) : M S A :=
  λ h s,
    match body h s with
    | Returns a h' s' => (ensure ;; ret a) h' s'
    | Raises e h' s' => (ensure ;; rb_raise e) h' s'
    | o => o
    end.

(** Modelled from the spec: [rb_thread_wakeup], "resume a specified
    task (may fail if the task is not resumable)": waking a killed
    thread raises a ThreadError. *)
Definition rb_thread_wakeup {S} (thread : VALUE) : M S VALUE :=
  λ h s,
    if killed h thread
    then Raises (ThreadError "killed thread") (record_call (WakeupFailed thread) h) s
    else Returns thread (record_call (Wakeup thread) h) s.

(** Modelled from the spec: [rb_thread_schedule], which hands control
    to the scheduler; what other threads then do is not followed. *)
Definition rb_thread_schedule {S} : M S unit :=
  λ h s, Returns tt (record_call Schedule h) s.

(** Modelled from the spec: [rb_thread_run] wakes the thread and then
    lets the scheduler pick, unless the caller is in a critical
    section. *)
Definition rb_thread_run {S} (thread : VALUE) : M S VALUE :=
  rb_thread_wakeup thread ;;
  let* h := host in
  (if decide (rb_thread_critical h = 0) then rb_thread_schedule else ret tt) ;;
  ret thread.

(** Modelled from the spec: [rb_thread_stop], "suspend the current
    task cooperatively": it leaves the critical section and parks the
    calling thread. *)
Definition rb_thread_stop {S} : M S unit :=
  λ h s, Stopped (record_call Stop (set_rb_thread_critical 0 h)) s.

(** [rb_rescue2(f, thread, return_value, Qnil, private_eThreadError, 0)]:
    a ThreadError raised by [f] is caught and [Qnil] is the result. *)
Definition rescue_thread_error {S} (m : M S VALUE) : M S VALUE :=
  λ h s,
    match m h s with
    | Raises (ThreadError _) h' s' => Returns Qnil h' s'
    | o => o
    end.

Definition wake_thread {S} (thread : VALUE) : M S VALUE :=
  rescue_thread_error (rb_thread_wakeup thread).

Definition run_thread {S} (thread : VALUE) : M S VALUE :=
  rescue_thread_error (rb_thread_run thread).

(** [wake_one]; a well-shaped list leaves the loop after at most one
    round per node. *)
Fixpoint wake_one_loop (fuel : nat) (waking : VALUE) : M List VALUE :=
  λ h lst,
    match entries lst with
    | None => Returns waking h lst
    | Some _ =>
        if RTEST waking then Returns waking h lst
        else
          match fuel with
          | O => Diverges
          | S fuel' =>
              (let* t := lift_list (shift_list (USE_MEM_POOLS h)) in
               let* w := wake_thread t in
               wake_one_loop fuel' w) h lst
          end
    end.

Definition wake_one : M List VALUE :=
  λ h lst, wake_one_loop (base.size (nodes lst)) Qnil h lst.

Fixpoint wake_all_loop (fuel : nat) : M List VALUE :=
  λ h lst,
    match entries lst with
    | None => Returns Qnil h lst
    | Some _ =>
        match fuel with
        | O => Diverges
        | S fuel' => (wake_one ;; wake_all_loop fuel') h lst
        end
    end.

Definition wake_all : M List VALUE :=
  λ h lst, wake_all_loop (base.size (nodes lst)) h lst.

(** [push_list(list, current)] *)
Definition push_current (current : VALUE) : M List unit :=
  lift_list (λ l, match push_list l current with
                  | Some l' => Some (tt, l')
                  | None => None
                  end).

(** ** Mutex *)

Record Mutex : Type := mkMutex {
  owner : VALUE;
  waiting : List
}.

Definition set_owner (v : VALUE) (m : Mutex) : Mutex :=
  {| owner := v; waiting := waiting m |}.
Definition set_waiting (w : List) (m : Mutex) : Mutex :=
  {| owner := owner m; waiting := w |}.

Definition init_mutex : Mutex := {| owner := Qnil; waiting := init_list |}.

Definition rb_mutex_locked_p : M Mutex VALUE :=
  let* mutex := get in
  ret (if RTEST (owner mutex) then Qtrue else Qfalse).

Definition rb_mutex_try_lock : M Mutex VALUE :=
  set_critical 1 ;;
  let* mutex := get in
  let* result :=
    (if negb (RTEST (owner mutex)) then
       let* h := host in
       put (set_owner (rb_thread_current h) mutex) ;;
       ret Qtrue
     else ret Qfalse) in
  set_critical 0 ;;
  ret result.

(** [lock_mutex]: a round of the loop with the mutex owned parks the
    thread, so the loop is followed for one round. *)
Fixpoint lock_mutex_loop (fuel : nat) (current : VALUE) : M Mutex unit :=
  let* mutex := get in
  if RTEST (owner mutex) then
    match fuel with
    | O => λ _ _, Diverges
    | S fuel' =>
        on waiting set_waiting (push_current current) ;;
        rb_thread_stop ;;
        set_critical 1 ;;
        lock_mutex_loop fuel' current
    end
  else
    put (set_owner current mutex) ;;
    set_critical 0.

Definition lock_mutex : M Mutex unit :=
  let* h := host in
  let current := rb_thread_current h in
  set_critical 1 ;;
  lock_mutex_loop 1 current.

Definition unlock_mutex_inner : M Mutex VALUE :=
  let* mutex := get in
  if negb (RTEST (owner mutex)) then ret Qundef
  else
    put (set_owner Qnil mutex) ;;
    on waiting set_waiting wake_one.

Definition unlock_mutex : M Mutex VALUE :=
  set_critical 1 ;;
  let* waking := rb_ensure unlock_mutex_inner (set_critical 0) in
  if decide (waking = Qundef) then ret Qfalse
  else
    (if RTEST waking then run_thread waking else ret Qnil) ;;
    ret Qtrue.

(** [rb_mutex_unlock] returns [self] or [Qnil]; [self] is given as
    [Qtrue] here. *)
Definition rb_mutex_unlock : M Mutex VALUE :=
  let* r := unlock_mutex in
  if RTEST r then ret Qtrue else ret Qnil.

(** ** ConditionVariable *)

Record ConditionVariable : Type := mkConditionVariable {
  cv_waiting : List
}.

Definition set_cv_waiting (w : List) (c : ConditionVariable)
  : ConditionVariable := {| cv_waiting := w |}.

Definition init_condvar : ConditionVariable := {| cv_waiting := init_list |}.

(** [wait_condvar(condvar, mutex)] works on the two structs. *)
Definition wait_condvar : M (ConditionVariable * Mutex) unit :=
  set_critical 1 ;;
  let* s := get in
  let* h := host in
  if negb (RTEST (owner (snd s))) then
    set_critical 0
  else if decide (owner (snd s) ≠ rb_thread_current h) then
    set_critical 0 ;;
    rb_raise (ThreadError "Not owner")
  else
    put (fst s, set_owner Qnil (snd s)) ;;
    on (λ s, cv_waiting (fst s))
       (λ w s, (set_cv_waiting w (fst s), snd s))
       (push_current (rb_thread_current h)) ;;
    rb_thread_stop ;;
    on snd (λ m s, (fst s, m)) lock_mutex.

Definition signal_condvar : M ConditionVariable unit :=
  set_critical 1 ;;
  let* waking :=
    rb_ensure (on cv_waiting set_cv_waiting wake_one) (set_critical 0) in
  if RTEST waking then (run_thread waking ;; ret tt) else ret tt.

Definition rb_condvar_broadcast : M ConditionVariable unit :=
  set_critical 1 ;;
  rb_ensure (on cv_waiting set_cv_waiting wake_all) (set_critical 0) ;;
  rb_thread_schedule.

(** ** Queue and SizedQueue *)

Record Queue : Type := mkQueue {
  mutex : Mutex;
  value_available : ConditionVariable;
  space_available : ConditionVariable;
  values : List;
  capacity : Z
}.

Definition set_mutex (m : Mutex) (q : Queue) : Queue :=
  {| mutex := m; value_available := value_available q;
     space_available := space_available q; values := values q;
     capacity := capacity q |}.
Definition set_value_available (c : ConditionVariable) (q : Queue) : Queue :=
  {| mutex := mutex q; value_available := c;
     space_available := space_available q; values := values q;
     capacity := capacity q |}.
Definition set_space_available (c : ConditionVariable) (q : Queue) : Queue :=
  {| mutex := mutex q; value_available := value_available q;
     space_available := c; values := values q;
     capacity := capacity q |}.
Definition set_values (l : List) (q : Queue) : Queue :=
  {| mutex := mutex q; value_available := value_available q;
     space_available := space_available q; values := l;
     capacity := capacity q |}.
Definition set_capacity (c : Z) (q : Queue) : Queue :=
  {| mutex := mutex q; value_available := value_available q;
     space_available := space_available q; values := values q;
     capacity := c |}.

Definition init_queue : Queue :=
  {| mutex := init_mutex;
     value_available := init_condvar;
     space_available := init_condvar;
     values := init_list;
     capacity := 0 |}.

(** Modelled from the spec: [NUM2ULONG] and [ULONG2NUM] of ruby.h.  An
    Integer of magnitude below 2^64 converts, a negative one wrapping
    around; a larger one is a RangeError and anything that is not a
    number a TypeError. *)
Definition NUM2ULONG {S} (v : VALUE) : M S Z :=
  match v with
  | Integer n =>
      if (- ULONG_MODULUS <? n) && (n <? ULONG_MODULUS)
      then ret (n mod ULONG_MODULUS)
      else rb_raise RangeError
  | _ => rb_raise TypeError
  end.

Definition ULONG2NUM (n : Z) : VALUE := Integer n.

(** Modelled from the spec: the persisted record.  [rb_marshal_dump]
    and [rb_marshal_load] are the host's; what is kept of them is the
    object that a load reads back from a dump: an Array with its
    elements, or an object of another type.  Marshal holds the number
    of elements of an Array in at most four bytes, so an Array that is
    read back has fewer than 2^32 elements; the type does not keep
    that bound, and the statements that rest on it assume it. *)
Inductive Marshalled : Type :=
  | MarshalledArray (elems : list VALUE)
  | MarshalledOther.

Definition rb_queue_marshal_load (data : Marshalled) : M Queue unit :=
  match data with
  | MarshalledOther => rb_raise (RuntimeError "expected Array of queue data")
  | MarshalledArray array =>
      match array with
      | [] => rb_raise (RuntimeError "missing capacity value")
      | first :: rest =>
          let* c := NUM2ULONG first in
          let* queue := get in
          put (set_capacity c queue) ;;
          (* (unsigned)RARRAY(array)->len *)
          let count := Z.of_nat (length rest) mod UINT_MODULUS in
          on values set_values
             (lift_list (λ l, match push_multiple_list l rest count with
                              | Some l' => Some (tt, l')
                              | None => None
                              end))
      end
  end.

Definition rb_queue_marshal_dump : M Queue Marshalled :=
  let* queue := get in
  match array_from_list (values queue) with
  | None => undefined_behaviour
  | Some array => ret (MarshalledArray (ULONG2NUM (capacity queue) :: array))
  end.

Definition clear_values : M List unit :=
  let* h := host in
  lift_list (λ l, match clear_list (USE_MEM_POOLS h) l with
                  | Some l' => Some (tt, l')
                  | None => None
                  end).

Definition rb_queue_clear : M Queue unit :=
  on mutex set_mutex lock_mutex ;;
  on values set_values clear_values ;;
  on space_available set_space_available signal_condvar ;;
  on mutex set_mutex unlock_mutex ;;
  ret tt.

Definition wait_value_available : M Queue unit :=
  on (λ q, (value_available q, mutex q))
     (λ s q, set_mutex (snd s) (set_value_available (fst s) q))
     wait_condvar.

Definition wait_space_available : M Queue unit :=
  on (λ q, (space_available q, mutex q))
     (λ s q, set_mutex (snd s) (set_space_available (fst s) q))
     wait_condvar.

(** [while (!queue->values.entries) wait_condvar(...)] *)
Fixpoint wait_while_empty (fuel : nat) : M Queue unit :=
  let* queue := get in
  match entries (values queue) with
  | Some _ => ret tt
  | None =>
      match fuel with
      | O => λ _ _, Diverges
      | S fuel' => wait_value_available ;; wait_while_empty fuel'
      end
  end.

(** [while (queue->capacity && queue->values.size >= queue->capacity)
    wait_condvar(...)] *)
Fixpoint wait_while_full (fuel : nat) : M Queue unit :=
  let* queue := get in
  if negb (capacity queue =? 0) && (capacity queue <=? size (values queue))
  then
    match fuel with
    | O => λ _ _, Diverges
    | S fuel' => wait_space_available ;; wait_while_full fuel'
    end
  else ret tt.

Definition shift_values : M List VALUE :=
  let* h := host in
  lift_list (shift_list (USE_MEM_POOLS h)).

(** [rb_queue_pop(argc, argv, self)].  A round of the waiting loop
    parks the thread, which holds the mutex, so one round is followed. *)
Definition rb_queue_pop (argv : list VALUE) : M Queue VALUE :=
  let* should_block :=
    match argv with
    | [] => ret true
    | [arg] => ret (negb (RTEST arg))
    | _ =>
        rb_raise
          (ArgError ("wrong number of arguments ("
                     +:+ pretty (length argv) +:+ " for 1)"))
    end in
  on mutex set_mutex lock_mutex ;;
  let* queue := get in
  (if negb (bool_decide (is_Some (entries (values queue))))
      && negb should_block
   then
     on mutex set_mutex unlock_mutex ;;
     rb_raise (ThreadError "queue empty")
   else ret tt) ;;
  wait_while_empty 1 ;;
  let* result := on values set_values shift_values in
  let* queue := get in
  (if negb (capacity queue =? 0) && (size (values queue) <? capacity queue)
   then on space_available set_space_available signal_condvar
   else ret tt) ;;
  on mutex set_mutex unlock_mutex ;;
  ret result.

Definition rb_queue_push (v : VALUE) : M Queue unit :=
  on mutex set_mutex lock_mutex ;;
  wait_while_full 1 ;;
  on values set_values (push_current v) ;;
  on value_available set_value_available signal_condvar ;;
  on mutex set_mutex unlock_mutex ;;
  ret tt.

Definition rb_sized_queue_max : M Queue VALUE :=
  on mutex set_mutex lock_mutex ;;
  let* queue := get in
  let result := ULONG2NUM (capacity queue) in
  on mutex set_mutex unlock_mutex ;;
  ret result.

(** [for ( ; difference > 0 ; --difference ) signal_condvar(...)] *)
Fixpoint signal_space_available (difference : nat) : M Queue unit :=
  match difference with
  | O => ret tt
  | S difference' =>
      on space_available set_space_available signal_condvar ;;
      signal_space_available difference'
  end.

Definition rb_sized_queue_max_set (v : VALUE) : M Queue unit :=
  let* new_capacity := NUM2ULONG v in
  (if new_capacity <? 1
   then rb_raise (ArgError "value must be positive")
   else ret tt) ;;
  on mutex set_mutex lock_mutex ;;
  let* queue := get in
  let difference :=
    if negb (capacity queue =? 0) && (capacity queue <? new_capacity)
    then new_capacity - capacity queue
    else 0 in
  put (set_capacity new_capacity queue) ;;
  signal_space_available (Z.to_nat difference) ;;
  on mutex set_mutex unlock_mutex ;;
  ret tt.

(** ** What waking does to a list of waiting threads

    The threads of a wait list, oldest first, as a sequence [ts]; a
    thread is given by its handle. *)

(** The waiting threads from the first one that can still be woken. *)
Fixpoint skip_killed (dead : VALUE → bool) (ts : list VALUE) : list VALUE :=
  match ts with
  | [] => []
  | t :: ts' => if dead t then skip_killed dead ts' else ts
  end.

(** The killed threads in front of it. *)
Fixpoint killed_prefix (dead : VALUE → bool) (ts : list VALUE) : list VALUE :=
  match ts with
  | [] => []
  | t :: ts' => if dead t then t :: killed_prefix dead ts' else []
  end.

(** The thread that one [wake_one] wakes, if any, and the threads it
    leaves waiting. *)
Definition woken (dead : VALUE → bool) (ts : list VALUE) : option VALUE :=
  head (skip_killed dead ts).

Definition still_waiting (dead : VALUE → bool) (ts : list VALUE)
  : list VALUE :=
  tail (skip_killed dead ts).

(** The scheduler calls of one [wake_one]. *)
Definition wake_one_calls (dead : VALUE → bool) (ts : list VALUE)
  : list HostCall :=
  (WakeupFailed <$> killed_prefix dead ts)
  ++ match woken dead ts with
     | Some t => [Wakeup t]
     | None => []
     end.

(** The scheduler calls of one [wake_one] followed by [run_thread] on
    the thread it woke, outside the critical section: this is one
    [signal_condvar], and the end of [unlock_mutex]. *)
Definition wake_and_run_calls (dead : VALUE → bool) (ts : list VALUE)
  : list HostCall :=
  wake_one_calls dead ts
  ++ match woken dead ts with
     | Some t => [Wakeup t; Schedule]
     | None => []
     end.

(** [n] signals in a row on a condition variable with waiting threads
    [ts]: the scheduler calls made and the threads left waiting. *)
Fixpoint signalled (dead : VALUE → bool) (n : nat) (ts : list VALUE)
  : list HostCall * list VALUE :=
  match n with
  | O => ([], ts)
  | S n' =>
      let '(cs, ts') := signalled dead n' (still_waiting dead ts) in
      (wake_and_run_calls dead ts ++ cs, ts')
  end.

(** ** Well-formed structs *)

(** A well-shaped list of waiting threads [ts]: only thread handles
    are ever pushed on such a list. *)
Definition wf_waiting (lst : List) (ts : list VALUE) : Prop :=
  (∃ live pool, wf_list lst live pool ∧ live.*2 = ts)
  ∧ Forall (λ t, is_reference t = true) ts.

(** A queue whose mutex has waiters [ms], whose condition variables
    have waiters [vas] and [sas], and which holds the values [vs]. *)
Record wf_queue (q : Queue) (ms vas sas vs : list VALUE) : Prop := {
  wf_queue_mutex : wf_waiting (waiting (mutex q)) ms;
  wf_queue_value_available : wf_waiting (cv_waiting (value_available q)) vas;
  wf_queue_space_available : wf_waiting (cv_waiting (space_available q)) sas;
  wf_queue_values : ∃ live pool, wf_list (values q) live pool ∧ live.*2 = vs;
  wf_queue_capacity : 0 ≤ capacity q < ULONG_MODULUS
}.

(** ** The statements about [rb_sized_queue_max_set] *)

(** The number of signals for a change of the capacity from [capacity]
    to [new_capacity]: the difference when the capacity grows. *)
Definition signals_for_growth (capacity new_capacity : Z) : nat :=
  Z.to_nat (if capacity <? new_capacity then new_capacity - capacity else 0).

(** [max_set_signals n h q v new_capacity ms vas sas vs]: called with
    [v] on the queue [q], whose mutex has the waiters [ms] and whose
    producers waiting for space are [sas], [rb_sized_queue_max_set]
    returns with the capacity set to [new_capacity] and the mutex
    released, having signalled "space available" [n] times and then
    having unlocked the mutex. *)
Definition max_set_signals (n : nat) (h : Host) (q : Queue) (v : VALUE)
    (new_capacity : Z) (ms vas sas vs : list VALUE) : Prop :=
  ∃ h' q',
    rb_sized_queue_max_set v h q = Returns tt h' q'
    ∧ capacity q' = new_capacity
    ∧ owner (mutex q') = Qnil
    ∧ wf_queue q' (still_waiting (killed h) ms) vas
        (signalled (killed h) n sas).2 vs
    ∧ calls h'
      = calls h ++ (signalled (killed h) n sas).1
        ++ wake_and_run_calls (killed h) ms.

(** ** The invariant of the specification, as it is worded *)

(** "size equals number of live entries; pool entries hold no task
    reference". *)
Definition wait_list_invariant (lst : List) : Prop :=
  ∃ vs pvs,
    array_from_list lst = Some vs
    ∧ size lst = Z.of_nat (length vs)
    ∧ pool_values lst = Some pvs
    ∧ Forall (λ v, is_reference v = false) pvs.

(** ** Sample states *)

(** No thread killed, pools in use, outside any critical section;
    the calling thread is thread 1. *)
Definition idle_host : Host :=
  {| rb_thread_critical := 0; current_thread := 1;
     killed := λ _, false; avoid_mem_pools := Qnil; calls := [] |}.

(** The wait list holding the threads [ts], built by pushing them. *)
Definition list_of (ts : list VALUE) : List :=
  default init_list
    (foldl (λ o t, match o with
                   | Some l => push_list l t
                   | None => None
                   end) (Some init_list) ts).

(** A queue with the given capacity, producers waiting for space and
    values, nobody else waiting and the mutex free. *)
Definition queue_with_producers (c : Z) (producers vs : list VALUE) : Queue :=
  {| mutex := init_mutex;
     value_available := init_condvar;
     space_available := {| cv_waiting := list_of producers |};
     values := list_of vs;
     capacity := c |}.

(** A mutex held by thread [t], nobody waiting. *)
Definition held_by (t : positive) : Mutex :=
  {| owner := Object t; waiting := init_list |}.

(** The wait list after a push of thread 7 on an initialised list, and
    that list after a shift with the node pool in use: the node is in
    the pool. *)
Definition pushed : List :=
  {| nodes := {[1%positive := mkEntry (Object 7) None]};
     entries := Some 1%positive; last_entry := Some 1%positive;
     entry_pool := None; size := 1 |}.

Definition pushed_and_shifted : List :=
  {| nodes := {[1%positive := mkEntry (Object 7) None]};
     entries := None; last_entry := None;
     entry_pool := Some 1%positive; size := 0 |}.

(** [n] non-blocking pops in a row, with the values they return. *)
Fixpoint pop_n (n : nat) : M Queue (list VALUE) :=
  match n with
  | O => ret []
  | S n' =>
      let* v := rb_queue_pop [Qtrue] in
      let* vs := pop_n n' in
      ret (v :: vs)
  end.

(** ** Releasing the structs *)

(** [finalize_list]: the live entries are freed, then the pool. *)
Definition finalize_list (lst : List) : option (gmap positive Entry) :=
  match free_entries (nodes lst) (entries lst) with
  | Some h => free_entries h (entry_pool lst)
  | None => None
  end.

(** [assert_no_survivors]: every waiting thread is given a wake-up, and
    one that takes it ends the walk with [rb_bug]; the result tells
    whether [rb_bug] was called. *)
Fixpoint assert_no_survivors_loop (fuel : nat) (nds : gmap positive Entry)
    (entry : ptr) (h : Host) : option (bool * Host) :=
  match entry with
  | None => Some (false, h)
  | Some a =>
      match fuel with
      | O => None
      | S fuel' =>
          match nds !! a with
          | None => None
          | Some e =>
              match wake_thread (value e) h tt with
              | Returns w h' _ =>
                  if RTEST w then Some (true, h')
                  else assert_no_survivors_loop fuel' nds (next e) h'
              | _ => None
              end
          end
      end
  end.

Definition assert_no_survivors (h : Host) (waiters : List)
  : option (bool * Host) :=
  assert_no_survivors_loop (base.size (nodes waiters)) (nodes waiters)
    (entries waiters) h.

(** How a free function ends: with [rb_bug], which aborts the process,
    or with the nodes freed, what is left of each store being given. *)
Inductive Finalization : Type :=
  | Bug (h : Host)
  | Released (h : Host) (stores : list (gmap positive Entry)).

Definition free_mutex (h : Host) (m : Mutex) : option Finalization :=
  match assert_no_survivors h (waiting m) with
  | None => None
  | Some (true, h') => Some (Bug h')
  | Some (false, h') =>
      match finalize_list (waiting m) with
      | None => None
      | Some store => Some (Released h' [store])
      end
  end.

Definition free_condvar (h : Host) (c : ConditionVariable)
  : option Finalization :=
  match assert_no_survivors h (cv_waiting c) with
  | None => None
  | Some (true, h') => Some (Bug h')
  | Some (false, h') =>
      match finalize_list (cv_waiting c) with
      | None => None
      | Some store => Some (Released h' [store])
      end
  end.

Definition free_queue (h : Host) (q : Queue) : option Finalization :=
  match assert_no_survivors h (waiting (mutex q)) with
  | None => None
  | Some (true, h1) => Some (Bug h1)
  | Some (false, h1) =>
      match assert_no_survivors h1 (cv_waiting (space_available q)) with
      | None => None
      | Some (true, h2) => Some (Bug h2)
      | Some (false, h2) =>
          match assert_no_survivors h2 (cv_waiting (value_available q)) with
          | None => None
          | Some (true, h3) => Some (Bug h3)
          | Some (false, h3) =>
              match finalize_list (waiting (mutex q)),
                    finalize_list (cv_waiting (value_available q)),
                    finalize_list (cv_waiting (space_available q)),
                    finalize_list (values q) with
              | Some s1, Some s2, Some s3, Some s4 =>
                  Some (Released h3 [s1; s2; s3; s4])
              | _, _, _, _ => None
              end
          end
      end
  end.

(** ** The methods that take a block *)

(** [rb_mutex_lock]: [self] is given as [Qtrue]. *)
Definition rb_mutex_lock : M Mutex VALUE := lock_mutex ;; ret Qtrue.

(** [rb_mutex_synchronize]; [block] is what [rb_yield] runs. *)
Definition rb_mutex_synchronize (block : M Mutex VALUE) : M Mutex VALUE :=
  rb_mutex_lock ;;
  rb_ensure block (rb_mutex_unlock ;; ret tt).

Definition rb_mutex_exclusive_unlock_inner (block : M Mutex VALUE)
  : M Mutex VALUE :=
  let* waking := unlock_mutex_inner in
  block ;;
  ret waking.

(** [rb_mutex_exclusive_unlock]: [self] is given as [Qtrue]. *)
Definition rb_mutex_exclusive_unlock (block : M Mutex VALUE)
  : M Mutex VALUE :=
  set_critical 1 ;;
  let* waking :=
    rb_ensure (rb_mutex_exclusive_unlock_inner block) (set_critical 0) in
  if decide (waking = Qundef) then ret Qnil
  else
    (if RTEST waking then run_thread waking else ret Qnil) ;;
    ret Qtrue.

(** ** The queries of a queue *)

Definition rb_queue_empty_p : M Queue VALUE :=
  on mutex set_mutex lock_mutex ;;
  let* queue := get in
  let result := if size (values queue) =? 0 then Qtrue else Qfalse in
  on mutex set_mutex unlock_mutex ;;
  ret result.

Definition rb_queue_length : M Queue VALUE :=
  on mutex set_mutex lock_mutex ;;
  let* queue := get in
  let result := ULONG2NUM (size (values queue)) in
  on mutex set_mutex unlock_mutex ;;
  ret result.

Definition rb_queue_num_waiting : M Queue VALUE :=
  on mutex set_mutex lock_mutex ;;
  let* queue := get in
  let result :=
    ULONG2NUM ((size (cv_waiting (value_available queue))
                + size (cv_waiting (space_available queue)))
               mod ULONG_MODULUS) in
  on mutex set_mutex unlock_mutex ;;
  ret result.

(** ** Wait lists with [USE_MEM_POOLS] changing between the calls *)

(** [$fastthread_avoid_mem_pools] is a global variable of the program:
    each operation of a run comes with the value [USE_MEM_POOLS] has
    when it is called. *)
Fixpoint run_mixed (ops : list (bool * list_op)) (lst : List)
  : option (list observation) :=
  match ops with
  | [] => Some []
  | (use_mem_pools, op) :: ops' =>
      match run_op use_mem_pools op lst with
      | None => None
      | Some (r, lst') =>
          match array_from_list lst', run_mixed ops' lst' with
          | Some vs, Some rest => Some (mkObservation r vs (size lst') :: rest)
          | _, _ => None
          end
      end
  end.

(** The wake-up attempt each waiting thread gets from [wake_all]. *)
Definition wake_attempt (dead : VALUE → bool) (t : VALUE) : HostCall :=
  if dead t then WakeupFailed t else Wakeup t.

(** A host in which thread 10 has been killed. *)
Definition host_with_killed_10 : Host :=
  {| rb_thread_critical := 0; current_thread := 1;
     killed := λ t, bool_decide (t = Object 10);
     avoid_mem_pools := Qnil; calls := [] |}.

(** A function that never ends with an exception, whatever the host and
    the struct it is called on. *)
Definition never_raises {S A} (m : M S A) : Prop :=
  ∀ h s e h' s', m h s ≠ Raises e h' s'.

(** ** A non-blocking pop, as the specification words it *)

(** "the queue's value list, capacity, and wait lists are left
    unchanged": [q] is the queue at the call and [q'] the queue when
    the error propagates. *)
Definition pop_leaves_unchanged (q q' : Queue) : Prop :=
  array_from_list (values q') = array_from_list (values q)
  ∧ capacity q' = capacity q
  ∧ array_from_list (waiting (mutex q'))
    = array_from_list (waiting (mutex q))
  ∧ array_from_list (cv_waiting (value_available q'))
    = array_from_list (cv_waiting (value_available q))
  ∧ array_from_list (cv_waiting (space_available q'))
    = array_from_list (cv_waiting (space_available q)).

(** A queue whose mutex is free, with the threads [ms] waiting for the
    mutex, the consumers [vas] and the producers [sas] waiting on the
    condition variables, and the values [vs]. *)
Definition queue_with_waiters (c : Z) (ms vas sas vs : list VALUE) : Queue :=
  {| mutex := {| owner := Qnil; waiting := list_of ms |};
     value_available := {| cv_waiting := list_of vas |};
     space_available := {| cv_waiting := list_of sas |};
     values := list_of vs;
     capacity := c |}.

(** * Proofs *)

Section Shape.
Implicit Types (h : gmap positive Entry) (p q : ptr).
Implicit Types (ns live pool : list (positive * VALUE)).

Lemma lseg_agree h h' p q ns :
  (∀ a, a ∈ ns.*1 → h' !! a = h !! a) →
  lseg h p q ns → lseg h' p q ns.
Proof.
  revert p. induction ns as [|[a v] ns IH]; intros p Hag; simpl; [done|].
  intros [-> (nx & Ha & Hrest)]. split; [done|]. exists nx. split.
  - rewrite Hag; [done|]. simpl. left.
  - apply IH; [|done]. intros b Hb. apply Hag. simpl. by right.
Qed.

Lemma lseg_app h p r q ns1 ns2 :
  lseg h p r ns1 → lseg h r q ns2 → lseg h p q (ns1 ++ ns2).
Proof.
  revert p. induction ns1 as [|[a v] ns1 IH]; intros p; simpl.
  - by intros ->.
  - intros [-> (nx & Ha & Hrest)] H2. split; [done|]. exists nx. eauto.
Qed.

Lemma lseg_in_dom h p q ns a :
  lseg h p q ns → a ∈ ns.*1 → a ∈ dom h.
Proof.
  revert p. induction ns as [|[b v] ns IH]; intros p; simpl.
  - intros _ Hin. by apply elem_of_nil in Hin.
  - intros [-> (nx & Hb & Hrest)] Hin. apply elem_of_cons in Hin as [->|Hin].
    + apply elem_of_dom. eauto.
    + eauto.
Qed.

(** Redirecting the [next] field of the last node of a segment. *)
Lemma lseg_set_last h p q q' ns l v :
  NoDup ((ns ++ [(l, v)]).*1) →
  lseg h p q (ns ++ [(l, v)]) →
  lseg (<[l := mkEntry v q']> h) p q' (ns ++ [(l, v)]).
Proof.
  revert p. induction ns as [|[a w] ns IH]; intros p; simpl.
  - intros _ [-> (nx & Hl & ->)]. split; [done|]. exists q'.
    by rewrite lookup_insert_eq.
  - intros Hnd [-> (nx & Ha & Hrest)]. apply NoDup_cons in Hnd as [Hnotin Hnd].
    split; [done|]. exists nx. split.
    + rewrite lookup_insert_ne; [done|]. intros ->. apply Hnotin.
      rewrite fmap_app. apply elem_of_app. right. simpl. left.
    + by apply IH.
Qed.

Lemma lseg_last_lookup h p q ns l v :
  lseg h p q (ns ++ [(l, v)]) → h !! l = Some (mkEntry v q).
Proof.
  revert p. induction ns as [|[a w] ns IH]; intros p; simpl.
  - by intros [-> (nx & Hl & ->)].
  - intros [-> (nx & Ha & Hrest)]. eauto.
Qed.

Lemma walk_lseg h p ns fuel :
  lseg h p None ns → (length ns ≤ fuel)%nat → walk fuel h p = Some (ns.*2).
Proof.
  revert p fuel. induction ns as [|[a v] ns IH]; intros p fuel; simpl.
  - intros -> _. by destruct fuel.
  - intros [-> (nx & Ha & Hrest)] Hlen. destruct fuel as [|fuel]; [lia|].
    simpl. rewrite Ha. simpl. rewrite (IH nx fuel); [done|done|lia].
Qed.

Lemma free_entries_loop_lseg h p ns fuel :
  lseg h p None ns → NoDup (ns.*1) → (length ns ≤ fuel)%nat →
  ∃ h', free_entries_loop fuel h p = Some h' ∧
        ∀ a, h' !! a = if decide (a ∈ ns.*1) then None else h !! a.
Proof.
  revert h p fuel. induction ns as [|[a v] ns IH]; intros h p fuel; simpl.
  - intros -> _ _. exists h. split; [by destruct fuel|].
    done.
  - intros [-> (nx & Ha & Hrest)] Hnd Hlen.
    apply NoDup_cons in Hnd as [Hnotin Hnd].
    destruct fuel as [|fuel]; [lia|]. simpl. rewrite Ha. simpl.
    assert (lseg (delete a h) nx None ns) as Hrest'.
    { eapply lseg_agree; [|done]. intros b Hb.
      rewrite lookup_delete_ne; [done|]. by intros ->. }
    assert (length ns ≤ fuel)%nat as Hlen' by lia.
    destruct (IH (delete a h) nx fuel Hrest' Hnd Hlen') as (h' & Hrun & Hlook).
    exists h'. split; [done|]. intros b. rewrite Hlook.
    destruct (decide (b = a)) as [->|Hne].
    + rewrite decide_False by done. rewrite lookup_delete_eq.
      rewrite decide_True; [done|]. left.
    + rewrite lookup_delete_ne by done.
      destruct (decide (b ∈ ns.*1)) as [Hin|Hnin].
      * rewrite decide_True; [done|]. by right.
      * rewrite decide_False; [done|]. intros Hin.
        apply elem_of_cons in Hin as [?|?]; done.
Qed.

End Shape.

(** ** The list operations keep the shape *)

Section ListOps.
Implicit Types (lst : List) (live pool : list (positive * VALUE)).

Lemma wf_init_list : wf_list init_list [] [].
Proof.
  split; simpl; try done.
  - constructor.
  - intros a. rewrite dom_empty_L. split; intros H; [set_solver|].
    by apply elem_of_nil in H.
Qed.

Lemma wf_store_size lst live pool :
  wf_list lst live pool →
  base.size (nodes lst) = length (live ++ pool).
Proof.
  intros [_ _ _ Hnd Hdom _].
  rewrite <- size_dom.
  assert (dom (nodes lst) = list_to_set ((live ++ pool).*1)) as ->.
  { apply set_eq. intros a. rewrite Hdom. by rewrite elem_of_list_to_set. }
  rewrite size_list_to_set by done. by rewrite length_fmap.
Qed.

Lemma array_from_list_wf lst live pool :
  wf_list lst live pool → array_from_list lst = Some (live.*2).
Proof.
  intros Hwf. unfold array_from_list. apply walk_lseg; [apply Hwf|].
  rewrite (wf_store_size _ _ _ Hwf), length_app. lia.
Qed.

Lemma mark_list_wf lst live pool :
  wf_list lst live pool → mark_list lst = Some (live.*2).
Proof. apply array_from_list_wf. Qed.

Lemma pool_values_wf lst live pool :
  wf_list lst live pool → pool_values lst = Some (pool.*2).
Proof.
  intros Hwf. unfold pool_values. apply walk_lseg; [apply Hwf|].
  rewrite (wf_store_size _ _ _ Hwf), length_app. lia.
Qed.

Lemma ulong_succ (n : nat) :
  (Z.of_nat n mod ULONG_MODULUS + 1) mod ULONG_MODULUS
  = Z.of_nat (S n) mod ULONG_MODULUS.
Proof. rewrite Zplus_mod_idemp_l. f_equal. lia. Qed.

Lemma ulong_pred (n : nat) :
  (Z.of_nat (S n) mod ULONG_MODULUS - 1) mod ULONG_MODULUS
  = Z.of_nat n mod ULONG_MODULUS.
Proof. rewrite Zminus_mod_idemp_l. f_equal. lia. Qed.


(** Linking [entry], already written with [value] and a null [next],
    behind the last live node. *)
Lemma push_link_wf lst live pool entry pp v h1 :
  h1 = <[entry := mkEntry v None]> (nodes lst) →
  lseg (nodes lst) (entries lst) None live →
  lseg (nodes lst) pp None pool →
  last_entry lst = last (live.*1) →
  NoDup ((live ++ pool).*1) →
  entry ∉ (live ++ pool).*1 →
  (∀ a, a ∈ dom h1 ↔ a = entry ∨ a ∈ (live ++ pool).*1) →
  size lst = Z.of_nat (length live) mod ULONG_MODULUS →
  ∃ lst',
    match last_entry lst with
    | Some l =>
        match h1 !! l with
        | None => None
        | Some le =>
            Some {| nodes := <[l := mkEntry (value le) (Some entry)]> h1;
                    entries := entries lst;
                    last_entry := Some entry;
                    entry_pool := pp;
                    size := (size lst + 1) mod ULONG_MODULUS |}
        end
    | None =>
        Some {| nodes := h1;
                entries := Some entry;
                last_entry := Some entry;
                entry_pool := pp;
                size := (size lst + 1) mod ULONG_MODULUS |}
    end = Some lst'
    ∧ wf_list lst' (live ++ [(entry, v)]) pool.
Proof.
  intros -> Hlive Hpool Hlast Hnd Hfresh Hdom Hsize.
  rewrite fmap_app, elem_of_app in Hfresh.
  assert (NoDup (((live ++ [(entry, v)]) ++ pool).*1)) as Hnd'.
  { rewrite <- app_assoc, fmap_app. simpl. rewrite fmap_app in Hnd.
    apply NoDup_app in Hnd as (Hl & Hdisj & Hp).
    apply NoDup_app. split; [done|]. split.
    - intros a Ha Ha'. apply elem_of_cons in Ha' as [->|Ha'].
      + apply Hfresh. by left.
      + by apply (Hdisj a).
    - apply NoDup_cons. split; [|done]. intros ?. apply Hfresh. by right. }
  assert (∀ a, a ∈ dom (<[entry := mkEntry v None]> (nodes lst))
               ↔ a ∈ ((live ++ [(entry, v)]) ++ pool).*1) as Hdom'.
  { intros a. rewrite Hdom. rewrite <- app_assoc, !fmap_app. simpl.
    rewrite !elem_of_app, elem_of_cons. tauto. }
  assert (lseg (<[entry := mkEntry v None]> (nodes lst)) pp None pool)
    as Hpool'.
  { eapply lseg_agree; [|done]. intros a Ha.
    rewrite lookup_insert_ne; [done|]. intros ->. apply Hfresh. by right. }
  assert (lseg (<[entry := mkEntry v None]> (nodes lst)) (entries lst) None
            live) as Hlive'.
  { eapply lseg_agree; [|done]. intros a Ha.
    rewrite lookup_insert_ne; [done|]. intros ->. apply Hfresh. by left. }
  rewrite Hlast, Hsize, ulong_succ.
  destruct live as [|[l w] live' _] using rev_ind.
  - simpl in *. subst. eexists. split; [done|].
    split; simpl; try done.
    + split; [done|]. exists None. by rewrite lookup_insert_eq.
  - rewrite fmap_snoc, last_snoc. simpl.
    pose proof (lseg_last_lookup _ _ _ _ _ _ Hlive') as Hl. rewrite Hl. simpl.
    assert (l ≠ entry) as Hne.
    { intros ->. apply Hfresh. left. rewrite fmap_app. apply elem_of_app.
      right. simpl. left. }
    eexists. split; [done|]. split; simpl.
    + apply lseg_app with (r := Some entry).
      * apply lseg_set_last with (q := None); [|done].
        rewrite fmap_app in Hnd. by apply NoDup_app in Hnd as (? & _ & _).
      * simpl. split; [done|]. exists None.
        rewrite lookup_insert_ne by done. by rewrite lookup_insert_eq.
    + eapply lseg_agree; [|done]. intros a Ha.
      rewrite lookup_insert_ne; [done|]. intros Heq. subst a.
      rewrite fmap_app in Hnd. apply NoDup_app in Hnd as (_ & Hdisj & _).
      apply (Hdisj l); [|done]. rewrite fmap_app. apply elem_of_app.
      right. simpl. left.
    + by rewrite fmap_snoc, last_snoc.
    + done.
    + intros a. rewrite <- Hdom'. rewrite !dom_insert_L.
      assert (l ∈ dom (nodes lst)).
      { eapply lseg_in_dom; [exact Hlive|]. rewrite fmap_app.
        apply elem_of_app. right. simpl. left. }
      rewrite !elem_of_union, !elem_of_singleton.
      split; [intros [->|?]; [by right|done]|tauto].
    + f_equal. rewrite !length_app. simpl. lia.
Qed.

(** [push_list] appends a node carrying the value; the node is the head
    of the pool when there is one and a new one otherwise. *)
Lemma push_list_wf lst live pool v :
  wf_list lst live pool →
  ∃ a lst', push_list lst v = Some lst'
            ∧ wf_list lst' (live ++ [(a, v)]) (tail pool).
Proof.
  intros [Hlive Hpool Hlast Hnd Hdom Hsize]. unfold push_list.
  destruct pool as [|[a w] pool'].
  - simpl in Hpool. rewrite Hpool.
    assert (malloc (nodes lst) ∉ dom (nodes lst)) as Hfresh
      by (unfold malloc; apply is_fresh).
    exists (malloc (nodes lst)).
    apply push_link_wf with (pool := []); try done.
    + intros Hin. apply Hfresh. by apply Hdom.
    + intros a. rewrite dom_insert_L, elem_of_union, elem_of_singleton.
      by rewrite Hdom.
  - simpl in Hpool. destruct Hpool as [-> (nx & Ha & Hpool')].
    rewrite Ha. simpl. exists a.
    assert (a ∉ (live ++ pool').*1) as Hfresh.
    { rewrite fmap_app in *. simpl in Hnd.
      apply NoDup_app in Hnd as (Hl & Hdisj & Hp).
      apply NoDup_cons in Hp as [Hp1 Hp2].
      intros Hin. apply elem_of_app in Hin as [Hin|Hin]; [|done].
      apply (Hdisj a); [done|]. left. }
    apply push_link_wf; try done.
    + rewrite fmap_app in *. simpl in Hnd.
      apply NoDup_app in Hnd as (Hl & Hdisj & Hp).
      apply NoDup_cons in Hp as [Hp1 Hp2].
      apply NoDup_app. split; [done|]. split; [|done].
      intros b Hb Hb'. apply (Hdisj b); [done|]. by right.
    + intros b. rewrite dom_insert_L, elem_of_union, elem_of_singleton.
      rewrite Hdom. rewrite !fmap_app. simpl.
      rewrite !elem_of_app, elem_of_cons. tauto.
Qed.

Lemma shift_list_nil use_mem_pools lst pool :
  wf_list lst [] pool → shift_list use_mem_pools lst = Some (Qundef, lst).
Proof.
  intros [Hlive _ _ _ _ _]. simpl in Hlive. unfold shift_list.
  by rewrite Hlive.
Qed.

(** [shift_list] takes the first live node and returns its value; the
    node goes to the head of the pool, its value field untouched, or is
    freed. *)
Lemma shift_list_wf use_mem_pools lst a v live pool :
  wf_list lst ((a, v) :: live) pool →
  ∃ lst', shift_list use_mem_pools lst = Some (v, lst')
          ∧ wf_list lst' live
              (if use_mem_pools then (a, v) :: pool else pool).
Proof.
  intros [Hlive Hpool Hlast Hnd Hdom Hsize]. unfold shift_list.
  simpl in Hlive. destruct Hlive as [Hent (nx & Ha & Hlive)].
  rewrite Hent, Ha. simpl in *.
  apply NoDup_cons in Hnd as [Hnotin Hnd].
  rewrite fmap_app, elem_of_app in Hnotin.
  assert (NoDup (live.*1) ∧ NoDup (pool.*1)
          ∧ ∀ b, b ∈ live.*1 → b ∉ pool.*1) as (Hndl & Hndp & Hdisj).
  { rewrite fmap_app in Hnd. by apply NoDup_app in Hnd as (? & ? & ?). }
  assert ((if decide (Some a = last_entry lst) then None
           else last_entry lst) = last (live.*1)) as Hlast'.
  { rewrite Hlast. destruct live as [|[b w] live']; simpl.
    - by rewrite decide_True.
    - rewrite decide_False; [done|]. intros Heq. apply Hnotin. left.
      apply last_Some_elem_of. symmetry. exact Heq. }
  rewrite Hlast', Hsize, ulong_pred.
  destruct use_mem_pools; eexists; (split; [done|]); split; simpl;
    try done.
  - eapply lseg_agree; [|done]. intros b Hb.
    rewrite lookup_insert_ne; [done|]. intros ->. apply Hnotin. by left.
  - split; [done|]. exists (entry_pool lst).
    rewrite lookup_insert_eq. split; [done|].
    eapply lseg_agree; [|done]. intros b Hb.
    rewrite lookup_insert_ne; [done|]. intros ->. apply Hnotin. by right.
  - rewrite fmap_app. simpl. apply NoDup_app. split; [done|]. split.
    + intros b Hb Hb'. apply elem_of_cons in Hb' as [->|Hb'].
      * apply Hnotin. by left.
      * by apply (Hdisj b).
    + apply NoDup_cons. split; [|done]. intros ?. apply Hnotin. by right.
  - intros b. rewrite dom_insert_L, elem_of_union, elem_of_singleton.
    rewrite Hdom. rewrite !fmap_app. simpl.
    rewrite !elem_of_cons, !elem_of_app, elem_of_cons. tauto.
  - eapply lseg_agree; [|done]. intros b Hb.
    rewrite lookup_delete_ne; [done|]. intros ->. apply Hnotin. by left.
  - eapply lseg_agree; [|done]. intros b Hb.
    rewrite lookup_delete_ne; [done|]. intros ->. apply Hnotin. by right.
  - intros b. rewrite dom_delete_L, elem_of_difference, elem_of_singleton.
    rewrite Hdom, elem_of_cons, !fmap_app, !elem_of_app.
    split; [intros [[?|?] ?]; [congruence|assumption]|].
    intros Hb. split; [by right|]. intros ->. tauto.
Qed.

(** [clear_list] leaves no live entry; the nodes go in front of the
    pool, or are freed. *)
Lemma clear_list_wf use_mem_pools lst live pool :
  wf_list lst live pool →
  ∃ lst', clear_list use_mem_pools lst = Some lst'
          ∧ wf_list lst' [] (if use_mem_pools then live ++ pool else pool).
Proof.
  intros Hwf. pose proof (wf_store_size _ _ _ Hwf) as Hstore.
  destruct Hwf as [Hlive Hpool Hlast Hnd Hdom Hsize]. unfold clear_list.
  rewrite Hlast.
  destruct live as [|[l w] live' _] using rev_ind.
  - simpl. exists lst. split; [done|].
    assert ((if use_mem_pools then pool else pool) = pool) as ->
      by by destruct use_mem_pools.
    by split.
  - rewrite fmap_snoc, last_snoc. simpl.
    assert (NoDup ((live' ++ [(l, w)]).*1) ∧ NoDup (pool.*1)
            ∧ ∀ b, b ∈ (live' ++ [(l, w)]).*1 → b ∉ pool.*1)
      as (Hndl & Hndp & Hdisj).
    { rewrite fmap_app in Hnd. by apply NoDup_app in Hnd as (? & ? & ?). }
    assert (l ∈ (live' ++ [(l, w)]).*1) as Hl.
    { rewrite fmap_snoc. apply elem_of_app. right. simpl. left. }
    destruct use_mem_pools.
    + rewrite (lseg_last_lookup _ _ _ _ _ _ Hlive). simpl.
      eexists. split; [done|]. split; simpl; try done.
      * apply lseg_app with (r := entry_pool lst).
        -- by apply lseg_set_last with (q := None).
        -- eapply lseg_agree; [|done]. intros b Hb.
           rewrite lookup_insert_ne; [done|]. intros Heq. subst b.
           by apply (Hdisj l).
      * intros b. rewrite dom_insert_L, elem_of_union, elem_of_singleton.
        rewrite <- Hdom. split; [|tauto]. intros [->|?]; [|done].
        apply Hdom. rewrite fmap_app. apply elem_of_app. by left.
    + unfold free_entries.
      destruct (free_entries_loop_lseg (nodes lst) (entries lst)
                  (live' ++ [(l, w)]) (base.size (nodes lst)))
        as (h' & -> & Hlook); [done|done|..].
      { rewrite Hstore, !length_app. lia. }
      eexists. split; [done|]. split; simpl; try done.
      * eapply lseg_agree; [|done]. intros b Hb. rewrite Hlook.
        rewrite decide_False; [done|]. intros Hin. by apply (Hdisj b).
      * intros b. rewrite elem_of_dom, Hlook.
        destruct (decide (b ∈ (live' ++ [(l, w)]).*1)) as [Hin|Hnin].
        -- split; [by intros [? ?]|]. intros Hb. by apply Hdisj in Hin.
        -- rewrite <- elem_of_dom, Hdom, fmap_app, elem_of_app. tauto.
Qed.

End ListOps.

(** ** Reachable lists are well shaped *)

Lemma reachable_wf lst :
  reachable lst → ∃ live pool, wf_list lst live pool.
Proof.
  induction 1 as [|lst v lst' _ (live & pool & Hwf) Hop
                  |b lst v lst' _ (live & pool & Hwf) Hop
                  |b lst lst' _ (live & pool & Hwf) Hop].
  - exists [], []. apply wf_init_list.
  - destruct (push_list_wf _ _ _ v Hwf) as (a & lst'' & Hpush & Hwf').
    rewrite Hpush in Hop. injection Hop as <-. eauto.
  - destruct live as [|[a w] live].
    + rewrite (shift_list_nil _ _ _ Hwf) in Hop. injection Hop as <- <-.
      eauto.
    + destruct (shift_list_wf b _ _ _ _ _ Hwf) as (lst'' & Hshift & Hwf').
      rewrite Hshift in Hop. injection Hop as <- <-. eauto.
  - destruct (clear_list_wf b _ _ _ Hwf) as (lst'' & Hclear & Hwf').
    rewrite Hclear in Hop. injection Hop as <-. eauto.
Qed.

(** On a reachable list no operation touches a node that is not there. *)
Lemma reachable_ops_defined lst :
  reachable lst →
  (∀ v, is_Some (push_list lst v))
  ∧ (∀ b, is_Some (shift_list b lst))
  ∧ (∀ b, is_Some (clear_list b lst))
  ∧ is_Some (array_from_list lst).
Proof.
  intros (live & pool & Hwf)%reachable_wf. repeat split.
  - intros v. destruct (push_list_wf _ _ _ v Hwf) as (? & ? & -> & _).
    eauto.
  - intros b. destruct live as [|[a w] live].
    + rewrite (shift_list_nil _ _ _ Hwf). eauto.
    + destruct (shift_list_wf b _ _ _ _ _ Hwf) as (? & -> & _). eauto.
  - intros b. destruct (clear_list_wf b _ _ _ Hwf) as (? & -> & _). eauto.
  - rewrite (array_from_list_wf _ _ _ Hwf). eauto.
Qed.

Lemma run_op_refines use_mem_pools op lst live pool :
  wf_list lst live pool →
  ∃ lst' live' pool',
    run_op use_mem_pools op lst = Some ((spec_op op (live.*2)).1, lst')
    ∧ wf_list lst' live' pool'
    ∧ live'.*2 = (spec_op op (live.*2)).2.
Proof.
  intros Hwf. destruct op as [v| | | |]; simpl.
  - destruct (push_list_wf _ _ _ v Hwf) as (a & lst' & -> & Hwf').
    exists lst', (live ++ [(a, v)]), (tail pool).
    by rewrite fmap_snoc.
  - destruct live as [|[a w] live].
    + rewrite (shift_list_nil _ _ _ Hwf). by exists lst, [], pool.
    + destruct (shift_list_wf use_mem_pools _ _ _ _ _ Hwf)
        as (lst' & -> & Hwf').
      by exists lst', live, (if use_mem_pools then (a, w) :: pool else pool).
  - destruct (clear_list_wf use_mem_pools _ _ _ Hwf) as (lst' & -> & Hwf').
    by exists lst', [], (if use_mem_pools then live ++ pool else pool).
  - exists lst, live, pool. split; [|done]. unfold spec_size.
    by rewrite (wf_size _ _ _ Hwf), length_fmap.
  - rewrite (array_from_list_wf _ _ _ Hwf). by exists lst, live, pool.
Qed.

Lemma run_refines use_mem_pools ops lst live pool :
  wf_list lst live pool →
  run use_mem_pools ops lst = Some (spec_run ops (live.*2)).
Proof.
  revert lst live pool. induction ops as [|op ops IH]; intros lst live pool Hwf.
  - done.
  - simpl.
    destruct (run_op_refines use_mem_pools op _ _ _ Hwf)
      as (lst' & live' & pool' & -> & Hwf' & Hlive').
    destruct (spec_op op (live.*2)) as [r vs'] eqn:Hspec. simpl in *.
    rewrite (array_from_list_wf _ _ _ Hwf'), (IH _ _ _ Hwf').
    rewrite Hlive'. unfold spec_size.
    by rewrite (wf_size _ _ _ Hwf'), <- Hlive', length_fmap.
Qed.

(** ** Waking the threads of a wait list *)

Section Waking.
Implicit Types (h : Host) (lst : List) (ts : list VALUE).

Lemma record_calls_nil h : record_calls [] h = h.
Proof. destruct h. unfold record_calls. simpl. by rewrite app_nil_r. Qed.

Lemma record_calls_app cs1 cs2 h :
  record_calls cs2 (record_calls cs1 h) = record_calls (cs1 ++ cs2) h.
Proof. unfold record_calls. simpl. by rewrite app_assoc. Qed.

Lemma wake_one_loop_woken fuel w h lst :
  RTEST w = true → wake_one_loop fuel w h lst = Returns w h lst.
Proof. intros Hw. destruct fuel; simpl; rewrite Hw; by destruct (entries lst). Qed.

Lemma is_reference_RTEST t : is_reference t = true → RTEST t = true.
Proof. by destruct t. Qed.

Lemma wake_one_loop_wf fuel h lst live pool :
  wf_list lst live pool →
  Forall (λ t, is_reference t = true) (live.*2) →
  (length live ≤ fuel)%nat →
  ∃ lst' live' pool',
    wake_one_loop fuel Qnil h lst
    = Returns (default Qnil (woken (killed h) (live.*2)))
        (record_calls (wake_one_calls (killed h) (live.*2)) h) lst'
    ∧ wf_list lst' live' pool'
    ∧ live'.*2 = still_waiting (killed h) (live.*2).
Proof.
  revert fuel h lst pool.
  induction live as [|[a t] live IH]; intros fuel h lst pool Hwf Href Hfuel.
  - exists lst, [], pool. split; [|done].
    assert (entries lst = None) as Hent by apply Hwf.
    unfold wake_one_calls, woken. simpl. rewrite record_calls_nil.
    destruct fuel; simpl; by rewrite Hent.
  - destruct fuel as [|fuel]; [simpl in Hfuel; lia|].
    assert (entries lst = Some a) as Hent by apply Hwf.
    destruct (shift_list_wf (USE_MEM_POOLS h) _ _ _ _ _ Hwf)
      as (lst1 & Hshift & Hwf1).
    simpl in Href. apply Forall_cons in Href as [Ht Href].
    simpl. rewrite Hent. simpl.
    unfold bind at 1, lift_list. rewrite Hshift.
    unfold bind, wake_thread, rescue_thread_error, rb_thread_wakeup.
    unfold wake_one_calls, woken, still_waiting. simpl.
    destruct (killed h t) eqn:Hdead.
    + destruct (IH fuel (record_call (WakeupFailed t) h) lst1 _ Hwf1 Href)
        as (lst' & live' & pool' & Hrun & Hwf' & Hlive'); [simpl in Hfuel; lia|].
      exists lst', live', pool'. split; [|done].
      rewrite Hrun. unfold record_call. by rewrite record_calls_app.
    + exists lst1, live, (if USE_MEM_POOLS h then (a, t) :: pool else pool).
      split; [|done].
      rewrite wake_one_loop_woken by by apply is_reference_RTEST.
      done.
Qed.

Lemma wake_one_wf h lst ts :
  wf_waiting lst ts →
  ∃ lst',
    wake_one h lst
    = Returns (default Qnil (woken (killed h) ts))
        (record_calls (wake_one_calls (killed h) ts) h) lst'
    ∧ wf_waiting lst' (still_waiting (killed h) ts).
Proof.
  intros [(live & pool & Hwf & <-) Href]. unfold wake_one.
  destruct (wake_one_loop_wf (base.size (nodes lst)) h _ _ _ Hwf Href)
    as (lst' & live' & pool' & Hrun & Hwf' & Hlive').
  { rewrite (wf_store_size _ _ _ Hwf), length_app. lia. }
  exists lst'. split; [done|]. split; [by eauto|].
  unfold still_waiting. clear -Href.
  induction (live.*2) as [|t ts IH]; simpl; [done|].
  apply Forall_cons in Href as [Ht Href].
  destruct (killed h t); [by apply IH|done].
Qed.

Lemma woken_alive dead ts t :
  woken dead ts = Some t → dead t = false.
Proof.
  unfold woken. induction ts as [|t' ts IH]; simpl; [done|].
  destruct (dead t') eqn:Hdead; [done|]. simpl. by intros [= <-].
Qed.

(** One [wake_one] splits the waiting threads into killed ones, which
    are dropped, at most one thread that is woken, and the rest. *)
Lemma wake_one_partition dead ts :
  ts = killed_prefix dead ts ++ option_list (woken dead ts)
       ++ still_waiting dead ts
  ∧ Forall (λ t, dead t = true) (killed_prefix dead ts).
Proof.
  unfold woken, still_waiting. induction ts as [|t ts [IH1 IH2]]; simpl.
  - done.
  - destruct (dead t) eqn:Hdead; simpl.
    + split; [by f_equal|]. by constructor.
    + done.
Qed.

Lemma woken_in dead ts t : woken dead ts = Some t → t ∈ ts.
Proof.
  unfold woken. induction ts as [|t' ts IH]; simpl; [done|].
  destruct (dead t'); [right; by apply IH|]. simpl. intros [= <-]. left.
Qed.

Lemma woken_reference dead ts :
  Forall (λ t, is_reference t = true) ts →
  default Qnil (woken dead ts) ≠ Qundef
  ∧ RTEST (default Qnil (woken dead ts))
    = bool_decide (is_Some (woken dead ts)).
Proof.
  intros Href. destruct (woken dead ts) as [t|] eqn:Hw; simpl; [|done].
  apply woken_in in Hw. rewrite Forall_forall in Href.
  specialize (Href t Hw). by destruct t.
Qed.

(** [run_thread] on a thread that can be woken, outside the critical
    section. *)
Lemma run_thread_alive {S} h (s : S) t :
  killed h t = false → rb_thread_critical h = 0 →
  run_thread t h s = Returns t (record_calls [Wakeup t; Schedule] h) s.
Proof.
  intros Halive Hcrit.
  unfold run_thread, rescue_thread_error, rb_thread_run, bind,
    rb_thread_wakeup, host.
  rewrite Halive. simpl. rewrite Hcrit. simpl.
  unfold rb_thread_schedule, ret, record_call.
  by rewrite record_calls_app.
Qed.

Lemma still_waiting_shorter dead ts :
  (length (still_waiting dead ts) ≤ pred (length ts))%nat.
Proof.
  unfold still_waiting. induction ts as [|t ts IH]; simpl; [lia|].
  destruct (dead t); simpl; lia.
Qed.

Lemma wake_all_loop_wf fuel h lst ts :
  wf_waiting lst ts → (length ts ≤ fuel)%nat →
  ∃ h' lst', wake_all_loop fuel h lst = Returns Qnil h' lst'
             ∧ wf_waiting lst' []
             ∧ killed h' = killed h.
Proof.
  revert h lst ts. induction fuel as [|fuel IH]; intros h lst ts Hwf Hlen.
  - destruct ts; [|simpl in Hlen; lia].
    destruct Hwf as [(live & pool & Hl & Hnil) Href].
    apply fmap_nil_inv in Hnil. subst live.
    assert (entries lst = None) as Hent by apply Hl.
    exists h, lst. simpl. rewrite Hent. split; [done|]. split; [|done].
    split; [|done]. by exists [], pool.
  - destruct (wake_one_wf h lst ts Hwf) as (lst1 & Hwake & Hwf1).
    destruct (IH (record_calls (wake_one_calls (killed h) ts) h) lst1
                (still_waiting (killed h) ts) Hwf1)
      as (h' & lst' & Hrest & Hwf' & Hk).
    { pose proof (still_waiting_shorter (killed h) ts). lia. }
    simpl. destruct (entries lst) eqn:Hent.
    + exists h', lst'. unfold bind. by rewrite Hwake, Hrest.
    + destruct Hwf as [(live & pool & Hl & Hts) Href].
      destruct live as [|[a t] live].
      * exists h, lst. split; [done|]. split; [|done].
        split; [|done]. by exists [], pool.
      * destruct Hl as [[Hl _] _ _ _ _ _]. congruence.
Qed.

(** [wake_all] drains the list, whatever becomes of each wake-up. *)
Lemma wake_all_wf h lst ts :
  wf_waiting lst ts →
  ∃ h' lst', wake_all h lst = Returns Qnil h' lst' ∧ wf_waiting lst' [].
Proof.
  intros Hwf. unfold wake_all.
  destruct (wake_all_loop_wf (base.size (nodes lst)) h lst ts Hwf)
    as (h' & lst' & Hrun & Hwf' & _); [|by eauto].
  destruct Hwf as [(live & pool & Hl & <-) _].
  rewrite (wf_store_size _ _ _ Hl), length_app, length_fmap. lia.
Qed.

End Waking.

(** ** Mutex and ConditionVariable *)

Section Primitives.
Implicit Types (h : Host) (m : Mutex) (c : ConditionVariable).
Implicit Types (ts : list VALUE).

Lemma push_current_wf h lst ts t :
  wf_waiting lst ts → is_reference t = true →
  ∃ lst', push_current t h lst = Returns tt h lst'
          ∧ wf_waiting lst' (ts ++ [t]).
Proof.
  intros [(live & pool & Hwf & <-) Href] Ht.
  destruct (push_list_wf _ _ _ t Hwf) as (a & lst' & Hpush & Hwf').
  exists lst'. unfold push_current, lift_list. rewrite Hpush.
  split; [done|]. split.
  - exists (live ++ [(a, t)]), (tail pool). by rewrite fmap_snoc.
  - apply Forall_app. split; [done|]. by apply Forall_singleton.
Qed.

Lemma lock_mutex_free h m :
  RTEST (owner m) = false →
  lock_mutex h m
  = Returns tt (set_rb_thread_critical 0 h)
      (set_owner (rb_thread_current h) m).
Proof.
  intros Hfree. unfold lock_mutex, bind, host, set_critical. simpl.
  unfold bind, get. by rewrite Hfree.
Qed.

(** A thread that finds the mutex owned queues itself and parks. *)
Lemma lock_mutex_owned h m ts :
  RTEST (owner m) = true →
  wf_waiting (waiting m) ts →
  ∃ w', lock_mutex h m
        = Stopped (record_call Stop (set_rb_thread_critical 0 h))
            (set_waiting w' m)
        ∧ wf_waiting w' (ts ++ [rb_thread_current h]).
Proof.
  intros Howned Hwf.
  destruct (push_current_wf (set_rb_thread_critical 1 h) _ _
              (rb_thread_current h) Hwf eq_refl) as (w' & Hpush & Hwf').
  exists w'. split; [|done].
  unfold lock_mutex, bind, host, set_critical. simpl.
  unfold bind, get. rewrite Howned. unfold on.
  by rewrite Hpush.
Qed.

Lemma unlock_mutex_free h m :
  RTEST (owner m) = false →
  unlock_mutex h m = Returns Qfalse (set_rb_thread_critical 0 h) m.
Proof.
  intros Hfree.
  unfold unlock_mutex, bind, set_critical, rb_ensure, unlock_mutex_inner,
    bind, get.
  by rewrite Hfree.
Qed.

(** Unlocking clears the owner, wakes the first waiter that can be
    woken and lets it run. *)
Lemma unlock_mutex_owned h m ts :
  RTEST (owner m) = true →
  wf_waiting (waiting m) ts →
  ∃ w', unlock_mutex h m
        = Returns Qtrue
            (record_calls (wake_and_run_calls (killed h) ts)
               (set_rb_thread_critical 0 h))
            {| owner := Qnil; waiting := w' |}
        ∧ wf_waiting w' (still_waiting (killed h) ts).
Proof.
  intros Howned Hwf.
  destruct (wake_one_wf (set_rb_thread_critical 1 h) _ _ Hwf)
    as (w' & Hwake & Hwf').
  exists w'. split; [|done].
  unfold unlock_mutex, rb_ensure, unlock_mutex_inner, bind, get, put, on,
    set_critical, ret.
  simpl. rewrite Howned. simpl. rewrite Hwake. simpl.
  destruct (woken_reference (killed h) ts (proj2 Hwf)) as [Hne HR].
  rewrite decide_False by done. rewrite HR.
  unfold wake_and_run_calls.
  destruct (woken (killed h) ts) as [t|] eqn:Hw; simpl.
  - rewrite run_thread_alive; [|by apply woken_alive in Hw|done].
    f_equal. unfold record_calls, set_rb_thread_critical. simpl.
    by rewrite <- app_assoc.
  - by rewrite app_nil_r.
Qed.

(** One signal: the first waiter that can be woken is woken and run. *)
Lemma signal_condvar_wf h c ts :
  wf_waiting (cv_waiting c) ts →
  ∃ w', signal_condvar h c
        = Returns tt
            (record_calls (wake_and_run_calls (killed h) ts)
               (set_rb_thread_critical 0 h))
            {| cv_waiting := w' |}
        ∧ wf_waiting w' (still_waiting (killed h) ts).
Proof.
  intros Hwf.
  destruct (wake_one_wf (set_rb_thread_critical 1 h) _ _ Hwf)
    as (w' & Hwake & Hwf').
  exists w'. split; [|done].
  unfold signal_condvar, rb_ensure, bind, on, set_critical, ret.
  simpl. rewrite Hwake. simpl.
  destruct (woken_reference (killed h) ts (proj2 Hwf)) as [Hne HR].
  rewrite HR. unfold wake_and_run_calls.
  destruct (woken (killed h) ts) as [t|] eqn:Hw; simpl.
  - rewrite run_thread_alive; [|by apply woken_alive in Hw|done].
    f_equal. unfold record_calls, set_rb_thread_critical. simpl.
    by rewrite <- app_assoc.
  - by rewrite app_nil_r.
Qed.

Lemma rb_mutex_try_lock_free h m :
  RTEST (owner m) = false →
  rb_mutex_try_lock h m
  = Returns Qtrue (set_rb_thread_critical 0 h)
      (set_owner (rb_thread_current h) m).
Proof.
  intros Hfree.
  unfold rb_mutex_try_lock, bind, set_critical, get, host, put, ret.
  by rewrite Hfree.
Qed.

Lemma rb_mutex_try_lock_owned h m :
  RTEST (owner m) = true →
  rb_mutex_try_lock h m = Returns Qfalse (set_rb_thread_critical 0 h) m.
Proof.
  intros Howned.
  unfold rb_mutex_try_lock, bind, set_critical, get, host, put, ret.
  by rewrite Howned.
Qed.

Lemma wait_condvar_unowned h c m :
  RTEST (owner m) = false →
  wait_condvar h (c, m) = Returns tt (set_rb_thread_critical 0 h) (c, m).
Proof.
  intros Hfree. unfold wait_condvar, bind, set_critical, get, host.
  simpl. by rewrite Hfree.
Qed.

Lemma wait_condvar_not_owner h c m :
  RTEST (owner m) = true → owner m ≠ rb_thread_current h →
  wait_condvar h (c, m)
  = Raises (ThreadError "Not owner") (set_rb_thread_critical 0 h) (c, m).
Proof.
  intros Howned Hother. unfold wait_condvar, bind, set_critical, get, host.
  simpl. rewrite Howned. simpl. by rewrite decide_True.
Qed.

(** The owner releases the mutex, queues itself on the condition
    variable and parks. *)
Lemma wait_condvar_owner h c m ts :
  owner m = rb_thread_current h →
  wf_waiting (cv_waiting c) ts →
  ∃ w', wait_condvar h (c, m)
        = Stopped (record_call Stop (set_rb_thread_critical 0 h))
            ({| cv_waiting := w' |}, set_owner Qnil m)
        ∧ wf_waiting w' (ts ++ [rb_thread_current h]).
Proof.
  intros Howner Hwf.
  destruct (push_current_wf (set_rb_thread_critical 1 h) _ _
              (rb_thread_current h) Hwf eq_refl) as (w' & Hpush & Hwf').
  exists w'. split; [|done].
  unfold wait_condvar, bind, set_critical, get, host, put, on.
  simpl. rewrite Howner. simpl. rewrite decide_False by (intros Hne; by apply Hne).
  simpl.
  change (rb_thread_current (set_rb_thread_critical 1 h))
    with (rb_thread_current h).
  by rewrite Hpush.
Qed.

Lemma rb_mutex_locked_p_spec h m :
  rb_mutex_locked_p h m
  = Returns (if RTEST (owner m) then Qtrue else Qfalse) h m.
Proof. done. Qed.

(** [unlock] on a mutex that is not locked does nothing and says so. *)
Lemma rb_mutex_unlock_free h m :
  RTEST (owner m) = false →
  rb_mutex_unlock h m = Returns Qnil (set_rb_thread_critical 0 h) m.
Proof.
  intros Hfree. unfold rb_mutex_unlock, bind.
  by rewrite (unlock_mutex_free _ _ Hfree).
Qed.

End Primitives.


(** ** Queue *)

Section QueueOps.
Implicit Types (h : Host) (q : Queue).
Implicit Types (ms vas sas vs : list VALUE).

Lemma set_rb_thread_critical_id h c :
  rb_thread_critical h = c → set_rb_thread_critical c h = h.
Proof. intros <-. by destruct h. Qed.

Lemma set_rb_thread_critical_twice c c' h :
  set_rb_thread_critical c (set_rb_thread_critical c' h)
  = set_rb_thread_critical c h.
Proof. done. Qed.

(** The signals of [rb_sized_queue_max_set]'s loop. *)
Lemma signal_space_available_wf n h q ms vas sas vs :
  wf_queue q ms vas sas vs →
  rb_thread_critical h = 0 →
  ∃ w',
    signal_space_available n h q
    = Returns tt (record_calls (signalled (killed h) n sas).1 h)
        (set_space_available {| cv_waiting := w' |} q)
    ∧ wf_waiting w' (signalled (killed h) n sas).2.
Proof.
  revert h q sas. induction n as [|n IH]; intros h q sas Hwf Hcrit.
  - exists (cv_waiting (space_available q)). simpl.
    rewrite record_calls_nil. split; [|apply Hwf].
    unfold ret. f_equal. by destruct q as [? ? []].
  - destruct (signal_condvar_wf h (space_available q) sas) as (w1 & Hsig & Hwf1);
      [apply Hwf|].
    rewrite (set_rb_thread_critical_id h 0 Hcrit) in Hsig.
    simpl. unfold bind, on. rewrite Hsig.
    destruct (IH (record_calls (wake_and_run_calls (killed h) sas) h)
                (set_space_available {| cv_waiting := w1 |} q)
                (still_waiting (killed h) sas))
      as (w' & Hloop & Hwf'); [|done|].
    { destruct Hwf. by split. }
    exists w'. simpl in Hloop, Hwf'. rewrite Hloop.
    destruct (signalled (killed h) n (still_waiting (killed h) sas))
      as [cs ts'] eqn:Hsp.
    simpl in *. split; [|done]. by rewrite record_calls_app.
Qed.

(** A [pop] that finds the mutex owned queues the caller on the wait
    list of the mutex and parks it. *)
Lemma rb_queue_pop_contended argv h q ms :
  (length argv ≤ 1)%nat →
  wf_waiting (waiting (mutex q)) ms →
  RTEST (owner (mutex q)) = true →
  ∃ mw,
    rb_queue_pop argv h q
    = Stopped (record_call Stop (set_rb_thread_critical 0 h))
        (set_mutex (set_waiting mw (mutex q)) q)
    ∧ wf_waiting mw (ms ++ [rb_thread_current h]).
Proof.
  intros Hargc Hm Howned.
  destruct (lock_mutex_owned h _ _ Howned Hm) as (mw & Hlock & Hwf).
  exists mw. split; [|done]. unfold rb_queue_pop.
  destruct argv as [|arg [|? ?]]; [| |simpl in Hargc; lia];
    unfold bind at 1, ret at 1; unfold bind at 1, on at 1;
    by rewrite Hlock.
Qed.

(** A [pop] that finds the mutex free and a value: the oldest value
    is returned, and a producer is signalled when the queue is bounded
    and is now below its capacity. *)
Lemma rb_queue_pop_front argv h q ms vas sas v vs :
  (length argv ≤ 1)%nat →
  wf_queue q ms vas sas (v :: vs) →
  RTEST (owner (mutex q)) = false →
  ∃ h' q',
    rb_queue_pop argv h q = Returns v h' q'
    ∧ wf_queue q' (still_waiting (killed h) ms) vas
        (if negb (capacity q =? 0) && (spec_size vs <? capacity q)
         then still_waiting (killed h) sas else sas) vs
    ∧ capacity q' = capacity q
    ∧ owner (mutex q') = Qnil.
Proof.
  intros Hargc Hwf Hfree.
  destruct Hwf as [Hm Hva Hsa (live & pool & Hvs & Hlive) Hcap].
  destruct live as [|[a v'] live]; [done|]. rewrite fmap_cons in Hlive.
  injection Hlive as -> <-.
  assert (entries (values q) = Some a) as Hent by apply Hvs.
  destruct (shift_list_wf (USE_MEM_POOLS h) _ _ _ _ _ Hvs)
    as (vl & Hshift & Hvl).
  assert (size vl = spec_size (live.*2)) as Hsize.
  { unfold spec_size. by rewrite (wf_size _ _ _ Hvl), length_fmap. }
  assert (∃ should_block,
    rb_queue_pop argv h q
    = (on mutex set_mutex lock_mutex ;;
       let* queue := get in
       (if negb (bool_decide (is_Some (entries (values queue))))
           && negb should_block
        then on mutex set_mutex unlock_mutex ;;
             rb_raise (ThreadError "queue empty")
        else ret tt) ;;
       wait_while_empty 1 ;;
       let* result := on values set_values shift_values in
       let* queue := get in
       (if negb (capacity queue =? 0)
           && (size (values queue) <? capacity queue)
        then on space_available set_space_available signal_condvar
        else ret tt) ;;
       on mutex set_mutex unlock_mutex ;;
       ret result) h q) as [should_block ->].
  { destruct argv as [|arg [|? ?]]; [by exists true| |simpl in Hargc; lia].
    by exists (negb (RTEST arg)). }
  unfold bind at 1, on at 1. rewrite (lock_mutex_free _ _ Hfree).
  unfold bind at 1, get at 1. cbn [values set_mutex]. rewrite Hent.
  rewrite bool_decide_true by eauto. cbn [negb andb].
  unfold bind at 1, ret at 1.
  assert (∀ h1 q1, entries (values q1) = Some a →
            wait_while_empty 1 h1 q1 = Returns tt h1 q1) as Hwait.
  { intros h1 q1 Hq1. simpl. unfold bind, get. by rewrite Hq1. }
  unfold bind at 1. rewrite Hwait by done.
  unfold bind at 1, on at 1, shift_values, bind at 1, host, lift_list.
  cbn [values set_mutex].
  change (USE_MEM_POOLS (set_rb_thread_critical 0 h))
    with (USE_MEM_POOLS h). rewrite Hshift.
  unfold bind at 1, get at 1. cbn [values capacity set_values set_mutex].
  rewrite Hsize.
  destruct (negb (capacity q =? 0) && (spec_size (live.*2) <? capacity q))
    eqn:Hsignal.
  - destruct (signal_condvar_wf (set_rb_thread_critical 0 h)
                (space_available q) sas Hsa) as (sw & Hsig & Hsw).
    rewrite set_rb_thread_critical_twice in Hsig.
    unfold bind at 1, on at 1. cbn [space_available set_values set_mutex].
    rewrite Hsig.
    destruct (unlock_mutex_owned
                (record_calls (wake_and_run_calls (killed h) sas)
                   (set_rb_thread_critical 0 h))
                (set_owner (rb_thread_current h) (mutex q)) ms)
      as (mw & Hunlock & Hwfm); [done|done|].
    unfold bind at 1, on at 1. simpl.
    simpl in Hunlock. rewrite Hunlock.
    unfold ret. eexists _, _. split; [done|]. simpl.
    split; [|done]. split; simpl; try done.
    by exists live, (if USE_MEM_POOLS h then (a, v) :: pool else pool).
  - destruct (unlock_mutex_owned (set_rb_thread_critical 0 h)
                (set_owner (rb_thread_current h) (mutex q)) ms)
      as (mw & Hunlock & Hwfm); [done|done|].
    unfold bind at 1, ret at 1. unfold bind at 1, on at 1. simpl.
    simpl in Hunlock. rewrite Hunlock.
    unfold ret. eexists _, _. split; [done|]. simpl.
    split; [|done]. split; simpl; try done.
    by exists live, (if USE_MEM_POOLS h then (a, v) :: pool else pool).
Qed.

Lemma push_multiple_loop_wf lst live pool (elems : list VALUE) i n :
  wf_list lst live pool →
  (i + n ≤ length elems)%nat →
  ∃ lst' live' pool',
    push_multiple_loop lst elems i n = Some lst'
    ∧ wf_list lst' live' pool'
    ∧ live'.*2 = live.*2 ++ take n (drop i elems).
Proof.
  revert lst live pool i.
  induction n as [|n IH]; intros lst live pool i Hwf Hlen.
  - exists lst, live, pool. simpl. by rewrite take_0, app_nil_r.
  - destruct (lookup_lt_is_Some_2 elems i) as [v Hv]; [lia|].
    destruct (push_list_wf _ _ _ v Hwf) as (a & lst1 & Hpush & Hwf1).
    destruct (IH _ _ _ (S i) Hwf1) as (lst' & live' & pool' & Hrun & Hwf' & Hl);
      [lia|].
    exists lst', live', pool'. simpl. rewrite Hv, Hpush.
    split; [done|]. split; [done|].
    rewrite Hl, fmap_snoc, <- app_assoc. simpl.
    by rewrite (drop_S _ _ _ Hv).
Qed.

Lemma push_multiple_list_wf lst live pool (elems : list VALUE) :
  wf_list lst live pool →
  ∃ lst' live' pool',
    push_multiple_list lst elems (Z.of_nat (length elems) mod UINT_MODULUS)
    = Some lst'
    ∧ wf_list lst' live' pool'
    ∧ live'.*2
      = live.*2
        ++ take (Z.to_nat (Z.of_nat (length elems) mod UINT_MODULUS)) elems.
Proof.
  intros Hwf. unfold push_multiple_list.
  destruct (push_multiple_loop_wf lst live pool elems 0
              (Z.to_nat (Z.of_nat (length elems) mod UINT_MODULUS)) Hwf)
    as (lst' & live' & pool' & Hrun & Hwf' & Hl).
  { assert (0 < UINT_MODULUS) by done.
    pose proof (Z.mod_le (Z.of_nat (length elems)) UINT_MODULUS).
    pose proof (Z.mod_pos_bound (Z.of_nat (length elems)) UINT_MODULUS).
    lia. }
  exists lst', live', pool'. by rewrite drop_0 in Hl.
Qed.

(** Loading a record: the capacity is overwritten, and the values
    that the [unsigned] count covers are appended. *)
Lemma rb_queue_marshal_load_wf h q ms vas sas vs0 n vs :
  wf_queue q ms vas sas vs0 →
  - ULONG_MODULUS < n < ULONG_MODULUS →
  ∃ vl,
    rb_queue_marshal_load (MarshalledArray (Integer n :: vs)) h q
    = Returns tt h (set_values vl (set_capacity (n mod ULONG_MODULUS) q))
    ∧ wf_queue (set_values vl (set_capacity (n mod ULONG_MODULUS) q))
        ms vas sas
        (vs0 ++ take (Z.to_nat (Z.of_nat (length vs) mod UINT_MODULUS)) vs).
Proof.
  intros [Hm Hva Hsa (live & pool & Hvs & Hlive) Hcap] Hrange.
  destruct (push_multiple_list_wf _ _ _ vs Hvs)
    as (vl & live' & pool' & Hpush & Hvl & Hl).
  exists vl. unfold rb_queue_marshal_load, NUM2ULONG.
  assert (((- ULONG_MODULUS <? n) && (n <? ULONG_MODULUS)) = true) as ->.
  { apply andb_true_intro. split; apply Z.ltb_lt; lia. }
  unfold bind, ret, get, put, on, lift_list. cbn [values set_capacity].
  rewrite Hpush. split; [done|].
  split; simpl; try done.
  - exists live', pool'. by rewrite Hl, Hlive.
  - by apply Z.mod_pos_bound.
Qed.

Lemma rb_queue_marshal_dump_wf h q ms vas sas vs :
  wf_queue q ms vas sas vs →
  rb_queue_marshal_dump h q
  = Returns (MarshalledArray (ULONG2NUM (capacity q) :: vs)) h q.
Proof.
  intros [_ _ _ (live & pool & Hvs & Hlive) _].
  unfold rb_queue_marshal_dump, bind, get.
  by rewrite (array_from_list_wf _ _ _ Hvs), Hlive.
Qed.

Lemma wf_init_queue : wf_queue init_queue [] [] [] [].
Proof.
  split; simpl; try done.
  - split; [|done]. exists [], []. split; [apply wf_init_list|done].
  - split; [|done]. exists [], []. split; [apply wf_init_list|done].
  - split; [|done]. exists [], []. split; [apply wf_init_list|done].
  - exists [], []. split; [apply wf_init_list|done].
Qed.

(** A record whose number of values is a multiple of 2^32: the
    [unsigned] count is 0 and no value is pushed. *)
Lemma rb_queue_marshal_load_truncated h q c v (n : nat) :
  - ULONG_MODULUS < c < ULONG_MODULUS →
  Z.of_nat n mod UINT_MODULUS = 0 →
  rb_queue_marshal_load (MarshalledArray (Integer c :: replicate n v)) h q
  = Returns tt h (set_values (values q) (set_capacity (c mod ULONG_MODULUS) q)).
Proof.
  intros Hrange Hcount. unfold rb_queue_marshal_load, NUM2ULONG.
  assert (((- ULONG_MODULUS <? c) && (c <? ULONG_MODULUS)) = true) as ->.
  { apply andb_true_intro. split; apply Z.ltb_lt; lia. }
  unfold bind, ret, get, put, on, lift_list.
  by rewrite length_replicate, Hcount.
Qed.

(** Popping everything from a queue nobody waits on. *)
Lemma pop_n_wf h q vas vs :
  wf_queue q [] vas [] vs →
  RTEST (owner (mutex q)) = false →
  ∃ h' q', pop_n (length vs) h q = Returns vs h' q'
           ∧ wf_queue q' [] vas [] []
           ∧ capacity q' = capacity q.
Proof.
  revert h q. induction vs as [|v vs IH]; intros h q Hwf Hfree.
  - by exists h, q.
  - destruct (rb_queue_pop_front [Qtrue] h q [] vas [] v vs)
      as (h1 & q1 & Hpop & Hwf1 & Hcap1 & Howner1); [simpl; lia|done|done|].
    assert (wf_queue q1 [] vas [] vs) as Hwf1'.
    { by destruct (negb (capacity q =? 0) && (spec_size vs <? capacity q)). }
    destruct (IH h1 q1 Hwf1') as (h' & q' & Hrest & Hwf' & Hcap');
      [by rewrite Howner1|].
    exists h', q'. simpl. unfold bind at 1. rewrite Hpop.
    unfold bind at 1. rewrite Hrest. unfold ret.
    split; [done|]. split; [done|]. congruence.
Qed.

(** The round trip of a queue of fewer than 2^32 values. *)
Lemma marshal_round_trip h q ms vas sas vs :
  wf_queue q ms vas sas vs →
  Z.of_nat (length vs) < UINT_MODULUS →
  ∃ q',
    rb_queue_marshal_dump h q
    = Returns (MarshalledArray (ULONG2NUM (capacity q) :: vs)) h q
    ∧ rb_queue_marshal_load (MarshalledArray (ULONG2NUM (capacity q) :: vs))
        h init_queue = Returns tt h q'
    ∧ capacity q' = capacity q
    ∧ wf_queue q' [] [] [] vs
    ∧ ∃ h'' q'', pop_n (length vs) h q' = Returns vs h'' q''.
Proof.
  intros Hwf Hshort.
  pose proof (wf_queue_capacity _ _ _ _ _ Hwf) as Hcap.
  destruct (rb_queue_marshal_load_wf h init_queue [] [] [] []
              (capacity q) vs wf_init_queue) as (vl & Hload & Hwf'); [lia|].
  rewrite Z.mod_small in Hload, Hwf' by done.
  rewrite (Z.mod_small (Z.of_nat (length vs))) in Hwf' by lia.
  rewrite Nat2Z.id, firstn_all in Hwf'. simpl in Hwf'.
  eexists. split; [by apply (rb_queue_marshal_dump_wf h q ms vas sas)|].
  split; [exact Hload|]. split; [done|]. split; [done|].
  destruct (pop_n_wf h _ [] vs Hwf') as (h'' & q'' & Hpop & _); [done|].
  eauto.
Qed.

(** A thread that finds the mutex of the queue owned is queued on the
    wait list of the mutex and parks, whatever it came for: nothing
    else of the queue is touched. *)
Lemma queue_operations_contended h q ms :
  wf_waiting (waiting (mutex q)) ms →
  RTEST (owner (mutex q)) = true →
  ∃ mw,
    wf_waiting mw (ms ++ [rb_thread_current h])
    ∧ rb_queue_clear h q
      = Stopped (record_call Stop (set_rb_thread_critical 0 h))
          (set_mutex (set_waiting mw (mutex q)) q)
    ∧ (∀ v,
         rb_queue_push v h q
         = Stopped (record_call Stop (set_rb_thread_critical 0 h))
             (set_mutex (set_waiting mw (mutex q)) q))
    ∧ (∀ n,
         - ULONG_MODULUS < n < ULONG_MODULUS → 1 ≤ n mod ULONG_MODULUS →
         rb_sized_queue_max_set (Integer n) h q
         = Stopped (record_call Stop (set_rb_thread_critical 0 h))
             (set_mutex (set_waiting mw (mutex q)) q)).
Proof.
  intros Hm Howned.
  destruct (lock_mutex_owned h _ _ Howned Hm) as (mw & Hlock & Hwf).
  exists mw. split; [done|]. split; [|split].
  - unfold rb_queue_clear, bind at 1, on at 1. by rewrite Hlock.
  - intros v. unfold rb_queue_push, bind at 1, on at 1.
    by rewrite Hlock.
  - intros n Hrange Hpos. unfold rb_sized_queue_max_set, NUM2ULONG.
    assert (((- ULONG_MODULUS <? n) && (n <? ULONG_MODULUS)) = true) as ->.
    { apply andb_true_intro. split; apply Z.ltb_lt; lia. }
    unfold bind at 1, ret at 1.
    assert ((n mod ULONG_MODULUS <? 1) = false) as ->
      by (apply Z.ltb_ge; lia).
    unfold bind at 1, ret at 1. unfold bind at 1, on at 1.
    by rewrite Hlock.
Qed.

End QueueOps.


(** * The properties of the specification *)

Section SampleStates.

Lemma list_of_from lst live pool (ts : list VALUE) :
  wf_list lst live pool →
  ∃ lst' live' pool',
    foldl (λ o t, match o with
                  | Some l => push_list l t
                  | None => None
                  end) (Some lst) ts = Some lst'
    ∧ wf_list lst' live' pool'
    ∧ live'.*2 = live.*2 ++ ts.
Proof.
  revert lst live pool. induction ts as [|t ts IH]; intros lst live pool Hwf.
  - exists lst, live, pool. by rewrite app_nil_r.
  - destruct (push_list_wf _ _ _ t Hwf) as (a & lst1 & Hpush & Hwf1).
    destruct (IH _ _ _ Hwf1) as (lst' & live' & pool' & Hrun & Hwf' & Hl).
    exists lst', live', pool'. simpl. rewrite Hpush.
    split; [done|]. split; [done|].
    by rewrite Hl, fmap_snoc, <- app_assoc.
Qed.

Lemma wf_list_of (ts : list VALUE) :
  Forall (λ t, is_reference t = true) ts → wf_waiting (list_of ts) ts.
Proof.
  intros Href. split; [|done]. unfold list_of.
  destruct (list_of_from _ _ _ ts wf_init_list)
    as (lst' & live' & pool' & -> & Hwf' & Hl).
  simpl in Hl. by exists live', pool'.
Qed.

Lemma wf_queue_with_producers c (producers vs : list VALUE) :
  0 ≤ c < ULONG_MODULUS →
  Forall (λ t, is_reference t = true) producers →
  wf_queue (queue_with_producers c producers vs) [] [] producers vs.
Proof.
  intros Hc Href. split; simpl; try done.
  - apply (wf_list_of []). done.
  - apply (wf_list_of []). done.
  - by apply wf_list_of.
  - unfold list_of.
    destruct (list_of_from _ _ _ vs wf_init_list)
      as (lst' & live' & pool' & -> & Hwf' & Hl).
    simpl in Hl. by exists live', pool'.
Qed.

Lemma wf_queue_with_waiters c (ms vas sas vs : list VALUE) :
  0 ≤ c < ULONG_MODULUS →
  Forall (λ t, is_reference t = true) ms →
  Forall (λ t, is_reference t = true) vas →
  Forall (λ t, is_reference t = true) sas →
  wf_queue (queue_with_waiters c ms vas sas vs) ms vas sas vs.
Proof.
  intros Hc Hms Hvas Hsas. split; simpl; try done.
  - by apply wf_list_of.
  - by apply wf_list_of.
  - by apply wf_list_of.
  - unfold list_of.
    destruct (list_of_from _ _ _ vs wf_init_list)
      as (lst' & live' & pool' & -> & Hwf' & Hl).
    simpl in Hl. by exists live', pool'.
Qed.

End SampleStates.

(** ** The examples of the specification, run *)

(** A SizedQueue of capacity 2 with three producers waiting: raising
    the capacity to 5 wakes the three, oldest first, and lets each
    run. *)
Example raise_capacity_wakes_three :
  match rb_sized_queue_max_set (Integer 5) idle_host
          (queue_with_producers 2 [Object 10; Object 11; Object 12] []) with
  | Returns _ h' q' =>
      calls h' = [Wakeup (Object 10); Wakeup (Object 10); Schedule;
                  Wakeup (Object 11); Wakeup (Object 11); Schedule;
                  Wakeup (Object 12); Wakeup (Object 12); Schedule]
      ∧ array_from_list (cv_waiting (space_available q')) = Some []
      ∧ capacity q' = 5
      ∧ owner (mutex q') = Qnil
  | _ => False
  end.
Proof. vm_compute. auto. Qed.

(** The same call on an unbounded queue wakes nobody. *)
Example raise_capacity_from_zero_wakes_nobody :
  match rb_sized_queue_max_set (Integer 5) idle_host
          (queue_with_producers 0 [Object 10; Object 11; Object 12] []) with
  | Returns _ h' q' =>
      calls h' = []
      ∧ array_from_list (cv_waiting (space_available q'))
        = Some [Object 10; Object 11; Object 12]
      ∧ capacity q' = 5
  | _ => False
  end.
Proof. vm_compute. auto. Qed.

(** [clear] on a queue with two values and two producers waiting wakes
    the first producer only. *)
Example clear_wakes_one :
  match rb_queue_clear idle_host
          (queue_with_producers 2 [Object 10; Object 11]
             [Integer 1; Integer 2]) with
  | Returns _ h' q' =>
      calls h' = [Wakeup (Object 10); Wakeup (Object 10); Schedule]
      ∧ array_from_list (cv_waiting (space_available q'))
        = Some [Object 11]
      ∧ array_from_list (values q') = Some []
      ∧ size (values q') = 0
  | _ => False
  end.
Proof. vm_compute. auto. Qed.

(** A SizedQueue of capacity 2: two pushes go through, the third parks
    the caller on "space available" with two values in the queue. *)
Example third_push_blocks :
  match (rb_sized_queue_max_set (Integer 2) ;;
         rb_queue_push (Integer 1) ;;
         rb_queue_push (Integer 2) ;;
         rb_queue_push (Integer 3)) idle_host init_queue with
  | Stopped h' q' =>
      calls h' = [Stop]
      ∧ array_from_list (values q') = Some [Integer 1; Integer 2]
      ∧ array_from_list (cv_waiting (space_available q'))
        = Some [Object 1]
      ∧ owner (mutex q') = Qnil
  | _ => False
  end.
Proof. vm_compute. auto. Qed.

(** Round trip: capacity 3 and values 1, 2, 3 are dumped and loaded
    into a new queue, which then pops 1, 2 and 3 and blocks. *)
Example round_trip_of_three :
  match (rb_sized_queue_max_set (Integer 3) ;;
         rb_queue_push (Integer 1) ;;
         rb_queue_push (Integer 2) ;;
         rb_queue_push (Integer 3) ;;
         rb_queue_marshal_dump) idle_host init_queue with
  | Returns record _ _ =>
      record = MarshalledArray [Integer 3; Integer 1; Integer 2; Integer 3]
      ∧ match (rb_queue_marshal_load record ;;
               let* vs := pop_n 3 in
               let* _ := rb_queue_pop [] in
               ret vs) idle_host init_queue with
        | Stopped h' q' =>
            capacity q' = 3
            ∧ array_from_list (values q') = Some []
            ∧ array_from_list (cv_waiting (value_available q'))
              = Some [Object 1]
        | _ => False
        end
  | _ => False
  end.
Proof. vm_compute. auto. Qed.

Example round_trip_pops_in_order :
  match (rb_queue_marshal_load
           (MarshalledArray [Integer 3; Integer 1; Integer 2; Integer 3]) ;;
         pop_n 3) idle_host init_queue with
  | Returns vs _ _ => vs = [Integer 1; Integer 2; Integer 3]
  | _ => False
  end.
Proof. by vm_compute. Qed.

(** Loading into a queue that holds 7 appends behind it. *)
Example load_appends :
  match (rb_queue_marshal_load
           (MarshalledArray [Integer 3; Integer 1; Integer 2]))
          idle_host (queue_with_producers 0 [] [Integer 7]) with
  | Returns _ _ q' =>
      capacity q' = 3
      ∧ array_from_list (values q') = Some [Integer 7; Integer 1; Integer 2]
  | _ => False
  end.
Proof. vm_compute. auto. Qed.

(** A killed waiter is dropped and the next one is woken. *)
Example signal_skips_killed :
  match signal_condvar
          {| rb_thread_critical := 0; current_thread := 1;
             killed := λ t, bool_decide (t = Object 10);
             avoid_mem_pools := Qnil; calls := [] |}
          {| cv_waiting := list_of [Object 10; Object 11; Object 12] |} with
  | Returns _ h' c' =>
      calls h' = [WakeupFailed (Object 10); Wakeup (Object 11);
                  Wakeup (Object 11); Schedule]
      ∧ array_from_list (cv_waiting c') = Some [Object 12]
  | _ => False
  end.
Proof. vm_compute. auto. Qed.

(** [pop] with two arguments touches nothing. *)
Example pop_with_two_arguments :
  rb_queue_pop [Qtrue; Qfalse] idle_host
    (queue_with_producers 0 [] [Integer 1])
  = Raises (ArgError "wrong number of arguments (2 for 1)") idle_host
      (queue_with_producers 0 [] [Integer 1]).
Proof. reflexivity. Qed.

(** ** Wait lists *)

(** C2, as the code has it.  On every wait list that [push_list],
    [shift_list] and [clear_list] build from an initialised one, the
    live entries and the nodes of the free pool are two chains without a
    common node, the store holds these nodes only, [size] is the number
    of live entries (as an [unsigned long]: the number itself whenever
    it is below 2^64), and marking and [array_from_list] visit the live
    entries only.  A node in the pool keeps the value it carried, which
    nothing clears: [shift_list] puts the node of the value it returns
    at the head of the pool with that value in it, [clear_list] puts
    the live nodes in front of the pool with their values, both leave
    the nodes already pooled as they are, and so does [push_list],
    which takes the first pooled node and overwrites its value. *)
Theorem wait_list_size_and_pool lst :
  reachable lst →
  ∃ live pool,
    wf_list lst live pool
    ∧ array_from_list lst = Some (live.*2)
    ∧ mark_list lst = Some (live.*2)
    ∧ pool_values lst = Some (pool.*2)
    ∧ size lst = Z.of_nat (length (live.*2)) mod ULONG_MODULUS
    ∧ (Z.of_nat (length (live.*2)) < ULONG_MODULUS →
       size lst = Z.of_nat (length (live.*2)))
    ∧ (∀ use_mem_pools,
         match live with
         | [] => shift_list use_mem_pools lst = Some (Qundef, lst)
         | (a, v) :: live' =>
             ∃ lst',
               shift_list use_mem_pools lst = Some (v, lst')
               ∧ wf_list lst' live'
                   (if use_mem_pools then (a, v) :: pool else pool)
               ∧ pool_values lst'
                 = Some (if use_mem_pools then v :: pool.*2 else pool.*2)
         end)
    ∧ (∀ use_mem_pools,
         ∃ lst',
           clear_list use_mem_pools lst = Some lst'
           ∧ wf_list lst' [] (if use_mem_pools then live ++ pool else pool)
           ∧ pool_values lst'
             = Some (if use_mem_pools then live.*2 ++ pool.*2
                     else pool.*2))
    ∧ (∀ v,
         ∃ a lst',
           push_list lst v = Some lst'
           ∧ wf_list lst' (live ++ [(a, v)]) (tail pool)
           ∧ pool_values lst' = Some (tail (pool.*2))).
Proof.
  intros (live & pool & Hwf)%reachable_wf. exists live, pool.
  split; [done|].
  split; [by apply (array_from_list_wf _ _ pool)|].
  split; [by apply (mark_list_wf _ _ pool)|].
  split; [by apply (pool_values_wf _ live)|].
  rewrite length_fmap, (wf_size _ _ _ Hwf). split; [done|].
  split; [intros Hlt; apply Z.mod_small; lia|].
  split; [|split].
  - intros b. destruct live as [|[a v] live'].
    + by apply (shift_list_nil b lst pool).
    + destruct (shift_list_wf b lst a v live' pool Hwf) as (lst' & Hs & Hwf').
      exists lst'. split; [done|]. split; [done|].
      rewrite (pool_values_wf _ _ _ Hwf'). by destruct b.
  - intros b.
    destruct (clear_list_wf b lst live pool Hwf) as (lst' & Hc & Hwf').
    exists lst'. split; [done|]. split; [done|].
    rewrite (pool_values_wf _ _ _ Hwf'). destruct b; [|done].
    by rewrite fmap_app.
  - intros v.
    destruct (push_list_wf lst live pool v Hwf) as (a & lst' & Hp & Hwf').
    exists a, lst'. split; [done|]. split; [done|].
    rewrite (pool_values_wf _ _ _ Hwf'). by destruct pool.
Qed.

Lemma pushed_and_shifted_reachable : reachable pushed_and_shifted.
Proof.
  apply (reach_shift true pushed (Object 7)); [|reflexivity].
  apply (reach_push init_list (Object 7)); [|reflexivity].
  apply reach_init.
Qed.

(** The theorem at the list left by one push and one shift: its pool
    holds one node, and a push of thread 8 takes that node. *)
Lemma wait_list_size_and_pool_witness :
  reachable pushed_and_shifted
  ∧ ∃ live pool,
      wf_list pushed_and_shifted live pool
      ∧ array_from_list pushed_and_shifted = Some (live.*2)
      ∧ pool_values pushed_and_shifted = Some (pool.*2)
      ∧ size pushed_and_shifted = Z.of_nat (length (live.*2))
      ∧ ∃ a lst',
          push_list pushed_and_shifted (Object 8) = Some lst'
          ∧ wf_list lst' (live ++ [(a, Object 8)]) (tail pool)
          ∧ pool_values lst' = Some (tail (pool.*2)).
Proof.
  split; [exact pushed_and_shifted_reachable|].
  destruct (wait_list_size_and_pool pushed_and_shifted
              pushed_and_shifted_reachable)
    as (live & pool & Hwf & Harr & _ & Hpool & _ & Hsize & _ & _ & Hpush).
  exists live, pool.
  split; [exact Hwf|]. split; [exact Harr|]. split; [exact Hpool|].
  split; [|exact (Hpush (Object 8))].
  apply Hsize.
  assert (array_from_list pushed_and_shifted = Some []) as Hnone
    by reflexivity.
  rewrite Hnone in Harr. injection Harr as <-. reflexivity.
Defined.

(** C2, as it is worded, fails: after thread 7 is pushed and shifted,
    the node in the pool still holds the handle of thread 7. *)
Lemma pool_keeps_reference :
  reachable pushed_and_shifted
  ∧ pool_values pushed_and_shifted = Some [Object 7]
  ∧ ¬ wait_list_invariant pushed_and_shifted.
Proof.
  split; [exact pushed_and_shifted_reachable|].
  split; [reflexivity|].
  intros (vs & pvs & _ & _ & Hpvs & Hnone).
  injection Hpvs as <-.
  apply Forall_cons in Hnone as [Hseven _]. done.
Qed.

(** C7.  A sequence of operations run with the node pool and run with
    the nodes freed shows the caller the same thing: at each step the
    same result, the same live entries and the same size, namely those
    of a plain FIFO sequence. *)
Theorem pooling_is_unobservable (ops : list list_op) :
  run true ops init_list = Some (spec_run ops [])
  ∧ run false ops init_list = Some (spec_run ops []).
Proof.
  split; apply (run_refines _ ops init_list [] []), wf_init_list.
Qed.

(** ** Mutex and ConditionVariable *)

(** C9.  [try_lock] returns, and without a call to the scheduler.  It
    returns true exactly when the mutex had no owner at the call: then
    the owner of the mutex is the calling thread, the wait list being
    untouched.  It returns false when the mutex had an owner, and the
    mutex, its owner field included, is as it was. *)
Theorem rb_mutex_try_lock_spec (h : Host) (m : Mutex) :
  ∃ result h' m',
    rb_mutex_try_lock h m = Returns result h' m'
    ∧ calls h' = calls h
    ∧ (result = Qtrue ↔ RTEST (owner m) = false)
    ∧ (result = Qfalse ↔ RTEST (owner m) = true)
    ∧ (result = Qtrue →
       owner m' = rb_thread_current h
       ∧ m' = {| owner := rb_thread_current h; waiting := waiting m |})
    ∧ (result = Qfalse → owner m' = owner m ∧ m' = m).
Proof.
  destruct (RTEST (owner m)) eqn:Howner.
  - exists Qfalse, (set_rb_thread_critical 0 h), m.
    split; [by apply rb_mutex_try_lock_owned|].
    split; [done|]. split; [done|]. split; [done|]. split; done.
  - exists Qtrue, (set_rb_thread_critical 0 h),
      {| owner := rb_thread_current h; waiting := waiting m |}.
    split; [by rewrite (rb_mutex_try_lock_free _ _ Howner)|].
    split; [done|]. split; [done|]. split; [done|]. split; done.
Qed.

(** C3.  [wait] on a mutex that has no owner returns at once: the
    caller is not queued, the scheduler is not called, and the
    condition variable and the mutex are as they were. *)
Theorem wait_condvar_unowned_returns (h : Host) (c : ConditionVariable)
    (m : Mutex) :
  RTEST (owner m) = false →
  ∃ h', wait_condvar h (c, m) = Returns tt h' (c, m) ∧ calls h' = calls h.
Proof.
  intros Hfree. exists (set_rb_thread_critical 0 h).
  unfold wait_condvar, bind, set_critical, get, host.
  simpl. by rewrite Hfree.
Qed.

Lemma wait_condvar_unowned_returns_witness :
  RTEST (owner init_mutex) = false
  ∧ ∃ h', wait_condvar idle_host (init_condvar, init_mutex)
          = Returns tt h' (init_condvar, init_mutex)
          ∧ calls h' = calls idle_host.
Proof.
  split; [reflexivity|].
  apply (wait_condvar_unowned_returns idle_host init_condvar init_mutex).
  reflexivity.
Defined.

(** C4.  [wait] raises exactly when the mutex has an owner other than
    the calling thread; the error is the ThreadError "Not owner", and
    then the condition variable and the mutex are as they were and the
    scheduler has not been called. *)
Theorem wait_condvar_ownership_error (h : Host) (c : ConditionVariable)
    (m : Mutex) :
  ((∃ e h' s', wait_condvar h (c, m) = Raises e h' s')
   ↔ RTEST (owner m) = true ∧ owner m ≠ rb_thread_current h)
  ∧ ∀ e h' s',
      wait_condvar h (c, m) = Raises e h' s' →
      e = ThreadError "Not owner" ∧ s' = (c, m) ∧ calls h' = calls h.
Proof.
  destruct (RTEST (owner m)) eqn:Howner.
  - destruct (decide (owner m = rb_thread_current h)) as [Hme|Hother].
    + assert (∀ e h' s', wait_condvar h (c, m) ≠ Raises e h' s') as Hnot.
      { intros e h' s'.
        unfold wait_condvar, bind, set_critical, get, host, put, on,
          push_current, lift_list, rb_thread_stop.
        simpl. rewrite Howner. simpl. rewrite decide_False by tauto.
        simpl. by destruct (push_list (cv_waiting c) _). }
      split.
      * split; [intros (e & h' & s' & Hr); by apply Hnot in Hr|tauto].
      * intros e h' s' Hr. by apply Hnot in Hr.
    + rewrite (wait_condvar_not_owner _ _ _ Howner Hother). split.
      * split; [done|]. intros _. by eexists _, _, _.
      * intros e h' s' [= <- <- <-]. done.
  - rewrite (wait_condvar_unowned _ _ _ Howner). split.
    + split; [by intros (e & h' & s' & Hr)|]. by intros [? _].
    + by intros e h' s' Hr.
Qed.

(** Thread 1 waits with a mutex held by thread 2. *)
Lemma wait_condvar_ownership_error_witness :
  ∃ e h' s',
    wait_condvar idle_host (init_condvar, held_by 2) = Raises e h' s'.
Proof.
  apply (proj1 (wait_condvar_ownership_error idle_host init_condvar
                  (held_by 2))).
  split; [reflexivity|discriminate].
Defined.

(** ** Queue *)

(** C6, as the code has it.  A non-blocking [pop] by a thread that
    gets the mutex of a queue without values raises the ThreadError
    "queue empty", the mutex released before: the values, the capacity
    and the wait lists of the two condition variables are as they were,
    and the calling thread has not parked.  The wait list of the mutex
    is not as it was: the release is an unlock like any other, which
    takes the first waiter of the mutex that can be woken off the list,
    with the killed ones before it, wakes it and lets it run.  These
    are the only calls to the scheduler. *)
Theorem rb_queue_pop_nonblocking_empty (arg : VALUE) (h : Host)
    (q : Queue) (ms vas sas : list VALUE) :
  wf_queue q ms vas sas [] →
  RTEST arg = true →
  RTEST (owner (mutex q)) = false →
  ∃ h' q' mw,
    rb_queue_pop [arg] h q = Raises (ThreadError "queue empty") h' q'
    ∧ mutex q' = {| owner := Qnil; waiting := mw |}
    ∧ wf_waiting mw (still_waiting (killed h) ms)
    ∧ ms = killed_prefix (killed h) ms
           ++ option_list (woken (killed h) ms)
           ++ still_waiting (killed h) ms
    ∧ values q' = values q
    ∧ capacity q' = capacity q
    ∧ value_available q' = value_available q
    ∧ space_available q' = space_available q
    ∧ wf_queue q' (still_waiting (killed h) ms) vas sas []
    ∧ calls h' = calls h ++ wake_and_run_calls (killed h) ms.
Proof.
  intros Hwf Harg Hfree.
  destruct Hwf as [Hm Hva Hsa (live & pool & Hvs & Hlive) Hcap].
  pose proof Hlive as Hnil. apply fmap_nil_inv in Hnil. subst live.
  assert (entries (values q) = None) as Hent by apply Hvs.
  destruct (unlock_mutex_owned (set_rb_thread_critical 0 h)
              (set_owner (rb_thread_current h) (mutex q)) ms)
    as (mw & Hunlock & Hwfm); [done|done|].
  unfold rb_queue_pop. unfold bind at 1, ret at 1. rewrite Harg.
  unfold bind at 1, on at 1. rewrite (lock_mutex_free _ _ Hfree).
  unfold bind at 1, get at 1. cbn [values set_mutex]. rewrite Hent.
  simpl. unfold bind at 1. unfold bind at 1, on at 1. simpl.
  simpl in Hunlock. rewrite Hunlock.
  eexists _, _, mw. split; [done|]. simpl.
  split; [done|]. split; [done|].
  split; [apply wake_one_partition|].
  split; [done|]. split; [done|]. split; [done|]. split; [done|].
  split; [|done].
  split; simpl; try done. by exists [], pool.
Qed.

(** Threads 13 and 14 wait for the mutex, thread 15 waits for a
    value. *)
Lemma rb_queue_pop_nonblocking_empty_witness :
  ∃ h' q' mw,
    rb_queue_pop [Qtrue] idle_host
      (queue_with_waiters 0 [Object 13; Object 14] [Object 15] [] [])
    = Raises (ThreadError "queue empty") h' q'
    ∧ mutex q' = {| owner := Qnil; waiting := mw |}
    ∧ wf_waiting mw [Object 14]
    ∧ value_available q'
      = value_available
          (queue_with_waiters 0 [Object 13; Object 14] [Object 15] [] [])
    ∧ calls h' = [Wakeup (Object 13); Wakeup (Object 13); Schedule].
Proof.
  destruct (rb_queue_pop_nonblocking_empty Qtrue idle_host
              (queue_with_waiters 0 [Object 13; Object 14] [Object 15] [] [])
              [Object 13; Object 14] [Object 15] [])
    as (h' & q' & mw & Hrun & Hmutex & Hmw & _ & _ & _ & Hva & _ & _ & Hcalls).
  - apply wf_queue_with_waiters; [done|repeat constructor..].
  - reflexivity.
  - reflexivity.
  - exists h', q', mw. split; [exact Hrun|]. split; [exact Hmutex|].
    split; [exact Hmw|]. split; [exact Hva|]. exact Hcalls.
Defined.

(** C6, as it is worded, fails: the wait lists are not all left
    unchanged.  With threads 13 and 14 waiting for the mutex of an
    empty queue, the non-blocking [pop] raises "queue empty" and
    thread 13 is no longer on the wait list of the mutex. *)
Lemma rb_queue_pop_nonblocking_wakes_waiter :
  wf_queue (queue_with_waiters 0 [Object 13; Object 14] [] [] [])
    [Object 13; Object 14] [] [] []
  ∧ RTEST (owner (mutex (queue_with_waiters 0 [Object 13; Object 14]
                           [] [] []))) = false
  ∧ ∃ h' q',
      rb_queue_pop [Qtrue] idle_host
        (queue_with_waiters 0 [Object 13; Object 14] [] [] [])
      = Raises (ThreadError "queue empty") h' q'
      ∧ array_from_list
          (waiting (mutex (queue_with_waiters 0 [Object 13; Object 14]
                             [] [] [])))
        = Some [Object 13; Object 14]
      ∧ array_from_list (waiting (mutex q')) = Some [Object 14]
      ∧ ¬ pop_leaves_unchanged
            (queue_with_waiters 0 [Object 13; Object 14] [] [] []) q'.
Proof.
  split; [apply wf_queue_with_waiters; [done|repeat constructor..]|].
  split; [reflexivity|].
  eexists _, _. split; [vm_compute; reflexivity|].
  split; [reflexivity|]. split; [reflexivity|].
  intros (_ & _ & Hmutex & _). vm_compute in Hmutex. discriminate.
Qed.

(** C8.  [clear] by a thread that gets the mutex leaves no value and
    size 0, and signals "space available" once whatever the number of
    values was: of the producers [sas] waiting for space, the killed
    ones in front are dropped, the first one that can be woken is woken,
    and the others wait on.  The unlock follows. *)
Theorem rb_queue_clear_signals_once (h : Host) (q : Queue)
    (ms vas sas vs : list VALUE) :
  wf_queue q ms vas sas vs →
  RTEST (owner (mutex q)) = false →
  ∃ h' q',
    rb_queue_clear h q = Returns tt h' q'
    ∧ array_from_list (values q') = Some []
    ∧ size (values q') = 0
    ∧ owner (mutex q') = Qnil
    ∧ wf_queue q' (still_waiting (killed h) ms) vas
        (signalled (killed h) 1 sas).2 []
    ∧ calls h'
      = calls h ++ (signalled (killed h) 1 sas).1
        ++ wake_and_run_calls (killed h) ms
    ∧ sas = killed_prefix (killed h) sas
            ++ option_list (woken (killed h) sas)
            ++ (signalled (killed h) 1 sas).2.
Proof.
  intros Hwf Hfree.
  destruct Hwf as [Hm Hva Hsa (live & pool & Hvs & Hlive) Hcap].
  unfold rb_queue_clear.
  unfold bind at 1, on at 1. rewrite (lock_mutex_free _ _ Hfree).
  destruct (clear_list_wf (USE_MEM_POOLS h) _ _ _ Hvs) as (vl & Hclear & Hvl).
  unfold bind at 1, on at 1, clear_values, bind at 1, host, lift_list.
  cbn [values set_mutex]. change (USE_MEM_POOLS (set_rb_thread_critical 0 h))
    with (USE_MEM_POOLS h). rewrite Hclear.
  destruct (signal_condvar_wf (set_rb_thread_critical 0 h)
              (space_available q) sas Hsa) as (sw & Hsig & Hsw).
  rewrite set_rb_thread_critical_twice in Hsig.
  unfold bind at 1, on at 1. cbn [space_available set_values set_mutex].
  rewrite Hsig.
  destruct (unlock_mutex_owned
              (record_calls (wake_and_run_calls (killed h) sas)
                 (set_rb_thread_critical 0 h))
              (set_owner (rb_thread_current h) (mutex q)) ms)
    as (mw & Hunlock & Hwfm); [done|done|].
  unfold bind at 1, on at 1. simpl. simpl in Hunlock. rewrite Hunlock.
  unfold ret. eexists _, _. split; [done|]. simpl. rewrite app_nil_r.
  split; [by rewrite (array_from_list_wf _ _ _ Hvl)|].
  split; [by rewrite (wf_size _ _ _ Hvl)|].
  split; [done|]. split.
  { split; simpl; try done.
    by exists [], (if USE_MEM_POOLS h then live ++ pool else pool). }
  split; [by rewrite app_assoc|].
  apply wake_one_partition.
Qed.

Lemma rb_queue_clear_signals_once_witness :
  ∃ h' q',
    rb_queue_clear idle_host
      (queue_with_producers 2 [Object 10; Object 11]
         [Integer 1; Integer 2]) = Returns tt h' q'
    ∧ array_from_list (values q') = Some []
    ∧ size (values q') = 0
    ∧ owner (mutex q') = Qnil
    ∧ wf_queue q' (still_waiting (killed idle_host) []) []
        (signalled (killed idle_host) 1 [Object 10; Object 11]).2 []
    ∧ calls h'
      = calls idle_host
        ++ (signalled (killed idle_host) 1 [Object 10; Object 11]).1
        ++ wake_and_run_calls (killed idle_host) []
    ∧ [Object 10; Object 11]
      = killed_prefix (killed idle_host) [Object 10; Object 11]
        ++ option_list (woken (killed idle_host) [Object 10; Object 11])
        ++ (signalled (killed idle_host) 1 [Object 10; Object 11]).2.
Proof.
  apply (rb_queue_clear_signals_once idle_host
           (queue_with_producers 2 [Object 10; Object 11]
              [Integer 1; Integer 2])
           [] [] [Object 10; Object 11] [Integer 1; Integer 2]).
  - apply wf_queue_with_producers; [done|].
    repeat constructor.
  - reflexivity.
Defined.

(** C1, as the code has it.  Called with an accepted value by a thread
    that gets the mutex, [rb_sized_queue_max_set] stores the new
    capacity and signals "space available" before it unlocks: as many
    times as the capacity grows by when the queue is bounded (its
    capacity is not 0) and the new capacity is greater, and not at all
    otherwise, a capacity of 0 included. *)
Theorem rb_sized_queue_max_set_signals (h : Host) (q : Queue) (n : Z)
    (ms vas sas vs : list VALUE) :
  wf_queue q ms vas sas vs →
  - ULONG_MODULUS < n < ULONG_MODULUS →
  1 ≤ n mod ULONG_MODULUS →
  RTEST (owner (mutex q)) = false →
  max_set_signals
    (if capacity q =? 0 then 0%nat
     else signals_for_growth (capacity q) (n mod ULONG_MODULUS))
    h q (Integer n) (n mod ULONG_MODULUS) ms vas sas vs.
Proof.
  intros Hwf Hrange Hpos Hfree. unfold max_set_signals.
  set (new := n mod ULONG_MODULUS) in *.
  set (k := if capacity q =? 0 then 0%nat
            else signals_for_growth (capacity q) new).
  unfold rb_sized_queue_max_set, NUM2ULONG.
  assert (((- ULONG_MODULUS <? n) && (n <? ULONG_MODULUS)) = true) as ->.
  { apply andb_true_intro. split; apply Z.ltb_lt; lia. }
  fold new. unfold bind at 1, ret at 1.
  assert ((new <? 1) = false) as -> by (apply Z.ltb_ge; lia).
  unfold bind at 1, ret at 1. unfold bind at 1, on at 1.
  rewrite (lock_mutex_free _ _ Hfree).
  unfold bind at 1, get at 1. unfold bind at 1, put at 1.
  cbn [capacity set_mutex].
  assert (Z.to_nat
            (if negb (capacity q =? 0) && (capacity q <? new)
             then new - capacity q else 0) = k) as ->.
  { unfold k, signals_for_growth. destruct (capacity q =? 0) eqn:Hc; simpl.
    - done.
    - done. }
  set (q1 := set_capacity new (set_mutex _ q)).
  destruct (signal_space_available_wf k (set_rb_thread_critical 0 h) q1
              ms vas sas vs) as (w' & Hloop & Hwf'); [|done|].
  { destruct Hwf as [Hm ? ? ? ?]. split; simpl; try done.
    subst new. apply Z.mod_pos_bound. done. }
  unfold bind at 1. rewrite Hloop.
  destruct (unlock_mutex_owned
              (record_calls (signalled (killed h) k sas).1
                 (set_rb_thread_critical 0 h))
              (set_owner (rb_thread_current h) (mutex q)) ms)
    as (mw & Hunlock & Hwfm); [done|apply Hwf|].
  unfold bind at 1, on at 1. simpl. simpl in Hunlock. rewrite Hunlock.
  unfold ret. eexists _, _. split; [done|]. simpl.
  split; [done|]. split; [done|]. split.
  - destruct Hwf as [Hm ? ? ? ?]. split; simpl; try done.
    subst new. by apply Z.mod_pos_bound.
  - by rewrite app_assoc.
Qed.

(** The capacity raised from 2 to 5 with three producers waiting. *)
Lemma rb_sized_queue_max_set_signals_witness :
  max_set_signals 3 idle_host
    (queue_with_producers 2 [Object 10; Object 11; Object 12] [])
    (Integer 5) 5 [] [] [Object 10; Object 11; Object 12] [].
Proof.
  apply (rb_sized_queue_max_set_signals idle_host
           (queue_with_producers 2 [Object 10; Object 11; Object 12] []) 5
           [] [] [Object 10; Object 11; Object 12] []).
  - apply wf_queue_with_producers; [done|]. repeat constructor.
  - split; reflexivity.
  - discriminate.
  - reflexivity.
Defined.

(** C1, as it is worded, fails on an unbounded queue: with the capacity
    at 0 and thread 2 waiting for space, a new capacity of 5 should
    bring 5 signals, and thread 2 is not woken. *)
Lemma rb_sized_queue_max_set_unbounded :
  wf_queue (queue_with_producers 0 [Object 2] []) [] [] [Object 2] []
  ∧ capacity (queue_with_producers 0 [Object 2] []) = 0
  ∧ RTEST (owner (mutex (queue_with_producers 0 [Object 2] []))) = false
  ∧ ¬ max_set_signals (signals_for_growth 0 5) idle_host
        (queue_with_producers 0 [Object 2] []) (Integer 5) 5
        [] [] [Object 2] [].
Proof.
  split; [apply wf_queue_with_producers; [done|repeat constructor]|].
  split; [done|]. split; [done|].
  intros (h' & q' & Hrun & _ & _ & Hwf & _).
  vm_compute in Hrun. injection Hrun as <- <-.
  destruct Hwf as [_ _ [(live & pool & Hsa & Hlive) _] _ _].
  apply array_from_list_wf in Hsa. rewrite Hlive in Hsa.
  vm_compute in Hsa. discriminate.
Qed.

(** ** The persisted record *)

(** C5.  The round trip keeps the capacity and the values.  The record
    that [marshal_dump] makes of a queue has the capacity as its first
    field and the values in FIFO order behind it; loaded into a new
    queue it gives a queue with that capacity and these values, nobody
    waiting, and pops then return the values in their order and leave
    the queue without a value.  The record goes through Marshal, which
    holds the number of fields of an Array in four bytes: a queue whose
    record can be read back has fewer than 2^32 values. *)
Theorem marshal_round_trip_preserves (h : Host) (q : Queue)
    (ms vas sas vs : list VALUE) :
  wf_queue q ms vas sas vs →
  Z.of_nat (length vs) < UINT_MODULUS →
  ∃ record q',
    rb_queue_marshal_dump h q = Returns record h q
    ∧ record = MarshalledArray (ULONG2NUM (capacity q) :: vs)
    ∧ rb_queue_marshal_load record h init_queue = Returns tt h q'
    ∧ capacity q' = capacity q
    ∧ array_from_list (values q') = Some vs
    ∧ wf_queue q' [] [] [] vs
    ∧ owner (mutex q') = Qnil
    ∧ ∃ h'' q'',
        pop_n (length vs) h q' = Returns vs h'' q''
        ∧ wf_queue q'' [] [] [] []
        ∧ capacity q'' = capacity q.
Proof.
  intros Hwf Hlen.
  exists (MarshalledArray (ULONG2NUM (capacity q) :: vs)).
  pose proof (wf_queue_capacity _ _ _ _ _ Hwf) as Hcap.
  destruct (rb_queue_marshal_load_wf h init_queue [] [] [] [] (capacity q)
              vs wf_init_queue) as (vl & Hload & Hwf'); [lia|].
  rewrite Z.mod_small in Hload, Hwf' by lia.
  rewrite (Z.mod_small (Z.of_nat (length vs))) in Hwf' by lia.
  rewrite Nat2Z.id, firstn_all in Hwf'. simpl in Hwf'.
  exists (set_values vl (set_capacity (capacity q) init_queue)).
  split; [by apply (rb_queue_marshal_dump_wf h q ms vas sas vs)|].
  split; [done|]. split; [exact Hload|]. split; [done|].
  split.
  { destruct (wf_queue_values _ _ _ _ _ Hwf') as (live & pool & Hvl & <-).
    by apply (array_from_list_wf _ _ pool). }
  split; [exact Hwf'|]. split; [done|].
  destruct (pop_n_wf h _ [] vs Hwf') as (h'' & q'' & Hpop & Hwf'' & Hcap'');
    [done|].
  by exists h'', q''.
Qed.

(** The round trip of the specification: capacity 3 and the values 1,
    2 and 3. *)
Lemma marshal_round_trip_preserves_witness :
  ∃ record q',
    rb_queue_marshal_dump idle_host
      (queue_with_producers 3 [] [Integer 1; Integer 2; Integer 3])
    = Returns record idle_host
        (queue_with_producers 3 [] [Integer 1; Integer 2; Integer 3])
    ∧ record = MarshalledArray [Integer 3; Integer 1; Integer 2; Integer 3]
    ∧ rb_queue_marshal_load record idle_host init_queue
      = Returns tt idle_host q'
    ∧ capacity q' = 3
    ∧ array_from_list (values q') = Some [Integer 1; Integer 2; Integer 3]
    ∧ ∃ h'' q'',
        pop_n 3 idle_host q'
        = Returns [Integer 1; Integer 2; Integer 3] h'' q''.
Proof.
  destruct (marshal_round_trip_preserves idle_host
              (queue_with_producers 3 [] [Integer 1; Integer 2; Integer 3])
              [] [] [] [Integer 1; Integer 2; Integer 3])
    as (record & q' & Hdump & Hrecord & Hload & Hcap & Hvalues & _ & _
        & h'' & q'' & Hpop & _).
  - apply wf_queue_with_producers; [done|constructor].
  - reflexivity.
  - exists record, q'. split; [exact Hdump|]. split; [exact Hrecord|].
    split; [exact Hload|]. split; [exact Hcap|]. split; [exact Hvalues|].
    exists h'', q''. exact Hpop.
Defined.

(** C10.  Loading a record does not reset the queue.  The capacity is
    overwritten with the first field of the record, and the other
    fields are put behind the values the queue holds already, in their
    order; the values present stay, and so do the waiting threads.  The
    record comes from Marshal, which holds the number of fields of an
    Array in four bytes: there are fewer than 2^32 fields. *)
Theorem marshal_load_appends (h : Host) (q : Queue)
    (ms vas sas vs0 : list VALUE) (n : Z) (vs : list VALUE) :
  wf_queue q ms vas sas vs0 →
  - ULONG_MODULUS < n < ULONG_MODULUS →
  Z.of_nat (length vs) < UINT_MODULUS →
  ∃ q',
    rb_queue_marshal_load (MarshalledArray (Integer n :: vs)) h q
    = Returns tt h q'
    ∧ capacity q' = n mod ULONG_MODULUS
    ∧ (0 ≤ n → capacity q' = n)
    ∧ array_from_list (values q) = Some vs0
    ∧ array_from_list (values q') = Some (vs0 ++ vs)
    ∧ size (values q')
      = (size (values q) + Z.of_nat (length vs)) mod ULONG_MODULUS
    ∧ wf_queue q' ms vas sas (vs0 ++ vs).
Proof.
  intros Hwf Hn Hlen.
  destruct (rb_queue_marshal_load_wf h q ms vas sas vs0 n vs Hwf Hn)
    as (vl & Hload & Hwf').
  rewrite (Z.mod_small (Z.of_nat (length vs))) in Hwf' by lia.
  rewrite Nat2Z.id, firstn_all in Hwf'.
  exists (set_values vl (set_capacity (n mod ULONG_MODULUS) q)).
  split; [exact Hload|]. split; [done|].
  split; [intros Hpos; simpl; apply Z.mod_small; lia|].
  destruct (wf_queue_values _ _ _ _ _ Hwf) as (live & pool & Hvs & Hlive).
  destruct (wf_queue_values _ _ _ _ _ Hwf') as (live' & pool' & Hvl & Hlive').
  split; [by rewrite (array_from_list_wf _ _ _ Hvs), Hlive|].
  split; [by rewrite (array_from_list_wf _ _ _ Hvl), Hlive'|].
  split; [|exact Hwf'].
  rewrite (wf_size _ _ _ Hvl), (wf_size _ _ _ Hvs), Zplus_mod_idemp_l.
  f_equal. rewrite <- (length_fmap snd live'), Hlive', length_app.
  rewrite <- Hlive, length_fmap. lia.
Qed.

(** A record of capacity 3 with the values 1 and 2, loaded into a queue
    that holds 7 and has a producer waiting. *)
Lemma marshal_load_appends_witness :
  ∃ q',
    rb_queue_marshal_load
      (MarshalledArray [Integer 3; Integer 1; Integer 2]) idle_host
      (queue_with_producers 1 [Object 10] [Integer 7])
    = Returns tt idle_host q'
    ∧ capacity q' = 3
    ∧ array_from_list (values q')
      = Some [Integer 7; Integer 1; Integer 2]
    ∧ wf_queue q' [] [] [Object 10] [Integer 7; Integer 1; Integer 2].
Proof.
  destruct (marshal_load_appends idle_host
              (queue_with_producers 1 [Object 10] [Integer 7])
              [] [] [Object 10] [Integer 7] 3 [Integer 1; Integer 2])
    as (q' & Hload & _ & Hcap & _ & Hvalues & _ & Hwf').
  - apply wf_queue_with_producers; [done|repeat constructor].
  - split; reflexivity.
  - reflexivity.
  - exists q'. split; [exact Hload|]. split; [apply Hcap; discriminate|].
    split; [exact Hvalues|]. exact Hwf'.
Defined.

(** The bound on the number of fields is used: [marshal_load] passes
    the length of the array to [push_multiple_list] as an [unsigned],
    and an array of 2^32 values, which no record of Marshal holds,
    would add no value at all. *)
Remark marshal_load_count_is_unsigned (h : Host) (v : VALUE) :
  rb_queue_marshal_load
    (MarshalledArray (ULONG2NUM 3 :: replicate (Z.to_nat UINT_MODULUS) v))
    h init_queue
  = Returns tt h (set_capacity 3 init_queue)
  ∧ array_from_list (values (set_capacity 3 init_queue)) = Some [].
Proof.
  split; [|done]. unfold ULONG2NUM.
  rewrite rb_queue_marshal_load_truncated; [done|done|].
  rewrite Z2Nat.id by done. apply Z_mod_same_full.
Qed.

(** * Further properties of the code *)

(** ** Wait lists: storage *)

Lemma finalize_list_wf lst live pool :
  wf_list lst live pool → finalize_list lst = Some ∅.
Proof.
  intros Hwf. pose proof (wf_store_size _ _ _ Hwf) as Hstore.
  destruct Hwf as [Hlive Hpool Hlast Hnd Hdom Hsize].
  assert (NoDup (live.*1) ∧ NoDup (pool.*1)
          ∧ ∀ b, b ∈ live.*1 → b ∉ pool.*1) as (Hndl & Hndp & Hdisj).
  { rewrite fmap_app in Hnd. by apply NoDup_app in Hnd as (? & ? & ?). }
  unfold finalize_list, free_entries.
  destruct (free_entries_loop_lseg (nodes lst) (entries lst) live
              (base.size (nodes lst))) as (h1 & -> & Hlook1); [done|done|..].
  { rewrite Hstore, length_app. lia. }
  assert (lseg h1 (entry_pool lst) None pool) as Hpool1.
  { eapply lseg_agree; [|done]. intros b Hb. rewrite Hlook1.
    rewrite decide_False; [done|]. intros Hin. by apply (Hdisj b). }
  assert (base.size h1 = length pool) as Hsize1.
  { rewrite <- size_dom.
    assert (dom h1 = list_to_set (pool.*1)) as ->.
    { apply set_eq. intros a. rewrite elem_of_list_to_set, elem_of_dom, Hlook1.
      destruct (decide (a ∈ live.*1)) as [Hin|Hnin].
      - split; [by intros [? ?]|]. intros Hb. by apply Hdisj in Hin.
      - rewrite <- elem_of_dom, Hdom, fmap_app, elem_of_app. tauto. }
    rewrite size_list_to_set by done. by rewrite length_fmap. }
  destruct (free_entries_loop_lseg h1 (entry_pool lst) pool (base.size h1))
    as (h2 & -> & Hlook2); [done|done|lia|].
  f_equal. apply map_empty. intros a. rewrite Hlook2.
  destruct (decide (a ∈ pool.*1)) as [|Hnp]; [done|].
  rewrite Hlook1. destruct (decide (a ∈ live.*1)) as [|Hnl]; [done|].
  apply not_elem_of_dom. rewrite Hdom, fmap_app, elem_of_app. tauto.
Qed.

(** X1.  [finalize_list] on a list built by pushes, shifts and clears
    frees every node of its store, the live ones and the pooled ones,
    each once: the walk never meets a freed node and nothing is left. *)
Theorem finalize_list_frees_everything (lst : List) :
  reachable lst → finalize_list lst = Some ∅.
Proof.
  intros (live & pool & Hwf)%reachable_wf.
  by apply (finalize_list_wf lst live pool).
Qed.

Lemma finalize_list_frees_everything_witness :
  finalize_list pushed_and_shifted = Some ∅.
Proof.
  apply (finalize_list_frees_everything pushed_and_shifted).
  apply (reach_shift true pushed (Object 7)); [|reflexivity].
  apply (reach_push init_list (Object 7)); [|reflexivity].
  apply reach_init.
Defined.

(** X2.  [push_list] takes its node from the pool when the pool has one,
    and then the store does not grow; it calls [malloc] only when the
    pool is empty, and then the store grows by that one node.  Either
    way the value is the last live entry. *)
Theorem push_list_reuses_pool (lst lst' : List) (v : VALUE) :
  reachable lst →
  push_list lst v = Some lst' →
  ∃ vs pvs,
    array_from_list lst = Some vs
    ∧ pool_values lst = Some pvs
    ∧ array_from_list lst' = Some (vs ++ [v])
    ∧ pool_values lst' = Some (tail pvs)
    ∧ base.size (nodes lst')
      = match pvs with
        | [] => S (base.size (nodes lst))
        | _ :: _ => base.size (nodes lst)
        end.
Proof.
  intros (live & pool & Hwf)%reachable_wf Hpush.
  destruct (push_list_wf _ _ _ v Hwf) as (a & lst'' & Hpush' & Hwf').
  rewrite Hpush in Hpush'. injection Hpush' as <-.
  exists (live.*2), (pool.*2).
  rewrite (array_from_list_wf _ _ _ Hwf), (pool_values_wf _ _ _ Hwf).
  rewrite (array_from_list_wf _ _ _ Hwf'), (pool_values_wf _ _ _ Hwf').
  rewrite (wf_store_size _ _ _ Hwf), (wf_store_size _ _ _ Hwf').
  rewrite fmap_snoc. split; [done|]. split; [done|]. split; [done|].
  split; [by destruct pool|].
  rewrite !length_app. destruct pool; simpl; lia.
Qed.

Lemma push_list_reuses_pool_witness :
  ∃ lst' vs pvs,
    push_list pushed_and_shifted (Object 8) = Some lst'
    ∧ array_from_list pushed_and_shifted = Some vs
    ∧ pool_values pushed_and_shifted = Some pvs
    ∧ array_from_list lst' = Some (vs ++ [Object 8])
    ∧ pool_values lst' = Some (tail pvs)
    ∧ base.size (nodes lst')
      = match pvs with
        | [] => S (base.size (nodes pushed_and_shifted))
        | _ :: _ => base.size (nodes pushed_and_shifted)
        end.
Proof.
  destruct (push_list pushed_and_shifted (Object 8)) as [lst'|] eqn:Hpush;
    [|by vm_compute in Hpush].
  exists lst'.
  destruct (push_list_reuses_pool pushed_and_shifted lst' (Object 8))
    as (vs & pvs & H); [|exact Hpush|by exists vs, pvs].
  apply (reach_shift true pushed (Object 7)); [|reflexivity].
  apply (reach_push init_list (Object 7)); [|reflexivity].
  apply reach_init.
Defined.

Lemma run_mixed_refines (ops : list (bool * list_op)) lst live pool :
  wf_list lst live pool →
  run_mixed ops lst = Some (spec_run (ops.*2) (live.*2)).
Proof.
  revert lst live pool.
  induction ops as [|[b op] ops IH]; intros lst live pool Hwf.
  - done.
  - simpl.
    destruct (run_op_refines b op _ _ _ Hwf)
      as (lst' & live' & pool' & -> & Hwf' & Hlive').
    destruct (spec_op op (live.*2)) as [r vs'] eqn:Hspec. simpl in *.
    rewrite (array_from_list_wf _ _ _ Hwf'), (IH _ _ _ Hwf').
    rewrite Hlive'. unfold spec_size.
    by rewrite (wf_size _ _ _ Hwf'), <- Hlive', length_fmap.
Qed.

(** X3.  [$fastthread_avoid_mem_pools] may change between two calls:
    whatever [USE_MEM_POOLS] is at each operation, a run from an
    initialised list never touches a freed node and shows the results,
    live entries and sizes of a FIFO sequence.  Nodes pooled by one
    call and nodes freed by another do not get mixed up. *)
Theorem mixed_pooling_is_fifo (ops : list (bool * list_op)) :
  run_mixed ops init_list = Some (spec_run (ops.*2) []).
Proof. apply (run_mixed_refines ops init_list [] []), wf_init_list. Qed.

(** ** Waking *)

(** X4.  [wake_one] is FIFO and skips the dead: of the waiting threads
    [ts] it drops the killed ones in front, each after a wake-up that
    fails, wakes the first thread that is not killed and returns it,
    and leaves the threads behind it waiting in their order.  With only
    killed threads it returns [Qnil] and leaves the list empty. *)
Theorem wake_one_first_alive (h : Host) (lst : List) (ts : list VALUE) :
  wf_waiting lst ts →
  ∃ lst',
    wake_one h lst
    = Returns (default Qnil (woken (killed h) ts))
        (record_calls (wake_one_calls (killed h) ts) h) lst'
    ∧ wf_waiting lst' (still_waiting (killed h) ts)
    ∧ ts = killed_prefix (killed h) ts
           ++ option_list (woken (killed h) ts)
           ++ still_waiting (killed h) ts
    ∧ Forall (λ t, killed h t = true) (killed_prefix (killed h) ts)
    ∧ Forall (λ t, killed h t = false) (option_list (woken (killed h) ts)).
Proof.
  intros Hwf. destruct (wake_one_wf h lst ts Hwf) as (lst' & Hrun & Hwf').
  exists lst'. split; [done|]. split; [done|].
  destruct (wake_one_partition (killed h) ts) as [Hsplit Hdead].
  split; [done|]. split; [done|].
  destruct (woken (killed h) ts) as [t|] eqn:Hw; simpl; [|done].
  apply Forall_singleton. by apply woken_alive in Hw.
Qed.

Lemma wake_one_first_alive_witness :
  ∃ lst',
    wake_one host_with_killed_10 (list_of [Object 10; Object 11; Object 12])
    = Returns (Object 11)
        (record_calls [WakeupFailed (Object 10); Wakeup (Object 11)]
           host_with_killed_10) lst'
    ∧ wf_waiting lst' [Object 12].
Proof.
  destruct (wake_one_first_alive host_with_killed_10
              (list_of [Object 10; Object 11; Object 12])
              [Object 10; Object 11; Object 12])
    as (lst' & Hrun & Hwf & _).
  - apply wf_list_of. repeat constructor.
  - exists lst'. split; [exact Hrun|exact Hwf].
Defined.

Lemma wake_attempt_split dead (ts : list VALUE) :
  wake_attempt dead <$> ts
  = wake_one_calls dead ts ++ (wake_attempt dead <$> still_waiting dead ts).
Proof.
  unfold wake_one_calls, woken, still_waiting.
  induction ts as [|t ts IH]; simpl; [done|].
  unfold wake_attempt at 1. destruct (dead t) eqn:Hdead; simpl.
  - f_equal. exact IH.
  - done.
Qed.

Lemma wake_all_loop_calls fuel h lst (ts : list VALUE) :
  wf_waiting lst ts → (length ts ≤ fuel)%nat →
  ∃ lst', wake_all_loop fuel h lst
          = Returns Qnil (record_calls (wake_attempt (killed h) <$> ts) h) lst'
          ∧ wf_waiting lst' [].
Proof.
  revert h lst ts. induction fuel as [|fuel IH]; intros h lst ts Hwf Hlen.
  - destruct ts; [|simpl in Hlen; lia].
    destruct Hwf as [(live & pool & Hl & Hnil) Href].
    apply fmap_nil_inv in Hnil. subst live.
    assert (entries lst = None) as Hent by apply Hl.
    exists lst. simpl. rewrite Hent, record_calls_nil. split; [done|].
    split; [|done]. by exists [], pool.
  - destruct (wake_one_wf h lst ts Hwf) as (lst1 & Hwake & Hwf1).
    destruct (IH (record_calls (wake_one_calls (killed h) ts) h) lst1
                (still_waiting (killed h) ts) Hwf1)
      as (lst' & Hrest & Hwf').
    { pose proof (still_waiting_shorter (killed h) ts). lia. }
    simpl in Hrest. rewrite record_calls_app, <- wake_attempt_split in Hrest.
    simpl. destruct (entries lst) eqn:Hent.
    + exists lst'. unfold bind. by rewrite Hwake, Hrest.
    + destruct Hwf as [(live & pool & Hl & Hts) Href].
      destruct live as [|[a t] live].
      * simpl in Hts. subst ts. exists lst. simpl.
        rewrite record_calls_nil. split; [done|].
        split; [|done]. by exists [], pool.
      * destruct Hl as [[Hl _] _ _ _ _ _]. congruence.
Qed.

(** X5.  [wake_all] drains the list: every waiting thread gets exactly
    one wake-up attempt, in the order of the list, a failed attempt on
    a killed thread being passed over; [Qnil] is returned and no thread
    is left waiting. *)
Theorem wake_all_wakes_each_once (h : Host) (lst : List) (ts : list VALUE) :
  wf_waiting lst ts →
  ∃ lst',
    wake_all h lst
    = Returns Qnil (record_calls (wake_attempt (killed h) <$> ts) h) lst'
    ∧ wf_waiting lst' [].
Proof.
  intros Hwf. unfold wake_all.
  apply (wake_all_loop_calls _ h lst ts Hwf).
  destruct Hwf as [(live & pool & Hl & <-) _].
  rewrite (wf_store_size _ _ _ Hl), length_app, length_fmap. lia.
Qed.

Lemma wake_all_wakes_each_once_witness :
  ∃ lst',
    wake_all host_with_killed_10 (list_of [Object 10; Object 11; Object 12])
    = Returns Qnil
        (record_calls [WakeupFailed (Object 10); Wakeup (Object 11);
                       Wakeup (Object 12)] host_with_killed_10) lst'
    ∧ wf_waiting lst' [].
Proof.
  apply (wake_all_wakes_each_once host_with_killed_10
           (list_of [Object 10; Object 11; Object 12])
           [Object 10; Object 11; Object 12]).
  apply wf_list_of. repeat constructor.
Defined.

(** X6.  [broadcast] gives every thread waiting on the condition
    variable one wake-up attempt in FIFO order and calls the scheduler
    once, after the last attempt; nobody is left waiting, and
    [rb_thread_critical] is 0 on return whatever it was at the call. *)
Theorem rb_condvar_broadcast_wakes_all (h : Host) (c : ConditionVariable)
    (ts : list VALUE) :
  wf_waiting (cv_waiting c) ts →
  ∃ w',
    rb_condvar_broadcast h c
    = Returns tt
        (record_calls ((wake_attempt (killed h) <$> ts) ++ [Schedule])
           (set_rb_thread_critical 0 h))
        {| cv_waiting := w' |}
    ∧ wf_waiting w' [].
Proof.
  intros Hwf.
  destruct (wake_all_loop_calls (base.size (nodes (cv_waiting c)))
              (set_rb_thread_critical 1 h) _ ts Hwf) as (w' & Hrun & Hwf').
  { destruct Hwf as [(live & pool & Hl & <-) _].
    rewrite (wf_store_size _ _ _ Hl), length_app, length_fmap. lia. }
  exists w'. split; [|done].
  unfold rb_condvar_broadcast, rb_ensure, bind, on, set_critical, ret,
    rb_thread_schedule, wake_all.
  simpl. simpl in Hrun. rewrite Hrun. simpl. f_equal.
  unfold record_call, record_calls, set_rb_thread_critical. simpl.
  by rewrite <- app_assoc.
Qed.

Lemma rb_condvar_broadcast_wakes_all_witness :
  ∃ w',
    rb_condvar_broadcast host_with_killed_10
      {| cv_waiting := list_of [Object 10; Object 11] |}
    = Returns tt
        (record_calls [WakeupFailed (Object 10); Wakeup (Object 11); Schedule]
           (set_rb_thread_critical 0 host_with_killed_10))
        {| cv_waiting := w' |}
    ∧ wf_waiting w' [].
Proof.
  apply (rb_condvar_broadcast_wakes_all host_with_killed_10
           {| cv_waiting := list_of [Object 10; Object 11] |}
           [Object 10; Object 11]).
  apply wf_list_of. repeat constructor.
Defined.

(** ** Mutex *)

(** X7.  [lock_mutex] on a mutex that has an owner does not take it,
    whoever the owner is: the caller is queued behind the threads
    already waiting, leaves the critical section and parks; the owner
    is unchanged.  On a mutex without owner the caller becomes the
    owner at once, the wait list untouched and the scheduler not
    called. *)
Theorem lock_mutex_takes_or_queues (h : Host) (m : Mutex) (ts : list VALUE) :
  wf_waiting (waiting m) ts →
  if RTEST (owner m) then
    ∃ w',
      lock_mutex h m
      = Stopped (record_call Stop (set_rb_thread_critical 0 h))
          {| owner := owner m; waiting := w' |}
      ∧ wf_waiting w' (ts ++ [rb_thread_current h])
  else
    lock_mutex h m
    = Returns tt (set_rb_thread_critical 0 h)
        {| owner := rb_thread_current h; waiting := waiting m |}.
Proof.
  intros Hwf. destruct (RTEST (owner m)) eqn:Howner.
  - destruct (lock_mutex_owned h m ts Howner Hwf) as (w' & Hrun & Hwf').
    by exists w'.
  - by rewrite (lock_mutex_free h m Howner).
Qed.

Lemma lock_mutex_takes_or_queues_witness :
  ∃ w',
    lock_mutex idle_host
      {| owner := Object 2; waiting := list_of [Object 3] |}
    = Stopped (record_call Stop (set_rb_thread_critical 0 idle_host))
        {| owner := Object 2; waiting := w' |}
    ∧ wf_waiting w' [Object 3; Object 1].
Proof.
  apply (lock_mutex_takes_or_queues idle_host
           {| owner := Object 2; waiting := list_of [Object 3] |}
           [Object 3]).
  apply wf_list_of. repeat constructor.
Defined.

(** X8.  The mutex is not re-entrant: a thread that locks a free mutex
    and locks it again parks itself on the wait list of the mutex it
    owns. *)
Theorem lock_mutex_twice_parks (h : Host) (m : Mutex) (ts : list VALUE) :
  wf_waiting (waiting m) ts →
  RTEST (owner m) = false →
  ∃ w',
    (lock_mutex ;; lock_mutex) h m
    = Stopped (record_call Stop (set_rb_thread_critical 0 h))
        {| owner := rb_thread_current h; waiting := w' |}
    ∧ wf_waiting w' (ts ++ [rb_thread_current h]).
Proof.
  intros Hwf Hfree. unfold bind at 1. rewrite (lock_mutex_free h m Hfree).
  destruct (lock_mutex_owned (set_rb_thread_critical 0 h)
              (set_owner (rb_thread_current h) m) ts eq_refl Hwf)
    as (w' & Hrun & Hwf').
  exists w'. by rewrite Hrun.
Qed.

Lemma lock_mutex_twice_parks_witness :
  ∃ w',
    (lock_mutex ;; lock_mutex) idle_host init_mutex
    = Stopped (record_call Stop (set_rb_thread_critical 0 idle_host))
        {| owner := Object 1; waiting := w' |}
    ∧ wf_waiting w' [Object 1].
Proof.
  apply (lock_mutex_twice_parks idle_host init_mutex []).
  - apply (wf_list_of []). constructor.
  - reflexivity.
Defined.

(** X9.  [unlock] does not ask who the owner is: called by any thread
    on a locked mutex it clears the owner, wakes the first waiting
    thread that is not killed and lets it run, and returns [self]; the
    threads behind stay queued and have to be woken by later unlocks.
    On a mutex that is not locked it returns [nil] and changes
    nothing. *)
Theorem rb_mutex_unlock_wakes_first (h : Host) (m : Mutex) (ts : list VALUE) :
  wf_waiting (waiting m) ts →
  if RTEST (owner m) then
    ∃ w',
      rb_mutex_unlock h m
      = Returns Qtrue
          (record_calls (wake_and_run_calls (killed h) ts)
             (set_rb_thread_critical 0 h))
          {| owner := Qnil; waiting := w' |}
      ∧ wf_waiting w' (still_waiting (killed h) ts)
  else
    rb_mutex_unlock h m = Returns Qnil (set_rb_thread_critical 0 h) m.
Proof.
  intros Hwf. destruct (RTEST (owner m)) eqn:Howner.
  - destruct (unlock_mutex_owned h m ts Howner Hwf) as (w' & Hrun & Hwf').
    exists w'. split; [|done]. unfold rb_mutex_unlock, bind.
    by rewrite Hrun.
  - by apply rb_mutex_unlock_free.
Qed.

Lemma rb_mutex_unlock_wakes_first_witness :
  ∃ w',
    rb_mutex_unlock idle_host
      {| owner := Object 2; waiting := list_of [Object 3; Object 4] |}
    = Returns Qtrue
        (record_calls [Wakeup (Object 3); Wakeup (Object 3); Schedule]
           (set_rb_thread_critical 0 idle_host))
        {| owner := Qnil; waiting := w' |}
    ∧ wf_waiting w' [Object 4].
Proof.
  apply (rb_mutex_unlock_wakes_first idle_host
           {| owner := Object 2; waiting := list_of [Object 3; Object 4] |}
           [Object 3; Object 4]).
  apply wf_list_of. repeat constructor.
Defined.

(** X10.  [synchronize] by a thread that gets the mutex runs the block
    with the mutex held and unlocks on the way out, whether the block
    returns or raises: the result or the exception of the block is
    passed on and the mutex has no owner afterwards.  [ms] are the
    threads waiting for the mutex when the block ends. *)
Theorem rb_mutex_synchronize_unlocks (block : M Mutex VALUE) (h : Host)
    (m : Mutex) (h1 : Host) (m1 : Mutex) (ms : list VALUE) :
  RTEST (owner m) = false →
  wf_waiting (waiting m1) ms →
  (∀ a,
     block (set_rb_thread_critical 0 h) (set_owner (rb_thread_current h) m)
     = Returns a h1 m1 →
     ∃ h2 m2, rb_mutex_synchronize block h m = Returns a h2 m2
              ∧ RTEST (owner m2) = false)
  ∧ (∀ e,
       block (set_rb_thread_critical 0 h) (set_owner (rb_thread_current h) m)
       = Raises e h1 m1 →
       ∃ h2 m2, rb_mutex_synchronize block h m = Raises e h2 m2
                ∧ RTEST (owner m2) = false).
Proof.
  intros Hfree Hwf.
  assert (∃ h2 m2 r, rb_mutex_unlock h1 m1 = Returns r h2 m2
                     ∧ RTEST (owner m2) = false) as (h2 & m2 & r & Hun & Hm2).
  { destruct (RTEST (owner m1)) eqn:Howner.
    - destruct (unlock_mutex_owned h1 m1 ms Howner Hwf) as (w' & Hrun & _).
      unfold rb_mutex_unlock, bind. rewrite Hrun. by eexists _, _, _.
    - rewrite (rb_mutex_unlock_free h1 m1 Howner). by eexists _, _, _. }
  split.
  - intros a Hblock. exists h2, m2. split; [|done].
    unfold rb_mutex_synchronize, rb_mutex_lock, bind at 1, bind at 1.
    rewrite (lock_mutex_free h m Hfree). unfold ret at 1, rb_ensure.
    rewrite Hblock. unfold bind. by rewrite Hun.
  - intros e Hblock. exists h2, m2. split; [|done].
    unfold rb_mutex_synchronize, rb_mutex_lock, bind at 1, bind at 1.
    rewrite (lock_mutex_free h m Hfree). unfold ret at 1, rb_ensure.
    rewrite Hblock. unfold bind. by rewrite Hun.
Qed.

(** A block that raises, on a mutex nobody waits for. *)
Lemma rb_mutex_synchronize_unlocks_witness :
  ∃ h2 m2,
    rb_mutex_synchronize (rb_raise (RuntimeError "failed")) idle_host
      init_mutex
    = Raises (RuntimeError "failed") h2 m2
    ∧ RTEST (owner m2) = false.
Proof.
  apply (proj2 (rb_mutex_synchronize_unlocks
                  (rb_raise (RuntimeError "failed")) idle_host init_mutex
                  (set_rb_thread_critical 0 idle_host)
                  (set_owner (rb_thread_current idle_host) init_mutex) []
                  eq_refl (wf_list_of [] (Forall_nil_2 _)))).
  reflexivity.
Defined.

(** X11.  [exclusive_unlock] runs its block inside the critical
    section, after the owner has been cleared and the first waiter that
    is not killed has been taken off the wait list; it leaves the
    critical section after the block and only then lets the woken
    thread run, and returns [self].  On a mutex that is not locked the
    block is run all the same, and [nil] is returned. *)
Theorem rb_mutex_exclusive_unlock_runs_block (block : M Mutex VALUE)
    (h : Host) (m : Mutex) (ts : list VALUE) :
  wf_waiting (waiting m) ts →
  if RTEST (owner m) then
    ∃ w',
      wf_waiting w' (still_waiting (killed h) ts)
      ∧ ∀ b h2 m2,
          block (record_calls (wake_one_calls (killed h) ts)
                   (set_rb_thread_critical 1 h))
            {| owner := Qnil; waiting := w' |}
          = Returns b h2 m2 →
          killed h2 = killed h →
          rb_mutex_exclusive_unlock block h m
          = Returns Qtrue
              (record_calls
                 match woken (killed h) ts with
                 | Some t => [Wakeup t; Schedule]
                 | None => []
                 end (set_rb_thread_critical 0 h2)) m2
  else
    ∀ b h2 m2,
      block (set_rb_thread_critical 1 h) m = Returns b h2 m2 →
      rb_mutex_exclusive_unlock block h m
      = Returns Qnil (set_rb_thread_critical 0 h2) m2.
Proof.
  intros Hwf. destruct (RTEST (owner m)) eqn:Howner.
  - destruct (wake_one_wf (set_rb_thread_critical 1 h) _ _ Hwf)
      as (w' & Hwake & Hwf').
    exists w'. split; [done|]. intros b h2 m2 Hblock Hkilled.
    unfold rb_mutex_exclusive_unlock, rb_ensure,
      rb_mutex_exclusive_unlock_inner, unlock_mutex_inner, bind, get, put,
      on, set_critical, ret.
    simpl. rewrite Howner. simpl. rewrite Hwake. simpl.
    change (set_waiting w' (set_owner Qnil m))
      with {| owner := Qnil; waiting := w' |}.
    simpl in Hblock. rewrite Hblock.
    destruct (woken_reference (killed h) ts (proj2 Hwf)) as [Hne HR].
    rewrite decide_False by done. rewrite HR.
    destruct (woken (killed h) ts) as [t|] eqn:Hw; simpl.
    + rewrite run_thread_alive; [done| |done].
      simpl. rewrite Hkilled. by apply woken_alive in Hw.
    + by rewrite record_calls_nil.
  - intros b h2 m2 Hblock.
    unfold rb_mutex_exclusive_unlock, rb_ensure,
      rb_mutex_exclusive_unlock_inner, unlock_mutex_inner, bind, get, put,
      on, set_critical, ret.
    simpl. rewrite Howner. simpl. by rewrite Hblock.
Qed.

(** On a mutex that is not locked. *)
Lemma rb_mutex_exclusive_unlock_runs_block_witness :
  rb_mutex_exclusive_unlock (ret (Integer 5)) idle_host init_mutex
  = Returns Qnil
      (set_rb_thread_critical 0 (set_rb_thread_critical 1 idle_host))
      init_mutex.
Proof.
  apply (rb_mutex_exclusive_unlock_runs_block (ret (Integer 5)) idle_host
           init_mutex [] (wf_list_of [] (Forall_nil_2 _)) (Integer 5)).
  reflexivity.
Defined.

(** ** ConditionVariable *)

(** X12.  [wait] by the owner of the mutex clears the owner, queues
    the caller behind the threads already waiting on the condition
    variable and parks.  Nobody waiting for the mutex is woken: the
    wait list of the mutex is as it was and the only call to the
    scheduler is the stop. *)
Theorem wait_condvar_releases_silently (h : Host) (c : ConditionVariable)
    (m : Mutex) (ts : list VALUE) :
  owner m = rb_thread_current h →
  wf_waiting (cv_waiting c) ts →
  ∃ w' h',
    wait_condvar h (c, m)
    = Stopped h' ({| cv_waiting := w' |},
                  {| owner := Qnil; waiting := waiting m |})
    ∧ wf_waiting w' (ts ++ [rb_thread_current h])
    ∧ calls h' = calls h ++ [Stop]
    ∧ rb_thread_critical h' = 0.
Proof.
  intros Howner Hwf.
  destruct (wait_condvar_owner h c m ts Howner Hwf) as (w' & Hrun & Hwf').
  exists w', (record_call Stop (set_rb_thread_critical 0 h)).
  by rewrite Hrun.
Qed.

Lemma wait_condvar_releases_silently_witness :
  ∃ w' h',
    wait_condvar idle_host
      (init_condvar, {| owner := Object 1; waiting := list_of [Object 3] |})
    = Stopped h' ({| cv_waiting := w' |},
                  {| owner := Qnil; waiting := list_of [Object 3] |})
    ∧ wf_waiting w' [Object 1]
    ∧ calls h' = calls idle_host ++ [Stop]
    ∧ rb_thread_critical h' = 0.
Proof.
  apply (wait_condvar_releases_silently idle_host init_condvar
           {| owner := Object 1; waiting := list_of [Object 3] |} []).
  - reflexivity.
  - apply (wf_list_of []). constructor.
Defined.

Lemma wake_one_nobody h lst :
  entries lst = None → wake_one h lst = Returns Qnil h lst.
Proof.
  intros Hent. unfold wake_one.
  destruct (base.size (nodes lst)); simpl; by rewrite Hent.
Qed.

Lemma signal_condvar_nobody h (c : ConditionVariable) :
  wf_waiting (cv_waiting c) [] →
  signal_condvar h c = Returns tt (set_rb_thread_critical 0 h) c.
Proof.
  intros [(live & pool & Hl & Hnil) _].
  apply fmap_nil_inv in Hnil. subst live.
  assert (entries (cv_waiting c) = None) as Hent by apply Hl.
  unfold signal_condvar, rb_ensure, bind, on, set_critical, ret.
  rewrite (wake_one_nobody _ _ Hent). simpl. by destruct c.
Qed.

(** X13.  A signal is not remembered: [signal] on a condition variable
    nobody waits on changes nothing, and a [wait] by the owner of the
    mutex that comes right after it parks the caller all the same. *)
Theorem signal_without_waiter_is_lost (h : Host) (c : ConditionVariable)
    (m : Mutex) :
  wf_waiting (cv_waiting c) [] →
  owner m = rb_thread_current h →
  signal_condvar h c = Returns tt (set_rb_thread_critical 0 h) c
  ∧ ∃ w' h',
      (on fst (λ c' s, (c', snd s)) signal_condvar ;; wait_condvar) h (c, m)
      = Stopped h' ({| cv_waiting := w' |},
                    {| owner := Qnil; waiting := waiting m |})
      ∧ wf_waiting w' [rb_thread_current h]
      ∧ calls h' = calls h ++ [Stop].
Proof.
  intros Hwf Howner. pose proof (signal_condvar_nobody h c Hwf) as Hsig.
  split; [done|].
  destruct (wait_condvar_owner (set_rb_thread_critical 0 h) c m []
              Howner Hwf) as (w' & Hrun & Hwf').
  exists w', (record_call Stop (set_rb_thread_critical 0 h)).
  unfold bind, on. simpl. rewrite Hsig. simpl. by rewrite Hrun.
Qed.

Lemma signal_without_waiter_is_lost_witness :
  signal_condvar idle_host init_condvar
  = Returns tt (set_rb_thread_critical 0 idle_host) init_condvar
  ∧ ∃ w' h',
      (on fst (λ c' s, (c', snd s)) signal_condvar ;; wait_condvar)
        idle_host (init_condvar, held_by 1)
      = Stopped h' ({| cv_waiting := w' |},
                    {| owner := Qnil; waiting := waiting (held_by 1) |})
      ∧ wf_waiting w' [rb_thread_current idle_host]
      ∧ calls h' = calls idle_host ++ [Stop].
Proof.
  apply (signal_without_waiter_is_lost idle_host init_condvar (held_by 1)).
  - apply (wf_list_of []). constructor.
  - reflexivity.
Defined.

(** ** Queue: push and pop *)

Lemma rb_queue_push_room (v : VALUE) (h : Host) (q : Queue)
    (ms vas sas vs : list VALUE) :
  wf_queue q ms vas sas vs →
  RTEST (owner (mutex q)) = false →
  capacity q = 0 ∨ spec_size vs < capacity q →
  ∃ h' q',
    rb_queue_push v h q = Returns tt h' q'
    ∧ wf_queue q' (still_waiting (killed h) ms)
        (still_waiting (killed h) vas) sas (vs ++ [v])
    ∧ capacity q' = capacity q
    ∧ owner (mutex q') = Qnil
    ∧ calls h'
      = calls h ++ wake_and_run_calls (killed h) vas
        ++ wake_and_run_calls (killed h) ms.
Proof.
  intros Hwf Hfree Hroom.
  destruct Hwf as [Hm Hva Hsa (live & pool & Hvs & Hlive) Hcap].
  assert (size (values q) = spec_size vs) as Hsize.
  { unfold spec_size. by rewrite (wf_size _ _ _ Hvs), <- Hlive, length_fmap. }
  unfold rb_queue_push.
  unfold bind at 1, on at 1. rewrite (lock_mutex_free _ _ Hfree).
  unfold bind at 1. simpl wait_while_full. unfold bind at 1, get at 1.
  cbn [values capacity set_mutex]. rewrite Hsize.
  assert ((negb (capacity q =? 0) && (capacity q <=? spec_size vs)) = false)
    as ->.
  { destruct Hroom as [->|Hlt]; [done|].
    apply andb_false_intro2. apply Z.leb_gt. lia. }
  unfold ret at 1.
  destruct (push_list_wf _ _ _ v Hvs) as (a & vl & Hpush & Hvl).
  unfold bind at 1, on at 1, push_current, lift_list.
  cbn [values set_mutex]. rewrite Hpush.
  destruct (signal_condvar_wf (set_rb_thread_critical 0 h)
              (value_available q) vas Hva) as (cw & Hsig & Hcw).
  rewrite set_rb_thread_critical_twice in Hsig.
  unfold bind at 1, on at 1. cbn [value_available set_values set_mutex].
  rewrite Hsig.
  destruct (unlock_mutex_owned
              (record_calls (wake_and_run_calls (killed h) vas)
                 (set_rb_thread_critical 0 h))
              (set_owner (rb_thread_current h) (mutex q)) ms)
    as (mw & Hunlock & Hwfm); [done|done|].
  unfold bind at 1, on at 1. simpl. simpl in Hunlock. rewrite Hunlock.
  unfold ret. eexists _, _. split; [done|]. simpl.
  split; [|split; [done|split; [done|by rewrite app_assoc]]].
  split; simpl; try done.
  exists (live ++ [(a, v)]), (tail pool). split; [done|].
  by rewrite fmap_snoc, Hlive.
Qed.

Lemma rb_queue_push_full (v : VALUE) (h : Host) (q : Queue)
    (ms vas sas vs : list VALUE) :
  wf_queue q ms vas sas vs →
  RTEST (owner (mutex q)) = false →
  capacity q ≠ 0 →
  capacity q ≤ spec_size vs →
  ∃ h' sw,
    rb_queue_push v h q
    = Stopped h'
        (set_mutex {| owner := Qnil; waiting := waiting (mutex q) |}
           (set_space_available {| cv_waiting := sw |} q))
    ∧ wf_waiting sw (sas ++ [rb_thread_current h])
    ∧ calls h' = calls h ++ [Stop].
Proof.
  intros Hwf Hfree Hbounded Hfull.
  destruct Hwf as [Hm Hva Hsa (live & pool & Hvs & Hlive) Hcap].
  assert (size (values q) = spec_size vs) as Hsize.
  { unfold spec_size. by rewrite (wf_size _ _ _ Hvs), <- Hlive, length_fmap. }
  destruct (wait_condvar_owner (set_rb_thread_critical 0 h)
              (space_available q)
              (set_owner (rb_thread_current h) (mutex q)) sas eq_refl Hsa)
    as (sw & Hwait & Hsw).
  exists (record_call Stop (set_rb_thread_critical 0 h)), sw.
  split; [|done].
  unfold rb_queue_push.
  unfold bind at 1, on at 1. rewrite (lock_mutex_free _ _ Hfree).
  unfold bind at 1. simpl wait_while_full. unfold bind at 1, get at 1.
  cbn [values capacity set_mutex]. rewrite Hsize.
  assert ((negb (capacity q =? 0) && (capacity q <=? spec_size vs)) = true)
    as ->.
  { apply andb_true_intro. split.
    - apply negb_true_iff. by apply Z.eqb_neq.
    - by apply Z.leb_le. }
  unfold bind at 1, wait_space_available, on at 1.
  cbn [space_available mutex set_mutex]. by rewrite Hwait.
Qed.

Lemma rb_queue_pop_waits (argv : list VALUE) (h : Host) (q : Queue)
    (ms vas sas : list VALUE) :
  wf_queue q ms vas sas [] →
  RTEST (owner (mutex q)) = false →
  argv = [] ∨ (∃ arg, argv = [arg] ∧ RTEST arg = false) →
  ∃ h' cw,
    rb_queue_pop argv h q
    = Stopped h'
        (set_mutex {| owner := Qnil; waiting := waiting (mutex q) |}
           (set_value_available {| cv_waiting := cw |} q))
    ∧ wf_waiting cw (vas ++ [rb_thread_current h])
    ∧ calls h' = calls h ++ [Stop].
Proof.
  intros Hwf Hfree Hargv.
  destruct Hwf as [Hm Hva Hsa (live & pool & Hvs & Hlive) Hcap].
  apply fmap_nil_inv in Hlive. subst live.
  assert (entries (values q) = None) as Hent by apply Hvs.
  destruct (wait_condvar_owner (set_rb_thread_critical 0 h)
              (value_available q)
              (set_owner (rb_thread_current h) (mutex q)) vas eq_refl Hva)
    as (cw & Hwait & Hcw).
  exists (record_call Stop (set_rb_thread_critical 0 h)), cw.
  split; [|done].
  assert (rb_queue_pop argv h q
    = (on mutex set_mutex lock_mutex ;;
       let* queue := get in
       (if negb (bool_decide (is_Some (entries (values queue))))
           && negb true
        then on mutex set_mutex unlock_mutex ;;
             rb_raise (ThreadError "queue empty")
        else ret tt) ;;
       wait_while_empty 1 ;;
       let* result := on values set_values shift_values in
       let* queue := get in
       (if negb (capacity queue =? 0)
           && (size (values queue) <? capacity queue)
        then on space_available set_space_available signal_condvar
        else ret tt) ;;
       on mutex set_mutex unlock_mutex ;;
       ret result) h q) as ->.
  { destruct Hargv as [->|(arg & -> & Harg)]; [done|].
    unfold rb_queue_pop. unfold bind at 1, ret at 1. by rewrite Harg. }
  unfold bind at 1, on at 1. rewrite (lock_mutex_free _ _ Hfree).
  unfold bind at 1, get at 1. rewrite andb_false_r.
  unfold bind at 1, ret at 1.
  unfold bind at 1. simpl wait_while_empty. unfold bind at 1, get at 1.
  cbn [values set_mutex]. rewrite Hent.
  unfold bind at 1, wait_value_available, on at 1.
  cbn [value_available mutex set_mutex]. by rewrite Hwait.
Qed.

(** X14.  [push] by a thread that gets the mutex.  On a queue that is
    unbounded or below its capacity the value goes behind the values
    present, "value available" is signalled once (the first consumer
    that can be woken is woken and run) and the mutex is unlocked;
    producers waiting for space are left alone.  On a bounded queue
    that is full the value is not added: the caller releases the mutex,
    is queued behind the producers already waiting for space and parks,
    and this release wakes nobody waiting for the mutex. *)
Theorem rb_queue_push_appends_or_parks (v : VALUE) (h : Host) (q : Queue)
    (ms vas sas vs : list VALUE) :
  wf_queue q ms vas sas vs →
  RTEST (owner (mutex q)) = false →
  if negb (capacity q =? 0) && (capacity q <=? spec_size vs) then
    ∃ h' sw,
      rb_queue_push v h q
      = Stopped h'
          (set_mutex {| owner := Qnil; waiting := waiting (mutex q) |}
             (set_space_available {| cv_waiting := sw |} q))
      ∧ wf_waiting sw (sas ++ [rb_thread_current h])
      ∧ calls h' = calls h ++ [Stop]
  else
    ∃ h' q',
      rb_queue_push v h q = Returns tt h' q'
      ∧ wf_queue q' (still_waiting (killed h) ms)
          (still_waiting (killed h) vas) sas (vs ++ [v])
      ∧ capacity q' = capacity q
      ∧ owner (mutex q') = Qnil
      ∧ calls h'
        = calls h ++ wake_and_run_calls (killed h) vas
          ++ wake_and_run_calls (killed h) ms.
Proof.
  intros Hwf Hfree.
  destruct (negb (capacity q =? 0) && (capacity q <=? spec_size vs))
    eqn:Hfull.
  - apply andb_prop in Hfull as [Hbounded Hle].
    apply (rb_queue_push_full v h q ms vas sas vs Hwf Hfree).
    + apply negb_true_iff in Hbounded. by apply Z.eqb_neq.
    + by apply Z.leb_le.
  - apply (rb_queue_push_room v h q ms vas sas vs Hwf Hfree).
    apply andb_false_iff in Hfull as [Hzero|Hlt].
    + left. apply negb_false_iff in Hzero. by apply Z.eqb_eq.
    + right. by apply Z.leb_gt.
Qed.

(** A third value pushed on a queue of capacity 2 that holds two. *)
Lemma rb_queue_push_appends_or_parks_witness :
  ∃ h' sw,
    rb_queue_push (Integer 3) idle_host
      (queue_with_producers 2 [] [Integer 1; Integer 2])
    = Stopped h'
        (set_mutex
           {| owner := Qnil;
              waiting := waiting
                (mutex (queue_with_producers 2 [] [Integer 1; Integer 2])) |}
           (set_space_available {| cv_waiting := sw |}
              (queue_with_producers 2 [] [Integer 1; Integer 2])))
    ∧ wf_waiting sw ([] ++ [rb_thread_current idle_host])
    ∧ calls h' = calls idle_host ++ [Stop].
Proof.
  apply (rb_queue_push_appends_or_parks (Integer 3) idle_host
           (queue_with_producers 2 [] [Integer 1; Integer 2])
           [] [] [] [Integer 1; Integer 2]).
  - apply wf_queue_with_producers; [done|constructor].
  - reflexivity.
Defined.

(** X15.  The queue is FIFO: on a queue nobody waits on, with room for
    one more value, a push followed by pops of all the values returns
    the values that were present in their order and the pushed value
    last, and leaves the queue without values and with its capacity. *)
Theorem rb_queue_push_then_pops (v : VALUE) (h : Host) (q : Queue)
    (vs : list VALUE) :
  wf_queue q [] [] [] vs →
  RTEST (owner (mutex q)) = false →
  capacity q = 0 ∨ spec_size vs < capacity q →
  ∃ h' q',
    (rb_queue_push v ;; pop_n (S (length vs))) h q
    = Returns (vs ++ [v]) h' q'
    ∧ wf_queue q' [] [] [] []
    ∧ capacity q' = capacity q.
Proof.
  intros Hwf Hfree Hroom.
  destruct (rb_queue_push_room v h q [] [] [] vs Hwf Hfree Hroom)
    as (h1 & q1 & Hpush & Hwf1 & Hcap1 & Howner1 & _).
  destruct (pop_n_wf h1 q1 [] (vs ++ [v]) Hwf1) as (h' & q' & Hpop & Hwf' & Hcap');
    [by rewrite Howner1|].
  exists h', q'. unfold bind at 1. rewrite Hpush.
  rewrite length_app in Hpop. simpl in Hpop.
  replace (S (length vs)) with (length vs + 1)%nat by lia.
  split; [done|]. split; [done|]. congruence.
Qed.

Lemma rb_queue_push_then_pops_witness :
  ∃ h' q',
    (rb_queue_push (Integer 3) ;; pop_n 3) idle_host
      (queue_with_producers 0 [] [Integer 1; Integer 2])
    = Returns [Integer 1; Integer 2; Integer 3] h' q'
    ∧ wf_queue q' [] [] [] []
    ∧ capacity q' = 0.
Proof.
  apply (rb_queue_push_then_pops (Integer 3) idle_host
           (queue_with_producers 0 [] [Integer 1; Integer 2])
           [Integer 1; Integer 2]).
  - apply wf_queue_with_producers; [done|constructor].
  - reflexivity.
  - left. reflexivity.
Defined.

(** X16.  A blocking [pop] (no argument, or a false one) by a thread
    that gets the mutex.  With a value in the queue it returns the
    oldest one and keeps the others in their order; it signals "space
    available" once when the queue is bounded and is below its capacity
    after the removal, and never on an unbounded queue.  Without a
    value it releases the mutex, queues the caller behind the consumers
    already waiting and parks. *)
Theorem rb_queue_pop_blocking (argv : list VALUE) (h : Host) (q : Queue)
    (ms vas sas vs : list VALUE) :
  wf_queue q ms vas sas vs →
  RTEST (owner (mutex q)) = false →
  argv = [] ∨ (∃ arg, argv = [arg] ∧ RTEST arg = false) →
  match vs with
  | [] =>
      ∃ h' cw,
        rb_queue_pop argv h q
        = Stopped h'
            (set_mutex {| owner := Qnil; waiting := waiting (mutex q) |}
               (set_value_available {| cv_waiting := cw |} q))
        ∧ wf_waiting cw (vas ++ [rb_thread_current h])
        ∧ calls h' = calls h ++ [Stop]
  | v :: vs' =>
      ∃ h' q',
        rb_queue_pop argv h q = Returns v h' q'
        ∧ wf_queue q' (still_waiting (killed h) ms) vas
            (if negb (capacity q =? 0) && (spec_size vs' <? capacity q)
             then still_waiting (killed h) sas else sas) vs'
        ∧ capacity q' = capacity q
        ∧ owner (mutex q') = Qnil
  end.
Proof.
  intros Hwf Hfree Hargv. destruct vs as [|v vs'].
  - by apply (rb_queue_pop_waits argv h q ms vas sas).
  - apply (rb_queue_pop_front argv h q ms vas sas v vs'); [|done|done].
    destruct Hargv as [->|(arg & -> & _)]; simpl; lia.
Qed.

Lemma rb_queue_pop_blocking_witness :
  ∃ h' q',
    rb_queue_pop [] idle_host
      (queue_with_producers 2 [Object 10] [Integer 1; Integer 2])
    = Returns (Integer 1) h' q'
    ∧ wf_queue q' (still_waiting (killed idle_host) []) []
        (if negb (capacity
                    (queue_with_producers 2 [Object 10]
                       [Integer 1; Integer 2]) =? 0)
            && (spec_size [Integer 2]
                <? capacity (queue_with_producers 2 [Object 10]
                               [Integer 1; Integer 2]))
         then still_waiting (killed idle_host) [Object 10]
         else [Object 10]) [Integer 2]
    ∧ capacity q'
      = capacity (queue_with_producers 2 [Object 10] [Integer 1; Integer 2])
    ∧ owner (mutex q') = Qnil.
Proof.
  apply (rb_queue_pop_blocking [] idle_host
           (queue_with_producers 2 [Object 10] [Integer 1; Integer 2])
           [] [] [Object 10] [Integer 1; Integer 2]).
  - apply wf_queue_with_producers; [done|repeat constructor].
  - reflexivity.
  - left. reflexivity.
Defined.

(** ** Queue: arguments and records that are refused *)

Section NeverRaises.
Context {S : Type}.

Lemma never_raises_ret {A} (a : A) : never_raises (ret a : M S A).
Proof. by intros h s e h' s'. Qed.

Lemma never_raises_bind {A B} (m : M S A) (f : A → M S B) :
  never_raises m → (∀ a, never_raises (f a)) → never_raises (bind m f).
Proof.
  intros Hm Hf h s e h' s'. unfold bind.
  destruct (m h s) as [a h1 s1|e1 h1 s1| | |] eqn:Hrun; try done.
  - apply Hf.
  - by apply Hm in Hrun.
Qed.

Lemma never_raises_on {T A} (proj : S → T) (inj : T → S → S) (m : M T A) :
  never_raises m → never_raises (on proj inj m).
Proof.
  intros Hm h s e h' s'. unfold on.
  destruct (m h (proj s)) as [a h1 s1|e1 h1 s1| | |] eqn:Hrun; try done.
  by apply Hm in Hrun.
Qed.

Lemma never_raises_ensure {A} (body : M S A) (ensure : M S unit) :
  never_raises body → never_raises ensure →
  never_raises (rb_ensure body ensure).
Proof.
  intros Hbody Hensure h s e h' s'. unfold rb_ensure.
  destruct (body h s) as [a h1 s1|e1 h1 s1| | |] eqn:Hrun; try done.
  - apply never_raises_bind; [done|]. intros _. apply never_raises_ret.
  - by apply Hbody in Hrun.
Qed.

Lemma never_raises_set_critical c : never_raises (set_critical c : M S unit).
Proof. by intros h s e h' s'. Qed.

Lemma never_raises_get : never_raises (get : M S S).
Proof. by intros h s e h' s'. Qed.

Lemma never_raises_put s0 : never_raises (put s0 : M S unit).
Proof. by intros h s e h' s'. Qed.

Lemma never_raises_host : never_raises (host : M S Host).
Proof. by intros h s e h' s'. Qed.

Lemma never_raises_stop : never_raises (rb_thread_stop : M S unit).
Proof. by intros h s e h' s'. Qed.

(** The ThreadError of a thread that cannot be woken is swallowed. *)
Lemma never_raises_wake_thread t : never_raises (wake_thread t : M S VALUE).
Proof.
  intros h s e h' s'.
  unfold wake_thread, rescue_thread_error, rb_thread_wakeup.
  by destruct (killed h t).
Qed.

Lemma never_raises_run_thread t : never_raises (run_thread t : M S VALUE).
Proof.
  intros h s e h' s'.
  unfold run_thread, rescue_thread_error, rb_thread_run, bind,
    rb_thread_wakeup, host.
  destruct (killed h t); [done|]. simpl.
  by destruct (decide (rb_thread_critical h = 0)).
Qed.

End NeverRaises.

Lemma never_raises_lift_list {A} (f : List → option (A * List)) :
  never_raises (lift_list f).
Proof.
  intros h s e h' s'. unfold lift_list. by destruct (f s) as [[? ?]|].
Qed.

Lemma never_raises_wake_one_loop fuel w :
  never_raises (wake_one_loop fuel w).
Proof.
  revert w. induction fuel as [|fuel IH]; intros w h lst e h' s'; simpl.
  - destruct (entries lst); [|done]. by destruct (RTEST w).
  - destruct (entries lst); [|done]. destruct (RTEST w); [done|].
    apply never_raises_bind; [apply never_raises_lift_list|]. intros t.
    apply never_raises_bind; [apply never_raises_wake_thread|]. apply IH.
Qed.

Lemma never_raises_wake_one : never_raises wake_one.
Proof. intros h lst. apply never_raises_wake_one_loop. Qed.

Lemma never_raises_wake_all_loop fuel : never_raises (wake_all_loop fuel).
Proof.
  induction fuel as [|fuel IH]; intros h lst e h' s'; simpl.
  - by destruct (entries lst).
  - destruct (entries lst); [|done].
    apply never_raises_bind; [apply never_raises_wake_one|]. intros _.
    apply IH.
Qed.

Lemma never_raises_lock_mutex : never_raises lock_mutex.
Proof.
  unfold lock_mutex.
  apply never_raises_bind; [apply never_raises_host|]. intros h0.
  apply never_raises_bind; [apply never_raises_set_critical|]. intros _.
  intros h m e h' m'. simpl. unfold bind at 1, get.
  destruct (RTEST (owner m)).
  - apply never_raises_bind.
    + apply never_raises_on, never_raises_lift_list.
    + intros _. apply never_raises_bind; [apply never_raises_stop|].
      intros _. apply never_raises_bind; [apply never_raises_set_critical|].
      intros _ h1 m1 e1 h1' m1'. unfold bind, get.
      by destruct (RTEST (owner m1)).
  - apply never_raises_bind; [apply never_raises_put|]. intros _.
    apply never_raises_set_critical.
Qed.

Lemma never_raises_unlock_mutex : never_raises unlock_mutex.
Proof.
  unfold unlock_mutex.
  apply never_raises_bind; [apply never_raises_set_critical|]. intros _.
  apply never_raises_bind.
  - apply never_raises_ensure; [|apply never_raises_set_critical].
    unfold unlock_mutex_inner.
    apply never_raises_bind; [apply never_raises_get|]. intros m.
    destruct (negb (RTEST (owner m))); [apply never_raises_ret|].
    apply never_raises_bind; [apply never_raises_put|]. intros _.
    apply never_raises_on, never_raises_wake_one.
  - intros waking. destruct (decide (waking = Qundef));
      [apply never_raises_ret|].
    apply never_raises_bind; [|intros _; apply never_raises_ret].
    destruct (RTEST waking);
      [apply never_raises_run_thread|apply never_raises_ret].
Qed.

Lemma never_raises_signal_condvar : never_raises signal_condvar.
Proof.
  unfold signal_condvar.
  apply never_raises_bind; [apply never_raises_set_critical|]. intros _.
  apply never_raises_bind.
  - apply never_raises_ensure; [|apply never_raises_set_critical].
    apply never_raises_on, never_raises_wake_one.
  - intros waking. destruct (RTEST waking); [|apply never_raises_ret].
    apply never_raises_bind; [apply never_raises_run_thread|].
    intros _. apply never_raises_ret.
Qed.

Lemma never_raises_signal_space_available n :
  never_raises (signal_space_available n).
Proof.
  induction n as [|n IH]; simpl; [apply never_raises_ret|].
  apply never_raises_bind; [|by intros _].
  apply never_raises_on, never_raises_signal_condvar.
Qed.

(** X17.  A thread that cannot be woken never makes these functions
    fail: whatever the state of the host and of the struct, and however
    many waiting threads have been killed, [wake_one], [wake_all],
    [lock_mutex], [unlock_mutex], [signal_condvar], [broadcast] and
    [clear] do not end with an exception.  The ThreadError of each
    failed wake-up is swallowed. *)
Theorem waking_never_raises :
  never_raises wake_one
  ∧ never_raises wake_all
  ∧ never_raises lock_mutex
  ∧ never_raises unlock_mutex
  ∧ never_raises signal_condvar
  ∧ never_raises rb_condvar_broadcast
  ∧ never_raises rb_queue_clear.
Proof.
  split; [apply never_raises_wake_one|].
  split; [intros h lst; apply never_raises_wake_all_loop|].
  split; [apply never_raises_lock_mutex|].
  split; [apply never_raises_unlock_mutex|].
  split; [apply never_raises_signal_condvar|].
  split.
  - unfold rb_condvar_broadcast.
    apply never_raises_bind; [apply never_raises_set_critical|]. intros _.
    apply never_raises_bind; [|by intros _].
    apply never_raises_ensure; [|apply never_raises_set_critical].
    apply never_raises_on. intros h lst. apply never_raises_wake_all_loop.
  - unfold rb_queue_clear.
    apply never_raises_bind;
      [apply never_raises_on, never_raises_lock_mutex|]. intros _.
    apply never_raises_bind.
    { apply never_raises_on. unfold clear_values.
      apply never_raises_bind; [apply never_raises_host|]. intros h0.
      apply never_raises_lift_list. }
    intros _. apply never_raises_bind;
      [apply never_raises_on, never_raises_signal_condvar|]. intros _.
    apply never_raises_bind;
      [apply never_raises_on, never_raises_unlock_mutex|]. intros _.
    apply never_raises_ret.
Qed.

(** X18.  [max=] (and [SizedQueue.new]) raises only before it touches
    anything: whenever it ends with an exception, the queue and the
    host are as they were and the mutex has not been asked for.  The
    exception is the ArgError "value must be positive" only when the
    value is 0, and otherwise the error of the conversion. *)
Theorem rb_sized_queue_max_set_fails_whole (v : VALUE) (h : Host)
    (q : Queue) (e : Exception) (h' : Host) (q' : Queue) :
  rb_sized_queue_max_set v h q = Raises e h' q' →
  h' = h ∧ q' = q
  ∧ (e = ArgError "value must be positive" ∧ v = Integer 0
     ∨ e = RangeError ∨ e = TypeError).
Proof.
  unfold rb_sized_queue_max_set, NUM2ULONG.
  destruct v as [| | | |n|];
    try (intros [= <- <- <-]; split; [done|split; [done|tauto]]).
  destruct ((- ULONG_MODULUS <? n) && (n <? ULONG_MODULUS)) eqn:Hrange;
    [|intros [= <- <- <-]; split; [done|split; [done|tauto]]].
  unfold bind at 1, ret at 1.
  destruct (n mod ULONG_MODULUS <? 1) eqn:Hsmall.
  - intros [= <- <- <-]. split; [done|]. split; [done|]. left.
    split; [done|]. f_equal.
    apply andb_prop in Hrange as [Hlo Hhi].
    apply Z.ltb_lt in Hlo, Hhi, Hsmall.
    pose proof (Z.mod_pos_bound n ULONG_MODULUS eq_refl) as Hmod.
    assert (n mod ULONG_MODULUS = 0) as Hzero by lia.
    apply Z.mod_divide in Hzero; [|done]. destruct Hzero as [k ->].
    unfold ULONG_MODULUS in *. lia.
  - intros Hraise. exfalso. revert Hraise. unfold bind at 1, ret at 1.
    apply never_raises_bind;
      [apply never_raises_on, never_raises_lock_mutex|]. intros _.
    apply never_raises_bind; [apply never_raises_get|]. intros q0.
    apply never_raises_bind; [apply never_raises_put|]. intros _.
    apply never_raises_bind; [apply never_raises_signal_space_available|].
    intros _. apply never_raises_bind;
      [apply never_raises_on, never_raises_unlock_mutex|]. intros _.
    apply never_raises_ret.
Qed.

(** A capacity of 0, on a queue whose mutex thread 2 holds. *)
Lemma rb_sized_queue_max_set_fails_whole_witness :
  idle_host = idle_host
  ∧ set_mutex (held_by 2) init_queue = set_mutex (held_by 2) init_queue
  ∧ (ArgError "value must be positive" = ArgError "value must be positive"
     ∧ Integer 0 = Integer 0
     ∨ ArgError "value must be positive" = RangeError
     ∨ ArgError "value must be positive" = TypeError).
Proof.
  apply (rb_sized_queue_max_set_fails_whole (Integer 0) idle_host
           (set_mutex (held_by 2) init_queue)).
  reflexivity.
Defined.

(** X19.  [marshal_load] fails as a whole: when it raises, the queue
    and the host are as they were, the capacity not overwritten and no
    value added.  It raises a RuntimeError for a dump that is not an
    Array and for an Array without fields ("missing capacity value"),
    and passes on the error of the conversion when the first field is
    not a capacity. *)
Theorem rb_queue_marshal_load_fails_whole (data : Marshalled) (h : Host)
    (q : Queue) :
  (∀ e h' q',
     rb_queue_marshal_load data h q = Raises e h' q' → h' = h ∧ q' = q)
  ∧ rb_queue_marshal_load MarshalledOther h q
    = Raises (RuntimeError "expected Array of queue data") h q
  ∧ rb_queue_marshal_load (MarshalledArray []) h q
    = Raises (RuntimeError "missing capacity value") h q
  ∧ ∀ first fields,
      (∀ n, first ≠ Integer n) →
      rb_queue_marshal_load (MarshalledArray (first :: fields)) h q
      = Raises TypeError h q.
Proof.
  split; [|split; [done|split; [done|]]].
  - intros e h' q'. destruct data as [[|first fields]|]; simpl.
    + by intros [= <- <- <-].
    + unfold NUM2ULONG, bind, ret, rb_raise, get, put, on, lift_list.
      destruct first as [| | | |n|]; try by intros [= <- <- <-].
      destruct ((- ULONG_MODULUS <? n) && (n <? ULONG_MODULUS));
        [|by intros [= <- <- <-]].
      cbn [values set_capacity].
      by destruct (push_multiple_list _ _ _).
    + by intros [= <- <- <-].
  - intros first fields Hnot. simpl. unfold NUM2ULONG, bind.
    destruct first as [| | | |n|]; try done. by destruct (Hnot n).
Qed.

(** X20.  [marshal_load] takes no lock and signals nobody.  Called on
    a queue in use, with consumers [vas] waiting for a value and
    whoever as owner of the mutex, it overwrites the capacity and adds
    the values that its [unsigned] count covers behind the values
    present; the mutex, both condition variables and the host are left
    as they were, so no waiting consumer is woken for the values. *)
Theorem rb_queue_marshal_load_wakes_nobody (h : Host) (q : Queue)
    (ms vas sas vs0 : list VALUE) (n : Z) (vs : list VALUE) :
  wf_queue q ms vas sas vs0 →
  - ULONG_MODULUS < n < ULONG_MODULUS →
  ∃ q',
    rb_queue_marshal_load (MarshalledArray (Integer n :: vs)) h q
    = Returns tt h q'
    ∧ mutex q' = mutex q
    ∧ value_available q' = value_available q
    ∧ space_available q' = space_available q
    ∧ capacity q' = n mod ULONG_MODULUS
    ∧ wf_queue q' ms vas sas
        (vs0 ++ take (Z.to_nat (Z.of_nat (length vs) mod UINT_MODULUS)) vs).
Proof.
  intros Hwf Hrange.
  destruct (rb_queue_marshal_load_wf h q ms vas sas vs0 n vs Hwf Hrange)
    as (vl & Hload & Hwf').
  eexists. split; [exact Hload|].
  split; [done|]. split; [done|]. split; [done|]. split; [done|].
  exact Hwf'.
Qed.

Lemma rb_queue_marshal_load_wakes_nobody_witness :
  ∃ q',
    rb_queue_marshal_load (MarshalledArray [Integer 3; Integer 8; Integer 9])
      idle_host (queue_with_producers 2 [Object 10] [Integer 7])
    = Returns tt idle_host q'
    ∧ mutex q' = mutex (queue_with_producers 2 [Object 10] [Integer 7])
    ∧ value_available q'
      = value_available (queue_with_producers 2 [Object 10] [Integer 7])
    ∧ space_available q'
      = space_available (queue_with_producers 2 [Object 10] [Integer 7])
    ∧ capacity q' = 3 mod ULONG_MODULUS
    ∧ wf_queue q' [] [] [Object 10]
        ([Integer 7]
         ++ take (Z.to_nat (Z.of_nat (length [Integer 8; Integer 9])
                            mod UINT_MODULUS)) [Integer 8; Integer 9]).
Proof.
  apply (rb_queue_marshal_load_wakes_nobody idle_host
           (queue_with_producers 2 [Object 10] [Integer 7])
           [] [] [Object 10] [Integer 7] 3 [Integer 8; Integer 9]).
  - apply wf_queue_with_producers; [done|repeat constructor].
  - split; reflexivity.
Defined.

(** X21.  Dump, load, dump: for a queue of fewer than 2^32 values, the
    record that [marshal_dump] gives, loaded into a new queue, gives a
    queue with the same capacity and values, nobody waiting and the
    mutex free, whose own dump is the same record. *)
Theorem marshal_dump_load_dump (h : Host) (q : Queue)
    (ms vas sas vs : list VALUE) :
  wf_queue q ms vas sas vs →
  Z.of_nat (length vs) < UINT_MODULUS →
  ∃ record q',
    rb_queue_marshal_dump h q = Returns record h q
    ∧ record = MarshalledArray (ULONG2NUM (capacity q) :: vs)
    ∧ rb_queue_marshal_load record h init_queue = Returns tt h q'
    ∧ wf_queue q' [] [] [] vs
    ∧ owner (mutex q') = Qnil
    ∧ rb_queue_marshal_dump h q' = Returns record h q'.
Proof.
  intros Hwf Hshort.
  pose proof (wf_queue_capacity _ _ _ _ _ Hwf) as Hcap.
  destruct (rb_queue_marshal_load_wf h init_queue [] [] [] []
              (capacity q) vs wf_init_queue) as (vl & Hload & Hwf'); [lia|].
  rewrite Z.mod_small in Hload, Hwf' by done.
  rewrite (Z.mod_small (Z.of_nat (length vs))) in Hwf' by lia.
  rewrite Nat2Z.id, firstn_all in Hwf'. simpl in Hwf'.
  eexists _, _.
  split; [by apply (rb_queue_marshal_dump_wf h q ms vas sas)|].
  split; [done|]. split; [exact Hload|]. split; [done|]. split; [done|].
  by rewrite (rb_queue_marshal_dump_wf h _ [] [] [] vs Hwf').
Qed.

Lemma marshal_dump_load_dump_witness :
  ∃ record q',
    rb_queue_marshal_dump idle_host
      (queue_with_producers 3 [Object 10] [Integer 1; Integer 2])
    = Returns record idle_host
        (queue_with_producers 3 [Object 10] [Integer 1; Integer 2])
    ∧ record = MarshalledArray [Integer 3; Integer 1; Integer 2]
    ∧ rb_queue_marshal_load record idle_host init_queue
      = Returns tt idle_host q'
    ∧ wf_queue q' [] [] [] [Integer 1; Integer 2]
    ∧ owner (mutex q') = Qnil
    ∧ rb_queue_marshal_dump idle_host q' = Returns record idle_host q'.
Proof.
  apply (marshal_dump_load_dump idle_host
           (queue_with_producers 3 [Object 10] [Integer 1; Integer 2])
           [] [] [Object 10] [Integer 1; Integer 2]).
  - apply wf_queue_with_producers; [done|repeat constructor].
  - reflexivity.
Defined.

(** ** Queue: queries *)

(** A query: the mutex is taken, a value is read off the queue, the
    mutex is unlocked. *)
Lemma queue_query_wf (f : Queue → VALUE) h q (ms : list VALUE) :
  wf_waiting (waiting (mutex q)) ms →
  RTEST (owner (mutex q)) = false →
  ∃ mw,
    (on mutex set_mutex lock_mutex ;;
     let* queue := get in
     on mutex set_mutex unlock_mutex ;;
     ret (f queue)) h q
    = Returns (f (set_mutex (set_owner (rb_thread_current h) (mutex q)) q))
        (record_calls (wake_and_run_calls (killed h) ms)
           (set_rb_thread_critical 0 h))
        (set_mutex {| owner := Qnil; waiting := mw |} q)
    ∧ wf_waiting mw (still_waiting (killed h) ms).
Proof.
  intros Hm Hfree.
  destruct (unlock_mutex_owned (set_rb_thread_critical 0 h)
              (set_owner (rb_thread_current h) (mutex q)) ms)
    as (mw & Hunlock & Hwfm); [done|done|].
  exists mw. split; [|done].
  unfold bind at 1, on at 1. rewrite (lock_mutex_free _ _ Hfree).
  unfold bind at 1, get at 1. unfold bind at 1, on at 1. simpl.
  simpl in Hunlock. by rewrite Hunlock.
Qed.

(** X22.  [length] and [empty?] by a thread that gets the mutex.
    [length] returns the number of values (as an [unsigned long]) and
    [empty?] tells whether that number is 0, which below 2^64 values
    means that there is no value.  Neither changes the values, the
    capacity or the condition variables; but each unlocks the mutex on
    its way out, which wakes and runs the first thread waiting for the
    mutex. *)
Theorem rb_queue_length_counts (h : Host) (q : Queue)
    (ms vas sas vs : list VALUE) :
  wf_queue q ms vas sas vs →
  RTEST (owner (mutex q)) = false →
  (∃ mw,
     rb_queue_length h q
     = Returns (Integer (spec_size vs))
         (record_calls (wake_and_run_calls (killed h) ms)
            (set_rb_thread_critical 0 h))
         (set_mutex {| owner := Qnil; waiting := mw |} q)
     ∧ wf_waiting mw (still_waiting (killed h) ms))
  ∧ (∃ mw,
       rb_queue_empty_p h q
       = Returns (if spec_size vs =? 0 then Qtrue else Qfalse)
           (record_calls (wake_and_run_calls (killed h) ms)
              (set_rb_thread_critical 0 h))
           (set_mutex {| owner := Qnil; waiting := mw |} q)
       ∧ wf_waiting mw (still_waiting (killed h) ms))
  ∧ (Z.of_nat (length vs) < ULONG_MODULUS →
     spec_size vs = 0 ↔ vs = []).
Proof.
  intros Hwf Hfree.
  destruct Hwf as [Hm Hva Hsa (live & pool & Hvs & Hlive) Hcap].
  assert (size (values q) = spec_size vs) as Hsize.
  { unfold spec_size. by rewrite (wf_size _ _ _ Hvs), <- Hlive, length_fmap. }
  split; [|split].
  - destruct (queue_query_wf (λ queue, ULONG2NUM (size (values queue)))
                h q ms Hm Hfree) as (mw & Hrun & Hmw).
    exists mw. split; [|done]. unfold rb_queue_length.
    rewrite Hrun. cbn [values set_mutex]. by rewrite Hsize.
  - destruct (queue_query_wf
                (λ queue, if size (values queue) =? 0 then Qtrue else Qfalse)
                h q ms Hm Hfree) as (mw & Hrun & Hmw).
    exists mw. split; [|done]. unfold rb_queue_empty_p.
    rewrite Hrun. cbn [values set_mutex]. by rewrite Hsize.
  - intros Hsmall. unfold spec_size. rewrite Z.mod_small by lia.
    destruct vs; simpl; [done|]. split; [lia|done].
Qed.

Lemma rb_queue_length_counts_witness :
  ∃ mw,
    rb_queue_length idle_host
      (queue_with_producers 0 [] [Integer 1; Integer 2])
    = Returns (Integer (spec_size [Integer 1; Integer 2]))
        (record_calls (wake_and_run_calls (killed idle_host) [])
           (set_rb_thread_critical 0 idle_host))
        (set_mutex {| owner := Qnil; waiting := mw |}
           (queue_with_producers 0 [] [Integer 1; Integer 2]))
    ∧ wf_waiting mw (still_waiting (killed idle_host) []).
Proof.
  apply (proj1 (rb_queue_length_counts idle_host
                  (queue_with_producers 0 [] [Integer 1; Integer 2])
                  [] [] [] [Integer 1; Integer 2]
                  (wf_queue_with_producers 0 [] [Integer 1; Integer 2]
                     ltac:(done) (Forall_nil_2 _))
                  eq_refl)).
Defined.

(** X23.  [num_waiting] by a thread that gets the mutex returns the
    number of consumers waiting for a value plus the number of
    producers waiting for space (as an [unsigned long]); threads
    waiting for the mutex of the queue are not counted. *)
Theorem rb_queue_num_waiting_counts (h : Host) (q : Queue)
    (ms vas sas vs : list VALUE) :
  wf_queue q ms vas sas vs →
  RTEST (owner (mutex q)) = false →
  ∃ mw,
    rb_queue_num_waiting h q
    = Returns
        (Integer (Z.of_nat (length vas + length sas) mod ULONG_MODULUS))
        (record_calls (wake_and_run_calls (killed h) ms)
           (set_rb_thread_critical 0 h))
        (set_mutex {| owner := Qnil; waiting := mw |} q)
    ∧ wf_waiting mw (still_waiting (killed h) ms).
Proof.
  intros Hwf Hfree.
  destruct Hwf as [Hm [(lva & pva & Hva & Hlva) _]
                      [(lsa & psa & Hsa & Hlsa) _] _ Hcap].
  destruct (queue_query_wf
              (λ queue,
                 ULONG2NUM ((size (cv_waiting (value_available queue))
                             + size (cv_waiting (space_available queue)))
                            mod ULONG_MODULUS))
              h q ms Hm Hfree) as (mw & Hrun & Hmw).
  exists mw. split; [|done]. unfold rb_queue_num_waiting.
  rewrite Hrun. cbn [value_available space_available set_mutex].
  rewrite (wf_size _ _ _ Hva), (wf_size _ _ _ Hsa).
  rewrite <- Hlva, <- Hlsa, !length_fmap.
  rewrite <- Zplus_mod. unfold ULONG2NUM. do 3 f_equal. lia.
Qed.

Lemma rb_queue_num_waiting_counts_witness :
  ∃ mw,
    rb_queue_num_waiting idle_host
      (queue_with_producers 1 [Object 10; Object 11] [Integer 1])
    = Returns (Integer (Z.of_nat (length (@nil VALUE)
                                  + length [Object 10; Object 11])
                        mod ULONG_MODULUS))
        (record_calls (wake_and_run_calls (killed idle_host) [])
           (set_rb_thread_critical 0 idle_host))
        (set_mutex {| owner := Qnil; waiting := mw |}
           (queue_with_producers 1 [Object 10; Object 11] [Integer 1]))
    ∧ wf_waiting mw (still_waiting (killed idle_host) []).
Proof.
  apply (rb_queue_num_waiting_counts idle_host
           (queue_with_producers 1 [Object 10; Object 11] [Integer 1])
           [] [] [Object 10; Object 11] [Integer 1]).
  - apply wf_queue_with_producers; [done|repeat constructor].
  - reflexivity.
Defined.

Lemma rb_sized_queue_max_set_outcome h q n (ms vas sas vs : list VALUE) :
  wf_queue q ms vas sas vs →
  - ULONG_MODULUS < n < ULONG_MODULUS →
  1 ≤ n mod ULONG_MODULUS →
  RTEST (owner (mutex q)) = false →
  ∃ h' q' sas',
    rb_sized_queue_max_set (Integer n) h q = Returns tt h' q'
    ∧ capacity q' = n mod ULONG_MODULUS
    ∧ owner (mutex q') = Qnil
    ∧ wf_queue q' (still_waiting (killed h) ms) vas sas' vs.
Proof.
  intros Hwf Hrange Hpos Hfree.
  unfold rb_sized_queue_max_set, NUM2ULONG.
  assert (((- ULONG_MODULUS <? n) && (n <? ULONG_MODULUS)) = true) as ->.
  { apply andb_true_intro. split; apply Z.ltb_lt; lia. }
  unfold bind at 1, ret at 1.
  assert ((n mod ULONG_MODULUS <? 1) = false) as ->
    by (apply Z.ltb_ge; lia).
  unfold bind at 1, ret at 1. unfold bind at 1, on at 1.
  rewrite (lock_mutex_free _ _ Hfree).
  unfold bind at 1, get at 1. unfold bind at 1, put at 1.
  cbn [capacity set_mutex].
  set (k := Z.to_nat _).
  set (q1 := set_capacity (n mod ULONG_MODULUS) (set_mutex _ q)).
  assert (wf_queue q1 ms vas sas vs) as Hwf1.
  { destruct Hwf as [Hm ? ? ? ?]. split; simpl; try done.
    by apply Z.mod_pos_bound. }
  destruct (signal_space_available_wf k (set_rb_thread_critical 0 h) q1
              ms vas sas vs Hwf1 eq_refl) as (w' & Hloop & Hwf').
  unfold bind at 1. rewrite Hloop.
  destruct (unlock_mutex_owned
              (record_calls (signalled (killed h) k sas).1
                 (set_rb_thread_critical 0 h))
              (set_owner (rb_thread_current h) (mutex q)) ms)
    as (mw & Hunlock & Hwfm); [done|apply Hwf|].
  unfold bind at 1, on at 1. simpl. simpl in Hunlock. rewrite Hunlock.
  unfold ret. eexists _, _, (signalled (killed h) k sas).2.
  split; [reflexivity|]. simpl.
  split; [reflexivity|]. split; [reflexivity|].
  destruct Hwf as [Hm ? ? ? ?]. split; simpl; try done.
  by apply Z.mod_pos_bound.
Qed.

(** X24.  [max] reads back what [max=] stored: by a thread that gets
    the mutex both times, [max=] with an accepted value followed by
    [max] returns that value as an [unsigned long], the values of the
    queue being untouched. *)
Theorem rb_sized_queue_max_reads_back (h : Host) (q : Queue) (n : Z)
    (ms vas sas vs : list VALUE) :
  wf_queue q ms vas sas vs →
  - ULONG_MODULUS < n < ULONG_MODULUS →
  1 ≤ n mod ULONG_MODULUS →
  RTEST (owner (mutex q)) = false →
  ∃ h' q',
    (rb_sized_queue_max_set (Integer n) ;; rb_sized_queue_max) h q
    = Returns (Integer (n mod ULONG_MODULUS)) h' q'
    ∧ capacity q' = n mod ULONG_MODULUS
    ∧ values q' = values q.
Proof.
  intros Hwf Hrange Hpos Hfree.
  destruct (rb_sized_queue_max_set_outcome h q n ms vas sas vs
              Hwf Hrange Hpos Hfree)
    as (h1 & q1 & sas' & Hset & Hcap & Howner & Hwf1).
  assert (values q1 = values q) as Hvalues.
  { revert Hset. unfold rb_sized_queue_max_set, NUM2ULONG.
    assert (((- ULONG_MODULUS <? n) && (n <? ULONG_MODULUS)) = true) as ->.
    { apply andb_true_intro. split; apply Z.ltb_lt; lia. }
    unfold bind at 1, ret at 1.
    assert ((n mod ULONG_MODULUS <? 1) = false) as ->
      by (apply Z.ltb_ge; lia).
    unfold bind at 1, ret at 1. unfold bind at 1, on at 1.
    rewrite (lock_mutex_free _ _ Hfree).
    unfold bind at 1, get at 1. unfold bind at 1, put at 1.
    set (k := Z.to_nat _).
    set (q0 := set_capacity (n mod ULONG_MODULUS) (set_mutex _ q)).
    assert (wf_queue q0 ms vas sas vs) as Hwf0.
    { destruct Hwf as [Hm ? ? ? ?]. split; simpl; try done.
      by apply Z.mod_pos_bound. }
    destruct (signal_space_available_wf k (set_rb_thread_critical 0 h) q0
                ms vas sas vs Hwf0 eq_refl) as (w' & Hloop & _).
    unfold bind at 1. rewrite Hloop.
    unfold bind at 1, on at 1.
    destruct (unlock_mutex _ _) as [r h2 m2| | | |]; try done.
    unfold ret. by intros [= <- <-]. }
  destruct (queue_query_wf (λ queue, ULONG2NUM (capacity queue)) h1 q1
              (still_waiting (killed h) ms)) as (mw & Hmax & _).
  { apply Hwf1. }
  { by rewrite Howner. }
  unfold bind at 1. rewrite Hset. unfold rb_sized_queue_max.
  rewrite Hmax. cbn [capacity set_mutex values]. rewrite Hcap.
  by eexists _, _.
Qed.

Lemma rb_sized_queue_max_reads_back_witness :
  ∃ h' q',
    (rb_sized_queue_max_set (Integer 5) ;; rb_sized_queue_max) idle_host
      (queue_with_producers 2 [Object 10] [Integer 1])
    = Returns (Integer (5 mod ULONG_MODULUS)) h' q'
    ∧ capacity q' = 5 mod ULONG_MODULUS
    ∧ values q' = values (queue_with_producers 2 [Object 10] [Integer 1]).
Proof.
  apply (rb_sized_queue_max_reads_back idle_host
           (queue_with_producers 2 [Object 10] [Integer 1]) 5
           [] [] [Object 10] [Integer 1]).
  - apply wf_queue_with_producers; [done|repeat constructor].
  - split; reflexivity.
  - discriminate.
  - reflexivity.
Defined.

(** ** Releasing a struct *)

Lemma woken_none dead (ts : list VALUE) :
  woken dead ts = None ↔ forallb dead ts = true.
Proof.
  unfold woken. induction ts as [|t ts IH]; simpl; [done|].
  destruct (dead t); simpl; [done|]. split; discriminate.
Qed.

Lemma killed_prefix_all dead (ts : list VALUE) :
  forallb dead ts = true → killed_prefix dead ts = ts.
Proof.
  induction ts as [|t ts IH]; simpl; [done|].
  destruct (dead t); simpl; [|discriminate]. intros H. f_equal. by apply IH.
Qed.

Lemma assert_no_survivors_loop_lseg fuel nds p live h :
  lseg nds p None live →
  Forall (λ t, is_reference t = true) (live.*2) →
  (length live ≤ fuel)%nat →
  assert_no_survivors_loop fuel nds p h
  = Some (bool_decide (is_Some (woken (killed h) (live.*2))),
          record_calls (wake_one_calls (killed h) (live.*2)) h).
Proof.
  revert fuel p h.
  induction live as [|[a t] live IH]; intros fuel p h Hseg Href Hlen.
  - simpl in Hseg. subst p. unfold wake_one_calls, woken. simpl.
    rewrite record_calls_nil. by destruct fuel.
  - destruct fuel as [|fuel]; [simpl in Hlen; lia|].
    simpl in Hseg. destruct Hseg as [-> (nx & Ha & Hseg)].
    simpl in Href. apply Forall_cons in Href as [Ht Href].
    simpl. rewrite Ha. simpl.
    unfold wake_thread, rescue_thread_error, rb_thread_wakeup.
    unfold wake_one_calls, woken. simpl.
    destruct (killed h t) eqn:Hdead; simpl.
    + rewrite (IH fuel nx (record_call (WakeupFailed t) h) Hseg Href);
        [|simpl in Hlen; lia].
      simpl. unfold record_call. by rewrite record_calls_app.
    + by rewrite (is_reference_RTEST t Ht).
Qed.

Lemma assert_no_survivors_wf h lst (ts : list VALUE) :
  wf_waiting lst ts →
  assert_no_survivors h lst
  = Some (bool_decide (is_Some (woken (killed h) ts)),
          record_calls (wake_one_calls (killed h) ts) h).
Proof.
  intros [(live & pool & Hwf & <-) Href]. unfold assert_no_survivors.
  apply assert_no_survivors_loop_lseg; [apply Hwf|done|].
  rewrite (wf_store_size _ _ _ Hwf), length_app. lia.
Qed.

Lemma finalize_waiting lst (ts : list VALUE) :
  wf_waiting lst ts → finalize_list lst = Some ∅.
Proof.
  intros [(live & pool & Hwf & _) _]. by apply (finalize_list_wf _ live pool).
Qed.

(** X25.  Freeing a mutex (or a condition variable) gives each thread
    still on its wait list a wake-up.  If all of them have been killed
    the nodes of the list are freed, all of them; but the first thread
    that takes the wake-up is a survivor and the process is stopped
    with [rb_bug], the threads behind it not being looked at. *)
Theorem free_mutex_needs_no_survivor (h : Host) (m : Mutex) (ts : list VALUE) :
  wf_waiting (waiting m) ts →
  free_mutex h m
  = Some (if forallb (killed h) ts
          then Released (record_calls (WakeupFailed <$> ts) h) [∅]
          else Bug (record_calls (wake_one_calls (killed h) ts) h))
  ∧ free_condvar h {| cv_waiting := waiting m |} = free_mutex h m.
Proof.
  intros Hwf. split; [|done]. unfold free_mutex.
  rewrite (assert_no_survivors_wf h _ ts Hwf).
  rewrite (finalize_waiting _ ts Hwf).
  destruct (forallb (killed h) ts) eqn:Hall.
  - pose proof (proj2 (woken_none (killed h) ts) Hall) as Hnone.
    unfold wake_one_calls. rewrite Hnone, (killed_prefix_all _ _ Hall).
    simpl. by rewrite app_nil_r.
  - destruct (woken (killed h) ts) eqn:Hw; [done|].
    apply woken_none in Hw. congruence.
Qed.

(** Thread 10 has been killed, thread 11 has not. *)
Lemma free_mutex_needs_no_survivor_witness :
  free_mutex host_with_killed_10
    {| owner := Qnil; waiting := list_of [Object 10; Object 11; Object 12] |}
  = Some (Bug (record_calls [WakeupFailed (Object 10); Wakeup (Object 11)]
                 host_with_killed_10)).
Proof.
  refine (proj1 (free_mutex_needs_no_survivor host_with_killed_10
                   {| owner := Qnil;
                      waiting := list_of [Object 10; Object 11; Object 12] |}
                   [Object 10; Object 11; Object 12] _)).
  apply wf_list_of. repeat constructor.
Defined.

(** X26.  Freeing a queue checks the wait list of its mutex, then the
    producers waiting for space, then the consumers waiting for a
    value: with a thread among them that has not been killed the
    process is stopped with [rb_bug]; with none, all the nodes of the
    three wait lists and of the list of values are freed.  Values still
    in the queue are no obstacle. *)
Theorem free_queue_needs_no_survivor (h : Host) (q : Queue)
    (ms vas sas vs : list VALUE) :
  wf_queue q ms vas sas vs →
  if forallb (killed h) (ms ++ sas ++ vas)
  then free_queue h q
       = Some (Released
                 (record_calls (WakeupFailed <$> (ms ++ sas ++ vas)) h)
                 [∅; ∅; ∅; ∅])
  else ∃ h', free_queue h q = Some (Bug h').
Proof.
  intros [Hm Hva Hsa (live & pool & Hvs & _) _]. unfold free_queue.
  rewrite (assert_no_survivors_wf h _ ms Hm).
  rewrite !forallb_app.
  destruct (forallb (killed h) ms) eqn:Hms; simpl.
  2:{ destruct (woken (killed h) ms) eqn:Hw; [by eexists|].
      apply woken_none in Hw. congruence. }
  rewrite (proj2 (woken_none (killed h) ms) Hms). simpl.
  rewrite (assert_no_survivors_wf _ _ sas Hsa). simpl.
  destruct (forallb (killed h) sas) eqn:Hsas; simpl.
  2:{ destruct (woken (killed h) sas) eqn:Hw; [by eexists|].
      apply woken_none in Hw. congruence. }
  rewrite (proj2 (woken_none (killed h) sas) Hsas). simpl.
  rewrite (assert_no_survivors_wf _ _ vas Hva). simpl.
  destruct (forallb (killed h) vas) eqn:Hvas; simpl.
  2:{ destruct (woken (killed h) vas) eqn:Hw; [by eexists|].
      apply woken_none in Hw. congruence. }
  rewrite (proj2 (woken_none (killed h) vas) Hvas). simpl.
  rewrite (finalize_waiting _ ms Hm), (finalize_waiting _ vas Hva),
    (finalize_waiting _ sas Hsa), (finalize_list_wf _ _ _ Hvs).
  f_equal. f_equal. unfold wake_one_calls.
  rewrite (proj2 (woken_none (killed h) ms) Hms),
    (proj2 (woken_none (killed h) sas) Hsas),
    (proj2 (woken_none (killed h) vas) Hvas).
  rewrite !killed_prefix_all by done. rewrite !app_nil_r, !record_calls_app.
  by rewrite !fmap_app, app_assoc.
Qed.

(** A queue with two values and a killed producer waiting. *)
Lemma free_queue_needs_no_survivor_witness :
  free_queue host_with_killed_10
    (queue_with_producers 2 [Object 10] [Integer 1; Integer 2])
  = Some (Released
            (record_calls (WakeupFailed <$> ([] ++ [Object 10] ++ []))
               host_with_killed_10)
            [∅; ∅; ∅; ∅]).
Proof.
  apply (free_queue_needs_no_survivor host_with_killed_10
           (queue_with_producers 2 [Object 10] [Integer 1; Integer 2])
           [] [] [Object 10] [Integer 1; Integer 2]).
  apply wf_queue_with_producers; [done|repeat constructor].
Defined.

(** ** Pushing an array *)

(** X27.  [push_multiple_list] with a count within the array puts the
    first [count] values of the array behind the live entries, in their
    order, and adds [count] to the size; it touches no freed node. *)
Theorem push_multiple_list_appends (lst : List) (elems : list VALUE)
    (count : Z) :
  reachable lst →
  0 ≤ count ≤ Z.of_nat (length elems) →
  ∃ lst' vs,
    push_multiple_list lst elems count = Some lst'
    ∧ reachable lst'
    ∧ array_from_list lst = Some vs
    ∧ array_from_list lst' = Some (vs ++ take (Z.to_nat count) elems)
    ∧ size lst' = (size lst + count) mod ULONG_MODULUS.
Proof.
  intros Hreach Hcount.
  assert (∀ n i l,
            reachable l → (i + n ≤ length elems)%nat →
            ∃ l', push_multiple_loop l elems i n = Some l' ∧ reachable l')
    as Hloop.
  { induction n as [|n IH]; intros i l Hl Hlen; [by exists l|].
    destruct (lookup_lt_is_Some_2 elems i) as [v Hv]; [lia|].
    destruct (proj1 (reachable_ops_defined l Hl) v) as [l1 Hpush].
    destruct (IH (S i) l1) as (l' & Hrun & Hl'); [|lia|].
    { by apply (reach_push l v). }
    exists l'. simpl. by rewrite Hv, Hpush. }
  destruct (reachable_wf lst Hreach) as (live & pool & Hwf).
  destruct (push_multiple_loop_wf lst live pool elems 0 (Z.to_nat count) Hwf)
    as (lst' & live' & pool' & Hrun & Hwf' & Hlive'); [lia|].
  destruct (Hloop (Z.to_nat count) 0%nat lst Hreach) as (l' & Hrun' & Hl');
    [lia|].
  rewrite Hrun in Hrun'. injection Hrun' as <-.
  exists lst', (live.*2). unfold push_multiple_list.
  split; [done|]. split; [done|].
  rewrite (array_from_list_wf _ _ _ Hwf), (array_from_list_wf _ _ _ Hwf').
  rewrite drop_0 in Hlive'. split; [done|]. split; [by rewrite Hlive'|].
  rewrite (wf_size _ _ _ Hwf), (wf_size _ _ _ Hwf').
  rewrite Zplus_mod_idemp_l. f_equal.
  rewrite <- (length_fmap snd live'), Hlive', length_app, length_fmap.
  rewrite length_take. lia.
Qed.

Lemma push_multiple_list_appends_witness :
  ∃ lst' vs,
    push_multiple_list pushed_and_shifted [Object 8; Object 9; Object 10] 2
    = Some lst'
    ∧ reachable lst'
    ∧ array_from_list pushed_and_shifted = Some vs
    ∧ array_from_list lst'
      = Some (vs ++ take (Z.to_nat 2) [Object 8; Object 9; Object 10])
    ∧ size lst' = (size pushed_and_shifted + 2) mod ULONG_MODULUS.
Proof.
  apply (push_multiple_list_appends pushed_and_shifted
           [Object 8; Object 9; Object 10] 2).
  - apply (reach_shift true pushed (Object 7)); [|reflexivity].
    apply (reach_push init_list (Object 7)); [|reflexivity].
    apply reach_init.
  - split; discriminate.
Defined.
